(** * etc/clang_format.py: glob expansion, candidate selection and the
    parallel work loop

  A shallow embedding of the parts of [etc/clang_format.py] that carry
  the behaviour of the script: the globstar matcher ([iglob] and its
  helpers, taken over from resmoke's [globstar.py]), the candidate
  filter of [Repo], the worker loop of [parallel_process] and
  [ClangFormat._validate_version].

  Python 2 [str] values are modelled as lists of characters; string
  literals are read through the coercion below.  The functions of
  [os.path] are those of [posixpath] (Python 2.7). *)

From Stdlib Require Import String Ascii List ZArith Lia Bool Arith Permutation.
From Stdlib Require Import Relations.Relation_Operators Wellfounded.
From stdpp Require Import base decidable list gmap strings.
Import ListNotations.

#[local] Open Scope string_scope.
#[local] Open Scope list_scope.

Abbreviation str := (list ascii) (only parsing).
Coercion list_ascii_of_string : string >-> list.

(** ** Strings *)

Module Str.

(** [s.startswith(t)] *)
Fixpoint startswith (s t : str) {struct t} : bool :=
  match t with
  | [] => true
  | b :: t' =>
      match s with
      | [] => false
      | a :: s' => Ascii.eqb a b && startswith s' t'
      end
  end.

(** [s.endswith(t)] *)
Definition endswith (s t : str) : bool := startswith (rev s) (rev t).

(** [t in s]: [t] occurs in [s] as a substring. *)
Fixpoint contains (s t : str) : bool :=
  startswith s t ||
  match s with
  | [] => false
  | _ :: s' => contains s' t
  end.

(** [s.rstrip(chars)], the characters to strip given as a predicate. *)
Fixpoint rstrip (strip : ascii -> bool) (s : str) : str :=
  match s with
  | [] => []
  | c :: s' =>
      match rstrip strip s' with
      | [] => if strip c then [] else [c]
      | r => c :: r
      end
  end.

(** [s.split(c)] for a one-character separator: one field more than
    there are separators. *)
Fixpoint split_on (c : ascii) (s : str) : list str :=
  match s with
  | [] => [[]]
  | x :: s' =>
      if Ascii.eqb x c then [] :: split_on c s'
      else match split_on c s' with
           | f :: fs => (x :: f) :: fs
           | [] => [[x]]
           end
  end.

(** [c.join(fields)] *)
Fixpoint join_with (c : ascii) (fields : list str) : str :=
  match fields with
  | [] => []
  | [f] => f
  | f :: fs => f ++ c :: join_with c fs
  end.

(** Python's [string.whitespace] for [str]: space, tab, newline,
    carriage return, vertical tab, form feed. *)
Definition is_space (c : ascii) : bool :=
  let n := nat_of_ascii c in
  (n =? 32)%nat || ((9 <=? n)%nat && (n <=? 13)%nat).

(** Truth value of a string or list: non-empty. *)
Definition truthy {A} (l : list A) : bool :=
  match l with [] => false | _ => true end.

End Str.

(** ** posixpath *)

Module PosixPath.

Definition sep : ascii := "/"%char.
Definition curdir : str := ".".
Definition pardir : str := "..".

Definition is_sep (c : ascii) : bool := Ascii.eqb c sep.

(** [p.rfind('/') + 1]: the index just after the last separator, 0 when
    there is none. *)
Fixpoint after_last_sep (p : str) : nat :=
  match p with
  | [] => 0
  | c :: p' =>
      match after_last_sep p' with
      | 0 => if is_sep c then 1 else 0
      | S k => S (S k)
      end
  end.

(** [posixpath.split] *)
Definition split (p : str) : str * str :=
  let i := after_last_sep p in
  let head := firstn i p in
  let tail := skipn i p in
  let head :=
    if Str.truthy head && negb (forallb is_sep head)
    then Str.rstrip is_sep head else head in
  (head, tail).

(** [posixpath.basename] *)
Definition basename (p : str) : str := skipn (after_last_sep p) p.

(** One round of the loop of [posixpath.join]. *)
Definition join_step (path b : str) : str :=
  if Str.startswith b "/" then b
  else if negb (Str.truthy path) || Str.endswith path "/" then path ++ b
  else path ++ "/" ++ b.

(** [posixpath.join], first argument and the list of the others *)
Definition join (a : str) (p : list str) : str := fold_left join_step p a.

(** [posixpath.join(a, b)] *)
Definition join2 (a b : str) : str := join a [b].

(** The loop of [posixpath.normpath] over the components. *)
Definition normpath_step (initial_slashes : nat) (new_comps : list str)
    (comp : str) : list str :=
  if bool_decide (comp = []) || bool_decide (comp = curdir) then new_comps
  else if negb (bool_decide (comp = pardir))
          || ((initial_slashes =? 0)%nat && negb (Str.truthy new_comps))
          || (Str.truthy new_comps
              && bool_decide (last new_comps = Some pardir))
       then new_comps ++ [comp]
       else if Str.truthy new_comps then removelast new_comps
            else new_comps.

(** [posixpath.normpath] *)
Definition normpath (path : str) : str :=
  if bool_decide (path = []) then curdir
  else
    let initial_slashes :=
      if Str.startswith path "/" then
        if Str.startswith path "//" && negb (Str.startswith path "///")
        then 2 else 1
      else 0 in
    let comps := Str.split_on sep path in
    let comps := fold_left (normpath_step initial_slashes) comps [] in
    let path := Str.join_with sep comps in
    let path := repeat sep initial_slashes ++ path in
    if Str.truthy path then path else curdir.

(** [posixpath.isabs] *)
Definition isabs (s : str) : bool := Str.startswith s "/".

End PosixPath.

(** ** Generators as traces

    A Python generator is driven by its consumer; what it does is the
    sequence, in program order, of the filesystem calls it makes and of the
    values it yields, and the way it ends.  [OutOfFuel] marks a run that
    was cut off: the events before it are a true prefix of the run. *)

Inductive exn := ValueError | CalledProcessError | OSError.

Inductive access :=
| Walk (pathname : str)      (* os.walk(pathname).next() *)
| Islink (pathname : str)    (* os.path.islink(pathname) *)
| Glob (pathname : str).     (* glob.iglob(pathname) *)

Inductive event (A : Type) :=
| Access (a : access)
| Yield (x : A).
Arguments Access {A} a.
Arguments Yield {A} x.

Inductive status := Finished | Raised (e : exn) | OutOfFuel.

Definition gen (A : Type) : Type := list (event A) * status.

Module Gen.

Definition skip {A} : gen A := ([], Finished).
Definition yield {A} (x : A) : gen A := ([Yield x], Finished).
Definition touch {A} (a : access) : gen A := ([Access a], Finished).
Definition raise {A} (e : exn) : gen A := ([], Raised e).
Definition cut {A} : gen A := ([], OutOfFuel).

(** [g1] then [g2]; a run that did not finish stops the sequence. *)
Definition seq {A} (g1 g2 : gen A) : gen A :=
  match snd g1 with
  | Finished => (fst g1 ++ fst g2, snd g2)
  | st => (fst g1, st)
  end.

(** [for x in l: body(x)] over a list. *)
Fixpoint each {X A} (l : list X) (body : X -> gen A) : gen A :=
  match l with
  | [] => skip
  | x :: l' => seq (body x) (each l' body)
  end.

(** [for x in g: body(x)] over a generator: the body runs at each yield
    of [g], between the filesystem calls [g] makes. *)
Fixpoint for_events {A B} (evs : list (event A)) (body : A -> gen B) : gen B :=
  match evs with
  | [] => skip
  | Access a :: evs' => seq (touch a) (for_events evs' body)
  | Yield x :: evs' => seq (body x) (for_events evs' body)
  end.

Definition for_ {A B} (g : gen A) (body : A -> gen B) : gen B :=
  seq (for_events (fst g) body) ([], snd g).

(** The values yielded, in order. *)
Fixpoint yields {A} (evs : list (event A)) : list A :=
  match evs with
  | [] => []
  | Access _ :: evs' => yields evs'
  | Yield x :: evs' => x :: yields evs'
  end.

(** The filesystem calls made, in order. *)
Fixpoint accesses {A} (evs : list (event A)) : list access :=
  match evs with
  | [] => []
  | Access a :: evs' => a :: accesses evs'
  | Yield _ :: evs' => accesses evs'
  end.

End Gen.

Declare Scope gen_scope.
Delimit Scope gen_scope with gen.
Notation "g1 ;; g2" := (Gen.seq g1 g2)
  (at level 100, g2 at level 200, right associativity) : gen_scope.

(** ** The filesystem, as the matcher sees it *)

Record FS := {
  (** [os.walk(pathname).next()]: the names of the subdirectories and of
      the other entries of [pathname]; [None] when the walk yields nothing
      (the directory cannot be listed). *)
  walk_next : str -> option (list str * list str);
  (** [os.path.islink] *)
  islink : str -> bool;
  (** [glob.iglob], the single-level shell glob of the standard library *)
  glob_iglob : str -> list str
}.

(** ** globstar *)

Inductive result (A : Type) := Ok (a : A) | Raise (e : exn).
Arguments Ok {A} a.
Arguments Raise {A} e.

Inductive kind := KDir | KFile.    (* "dir", "file" *)

Module Globstar.
Import Gen.
#[local] Open Scope gen_scope.

Definition _GLOBSTAR : str := "**".

(** The loop of [_split_path]: [None] only when the fuel runs out. *)
Fixpoint _split_path_loop (fuel : nat) (pathname : str) (parts : list str)
    : option (list str) :=
  match fuel with
  | 0 => None
  | S fuel =>
      let '(dirname, basename) := PosixPath.split pathname in
      let parts := parts ++ [basename] in
      if bool_decide (pathname = dirname) then Some (parts ++ [dirname])
      else if negb (Str.truthy dirname) then Some parts
      else _split_path_loop fuel dirname parts
  end.

Definition _split_path (pathname : str) : list str :=
  match _split_path_loop (S (length pathname)) pathname [] with
  | Some parts => rev parts
  | None => []
  end.

Fixpoint _canonicalize_loop (parts res : list str) (prev_was_globstar : bool)
    : result (list str) :=
  match parts with
  | [] => Ok res
  | p :: parts' =>
      if bool_decide (p = _GLOBSTAR) then
        if negb prev_was_globstar
        then _canonicalize_loop parts' (res ++ [p]) true
        else _canonicalize_loop parts' res prev_was_globstar
      else if Str.contains p _GLOBSTAR then Raise ValueError
      else _canonicalize_loop parts' (res ++ [p]) false
  end.

Definition _canonicalize (parts : list str) : result (list str) :=
  _canonicalize_loop parts [] false.

Fixpoint _find_globstar_from (i : Z) (parts : list str) : Z :=
  match parts with
  | [] => (-1)%Z
  | p :: parts' =>
      if bool_decide (p = _GLOBSTAR) then i
      else _find_globstar_from (i + 1)%Z parts'
  end.

Definition _find_globstar (parts : list str) : Z :=
  _find_globstar_from 0%Z parts.

(** [os.path.join] applied to the elements of a non-empty list. *)
Definition join_star (parts : list str) : str :=
  match parts with
  | [] => []
  | a :: p => PosixPath.join a p
  end.

(** [parts[:index]] and [parts[index + 1:]] for an index that is not
    negative. *)
Definition prefix_parts_of (parts : list str) (index : Z) : list str :=
  firstn (Z.to_nat index) parts.
Definition suffix_parts_of (parts : list str) (index : Z) : list str :=
  skipn (Z.to_nat (index + 1)) parts.

(** The prefix: the prefix parts joined, or [os.curdir] when there are
    none. *)
Definition prefix_of (prefix_parts : list str) : str :=
  if Str.truthy prefix_parts then join_star prefix_parts
  else PosixPath.curdir.

(** The suffix: the suffix parts joined, or the empty string when there
    are none. *)
Definition suffix_of (suffix_parts : list str) : str :=
  if Str.truthy suffix_parts then join_star suffix_parts else [].

Section WithFS.
Variable fs : FS.

Definition _list_dir (pathname : str) : option (list str * list str) :=
  walk_next fs pathname.

Fixpoint _expand (fuel : nat) (pathname : str) : gen (kind * str) :=
  match fuel with
  | 0 => cut
  | S fuel =>
      touch (Walk pathname) ;;
      match _list_dir pathname with
      | None => skip
      | Some (dirs, files) =>
          (if Str.truthy (PosixPath.basename pathname)
           then yield (KDir, PosixPath.join2 pathname [])
           else skip) ;;
          each files (fun f => yield (KFile, PosixPath.join2 pathname f)) ;;
          each dirs (fun d =>
            let path := PosixPath.join2 pathname d in
            for_ (_expand fuel path) yield)
      end
  end.

Definition _expand_curdir (fuel : nat) (pathname : str) : gen (kind * str) :=
  match fuel with
  | 0 => cut
  | S fuel =>
      touch (Walk pathname) ;;
      match _list_dir pathname with
      | None => skip
      | Some (dirs, files) =>
          yield (KDir, ([] : str)) ;;
          each files (fun f => yield (KFile, f)) ;;
          each dirs (fun d => for_ (_expand fuel d) yield)
      end
  end.

Fixpoint iglob (fuel : nat) (globbed_pathname : str) : gen str :=
  match fuel with
  | 0 => cut
  | S fuel =>
      let parts := _split_path globbed_pathname in
      match _canonicalize parts with
      | Raise e => raise e
      | Ok parts =>
          let index := _find_globstar parts in
          if (index =? -1)%Z then
            touch (Glob globbed_pathname) ;;
            each (glob_iglob fs globbed_pathname)
                 (fun pathname => yield (PosixPath.normpath pathname))
          else
            let expand :=
              if (index =? 0)%Z then _expand_curdir else _expand in
            let prefix_parts := prefix_parts_of parts index in
            let suffix_parts := suffix_parts_of parts index in
            let prefix := prefix_of prefix_parts in
            let suffix := suffix_of suffix_parts in
            for_ (expand fuel prefix) (fun '(kind, path) =>
              if negb (Str.truthy suffix_parts) then yield path
              else
                match kind with
                | KDir =>
                    touch (Islink path) ;;
                    if negb (islink fs path) then
                      let path := PosixPath.join2 path suffix in
                      for_ (iglob fuel path) yield
                    else skip
                | KFile => skip
                end)
      end
  end.

End WithFS.
End Globstar.

(** ** A concrete filesystem

    Directory trees with symbolic links, and the calls of [os] and
    [os.path] the matcher relies on, with POSIX path resolution: a link in
    the middle of a path, or before a trailing separator, is followed; the
    kernel gives up ([ELOOP]) after [MAXSYMLINKS] links in one
    resolution. *)

Module TreeFS.

#[local] Set Warnings "-register-all".

Inductive node :=
| File
| Dir (entries : list (str * node))
| Symlink (target : str).

Definition MAXSYMLINKS : nat := 40.

Fixpoint child (entries : list (str * node)) (name : str) : option node :=
  match entries with
  | [] => None
  | (n, x) :: entries' =>
      if bool_decide (n = name) then Some x else child entries' name
  end.

(** The node at a link-free path from the root. *)
Fixpoint lookup (n : node) (comps : list str) : option node :=
  match comps with
  | [] => Some n
  | c :: comps' =>
      match n with
      | Dir entries =>
          match child entries c with
          | Some n' => lookup n' comps'
          | None => None
          end
      | _ => None
      end
  end.

Section WithRoot.
Variable root : node.
(** The working directory of the process, a link-free path. *)
Variable cwd : list str.

(** Path resolution from directory [cur] along [comps]; [follow] says
    whether a link in the last position is followed ([stat]) or not
    ([lstat]). *)
Fixpoint resolve (hops : nat) : list str -> list str -> bool -> option (list str) :=
  fix walk (cur comps : list str) (follow : bool) : option (list str) :=
    match comps with
    | [] => Some cur
    | c :: rest =>
        match lookup root cur with
        | Some (Dir entries) =>
            if bool_decide (c = []) || bool_decide (c = PosixPath.curdir)
            then walk cur rest follow
            else if bool_decide (c = PosixPath.pardir)
            then walk (removelast cur) rest follow
            else
              match child entries c with
              | None => None
              | Some (Symlink target) =>
                  if negb (Str.truthy rest) && negb follow
                  then Some (cur ++ [c])
                  else
                    match hops with
                    | 0 => None
                    | S hops' =>
                        resolve hops'
                          (if PosixPath.isabs target then [] else cur)
                          (Str.split_on PosixPath.sep target ++ rest) follow
                    end
              | Some _ => walk (cur ++ [c]) rest follow
              end
        | _ => None
        end
    end.

Definition resolve_path (follow : bool) (path : str) : option node :=
  if bool_decide (path = []) then None
  else
    match resolve MAXSYMLINKS (if PosixPath.isabs path then [] else cwd)
            (Str.split_on PosixPath.sep path) follow with
    | Some comps => lookup root comps
    | None => None
    end.

(** [os.path.isdir] *)
Definition isdir (path : str) : bool :=
  match resolve_path true path with
  | Some (Dir _) => true
  | _ => false
  end.

(** [os.path.islink] *)
Definition islink (path : str) : bool :=
  match resolve_path false path with
  | Some (Symlink _) => true
  | _ => false
  end.

(** [os.listdir]; [None] for [os.error]. *)
Definition listdir (path : str) : option (list str) :=
  match resolve_path true path with
  | Some (Dir entries) => Some (map fst entries)
  | _ => None
  end.

(** The first step of [os.walk(top)]: the names under [top], those for
    which [isdir(join(top, name))] holds apart from the others. *)
Definition walk_next (top : str) : option (list str * list str) :=
  match listdir top with
  | None => None
  | Some names =>
      Some (filter (fun name => isdir (PosixPath.join2 top name) = true) names,
            filter (fun name => isdir (PosixPath.join2 top name) = false) names)
  end.

(** [os.path.lexists] *)
Definition lexists (path : str) : bool :=
  match resolve_path false path with
  | Some _ => true
  | None => false
  end.

(** [glob.has_magic]: one of the characters of shell patterns occurs. *)
Definition has_magic (s : str) : bool :=
  existsb (fun c => Ascii.eqb c "*" || Ascii.eqb c "?" || Ascii.eqb c "[") s.

(** [glob.iglob] of the standard library on a pattern without magic
    character: the path itself when it exists, and when it ends in a
    separator only if it is a directory.  Patterns with magic characters
    are not modelled: the sample runs do not reach the glob with one. *)
Definition glob_literal (pathname : str) : list str :=
  let '(dirname, basename) := PosixPath.split pathname in
  if has_magic pathname then []
  else if Str.truthy basename
       then (if lexists pathname then [pathname] else [])
       else (if isdir dirname then [pathname] else []).

(** The filesystem of the tree; the single-level glob of the standard
    library is left to the caller. *)
Definition fs (glob : str -> list str) : FS :=
  Build_FS walk_next islink glob.

End WithRoot.
End TreeFS.

(** ** ClangFormat._validate_version *)

Module ClangFormat.
Section WithCallo.
(** [callo(args)]: the output of the program, or the exception of the
    call ([CalledProcessError] for a non-zero exit status). *)
Variable callo : list str -> result str.

(** The lines printed, and the value returned or the exception raised. *)
Definition _validate_version (self_path : str) (warn : bool)
    : list str * result bool :=
  let cf_version :=
    match callo [self_path; ("--version" : str)] with
    | Ok out => Ok out
    | Raise CalledProcessError => Ok ("clang-format call failed." : str)
    | Raise e => Raise e
    end in
  match cf_version with
  | Raise e => ([], Raise e)
  | Ok cf_version =>
      let printed :=
        if warn
        then [("WARNING: clang-format found in path, but incorrect version found at " : str)
                ++ self_path ++ (" with version: " : str) ++ cf_version]
        else [] in
      (printed, Ok false)
  end.

End WithCallo.
End ClangFormat.

(** ** parallel_process

    The threads of [parallel_process] interleave at the granularity of the
    calls they make on the shared objects: the queue, the event, the lock
    and the one-element result list.  Every thread is a small machine over
    the places of the [worker] loop; the main thread spawns, waits for the
    event and joins.  [log] records the items handed to [func], in the
    order of the calls.  Here [func] returns a boolean on every item; a
    [func] that raises is the matter of [ParallelProcessRaise] below. *)

Module ParallelProcess.
Section WithFunc.
Context {Item : Type}.
Variable func : Item -> bool.
(** [cpu_count()], or 1 when it raises [NotImplementedError]. *)
Variable cpus : nat.

Inductive tpc :=
| LoopTest                  (* while not pp_event.is_set() *)
| GetNowait                 (* item = task_queue.get_nowait() *)
| QueueEmpty                (* except Queue.Empty: pp_event.set(); return *)
| CallFunc (item : Item)    (* ret = func(item) *)
| TaskDone (ret : bool)     (* finally: task_queue.task_done(); if not ret *)
| AcquireLock               (* with pp_lock: entered *)
| SetResult                 (* pp_result[0] = False *)
| ReleaseLock               (* with pp_lock: left *)
| SetEvent                  (* pp_event.set(); return *)
| Exited.

Inductive mpc :=
| Spawning                  (* for cpu in range(cpus): thread.start() *)
| Waiting                   (* while not pp_event.wait(1) ... *)
| Joining (k : nat)         (* for thread in threads: thread.join() *)
| Returned (b : bool).      (* return pp_result[0] *)

Record shared := {
  queue : list Item;        (* task_queue *)
  event : bool;             (* pp_event *)
  result : bool;            (* pp_result[0] *)
  lock : bool;              (* pp_lock is held *)
  log : list Item
}.

Record state := {
  sh : shared;
  threads : list tpc;
  main : mpc
}.

Definition set_queue (q : list Item) (s : shared) : shared :=
  {| queue := q; event := event s; result := result s; lock := lock s;
     log := log s |}.
Definition set_event (s : shared) : shared :=
  {| queue := queue s; event := true; result := result s; lock := lock s;
     log := log s |}.
Definition set_result (b : bool) (s : shared) : shared :=
  {| queue := queue s; event := event s; result := b; lock := lock s;
     log := log s |}.
Definition set_lock (b : bool) (s : shared) : shared :=
  {| queue := queue s; event := event s; result := result s; lock := b;
     log := log s |}.
Definition add_log (x : Item) (s : shared) : shared :=
  {| queue := queue s; event := event s; result := result s; lock := lock s;
     log := log s ++ [x] |}.

(** One step of a worker thread; [None] when it is blocked on the lock or
    has returned. *)
Definition tnext (s : shared) (pc : tpc) : option (shared * tpc) :=
  match pc with
  | LoopTest => Some (s, if event s then Exited else GetNowait)
  | GetNowait =>
      match queue s with
      | item :: q => Some (set_queue q s, CallFunc item)
      | [] => Some (s, QueueEmpty)
      end
  | QueueEmpty => Some (set_event s, Exited)
  | CallFunc item => Some (add_log item s, TaskDone (func item))
  | TaskDone ret => Some (s, if ret then LoopTest else AcquireLock)
  | AcquireLock => if lock s then None else Some (set_lock true s, SetResult)
  | SetResult => Some (set_result false s, ReleaseLock)
  | ReleaseLock => Some (set_lock false s, SetEvent)
  | SetEvent => Some (set_event s, Exited)
  | Exited => None
  end.

(** One step of the main thread; [None] when it is blocked in [wait] or
    [join], or has returned. *)
Definition mnext (s : state) : option state :=
  match main s with
  | Spawning =>
      if (length (threads s) <? cpus)%nat
      then Some {| sh := sh s; threads := threads s ++ [LoopTest];
                   main := Spawning |}
      else Some {| sh := sh s; threads := threads s; main := Waiting |}
  | Waiting =>
      if event (sh s)
      then Some {| sh := sh s; threads := threads s; main := Joining 0 |}
      else None
  | Joining k =>
      match threads s !! k with
      | Some Exited =>
          Some {| sh := sh s; threads := threads s; main := Joining (S k) |}
      | Some _ => None
      | None =>
          Some {| sh := sh s; threads := threads s;
                  main := Returned (result (sh s)) |}
      end
  | Returned _ => None
  end.

Inductive step (s : state) : state -> Prop :=
| step_thread i pc sh' pc' :
    threads s !! i = Some pc ->
    tnext (sh s) pc = Some (sh', pc') ->
    step s {| sh := sh'; threads := <[i := pc']> (threads s); main := main s |}
| step_main s' :
    mnext s = Some s' ->
    step s s'.

(** The state once all the items are enqueued. *)
Definition init (items : list Item) : state :=
  {| sh := {| queue := items; event := false; result := true; lock := false;
              log := [] |};
     threads := [];
     main := Spawning |}.

(** A schedule names who moves next: the main thread or a worker. *)
Inductive who := Main | Worker (i : nat).

Definition sched_step (w : who) (s : state) : option state :=
  match w with
  | Main => mnext s
  | Worker i =>
      match threads s !! i with
      | Some pc =>
          match tnext (sh s) pc with
          | Some (sh', pc') =>
              Some {| sh := sh'; threads := <[i := pc']> (threads s);
                      main := main s |}
          | None => None
          end
      | None => None
      end
  end.

Fixpoint run (schedule : list who) (s : state) : option state :=
  match schedule with
  | [] => Some s
  | w :: schedule' =>
      match sched_step w s with
      | Some s' => run schedule' s'
      | None => None
      end
  end.

(** *** Vocabulary of the invariant *)

(** Threads counted by place. *)
Definition tsum (f : tpc -> nat) (l : list tpc) : nat := list_sum (map f l).

Definition is_exited (pc : tpc) : nat :=
  match pc with Exited => 1 | _ => 0 end.
Definition at_get (pc : tpc) : nat :=
  match pc with GetNowait => 1 | _ => 0 end.
Definition saw_empty (pc : tpc) : nat :=
  match pc with QueueEmpty => 1 | _ => 0 end.
Definition holds_lock (pc : tpc) : nat :=
  match pc with SetResult | ReleaseLock => 1 | _ => 0 end.
(** A call has returned [False] and the result is not written yet. *)
Definition pending_write (pc : tpc) : nat :=
  match pc with TaskDone false | AcquireLock | SetResult => 1 | _ => 0 end.
Definition on_fail_path (pc : tpc) : nat :=
  match pc with
  | TaskDone false | AcquireLock | SetResult | ReleaseLock | SetEvent => 1
  | _ => 0
  end.

(** The item a thread has taken from the queue and not yet handed to
    [func]. *)
Definition held (pc : tpc) : list Item :=
  match pc with CallFunc item => [item] | _ => [] end.
Definition in_flight (l : list tpc) : list Item := flat_map held l.

(** Some call logged has returned [False]. *)
Definition some_failed (l : list Item) : bool :=
  existsb (fun x => negb (func x)) l.

Definition rank (pc : tpc) : nat :=
  match pc with
  | Exited => 0
  | SetEvent | QueueEmpty => 1
  | ReleaseLock => 2
  | SetResult => 3
  | AcquireLock => 4
  | GetNowait => 5
  | LoopTest => 6
  | TaskDone _ => 7
  | CallFunc _ => 8
  end.

Definition main_rank (m : mpc) (started : nat) : nat :=
  match m with
  | Spawning => 3 + started + 8 * (cpus - started)
  | Waiting => 2 + started
  | Joining k => 1 + (started - k)
  | Returned _ => 0
  end.

(** Every step makes this smaller. *)
Definition measure (s : state) : nat :=
  main_rank (main s) (length (threads s)) + tsum rank (threads s)
  + 10 * length (queue (sh s)).

Record Inv (items : list Item) (s : state) : Prop := {
  inv_len : length (threads s) <= cpus;
  inv_started : main s <> Spawning -> length (threads s) = cpus;
  inv_items :
    Permutation items (log (sh s) ++ in_flight (threads s) ++ queue (sh s));
  inv_exited : event (sh s) = false -> tsum is_exited (threads s) = 0;
  inv_setter : event (sh s) = true -> 0 < tsum is_exited (threads s);
  inv_event :
    event (sh s) = true ->
    queue (sh s) = [] \/ some_failed (log (sh s)) = true;
  inv_result : result (sh s) = false -> some_failed (log (sh s)) = true;
  inv_pending :
    some_failed (log (sh s)) = true ->
    result (sh s) = false \/ 0 < tsum pending_write (threads s);
  inv_lock : tsum holds_lock (threads s) = if lock (sh s) then 1 else 0;
  inv_empty : 0 < tsum saw_empty (threads s) -> queue (sh s) = [];
  inv_fail :
    0 < tsum on_fail_path (threads s) -> some_failed (log (sh s)) = true;
  inv_main :
    match main s with
    | Spawning | Waiting => True
    | Joining k =>
        event (sh s) = true /\ firstn k (threads s) = replicate k Exited
    | Returned b =>
        event (sh s) = true
        /\ threads s = replicate (length (threads s)) Exited
        /\ b = result (sh s)
    end
}.

(** An item leaves the queue although the stop event is already set. *)
Definition dequeues_after_stop (items : list Item) : Prop :=
  exists s s',
    rtc step (init items) s
    /\ event (sh s) = true
    /\ step s s'
    /\ length (queue (sh s')) < length (queue (sh s)).

(** Thread [i] makes the step of the place [pc], from [s] to [s']. *)
Definition thread_moves (i : nat) (pc : tpc) (s s' : state) : Prop :=
  threads s !! i = Some pc
  /\ exists sh' pc',
       tnext (sh s) pc = Some (sh', pc')
       /\ s' = {| sh := sh'; threads := <[i := pc']> (threads s);
                  main := main s |}.

End WithFunc.

(** Two threads: both pass the test of the loop; thread 0 takes the first
    item, fails on it and goes all the way to setting the event. *)
Definition race_schedule : list who :=
  [Main; Main; Worker 0; Worker 1;
   Worker 0; Worker 0; Worker 0; Worker 0; Worker 0; Worker 0; Worker 0].

End ParallelProcess.

(** ** Repo *)

Module Repo.

(** [str.splitlines()] of Python 2: lines end at a newline, a carriage
    return, or the two in a row. *)
Fixpoint splitlines_from (cur s : str) : list str :=
  match s with
  | [] => if Str.truthy cur then [cur] else []
  | c :: s' =>
      if Ascii.eqb c "010"%char then cur :: splitlines_from [] s'
      else if Ascii.eqb c "013"%char then
        match s' with
        | c' :: s'' =>
            if Ascii.eqb c' "010"%char then cur :: splitlines_from [] s''
            else cur :: splitlines_from [] s'
        | [] => cur :: splitlines_from [] s'
        end
      else splitlines_from (cur ++ [c]) s'
  end.

Definition splitlines (s : str) : list str := splitlines_from [] s.

(** [re.compile('\\.(h|hpp|cpp)$').search(a)]: the extension at the end of
    the string, or just before a newline that ends it. *)
Definition has_extension (a : str) : bool :=
  Str.endswith a ".h" || Str.endswith a ".hpp" || Str.endswith a ".cpp".

Definition files_match_search (a : str) : bool :=
  has_extension a
  || (Str.endswith a ["010"%char] && has_extension (removelast a)).

(** The longest common prefix of two lists, [os.path.commonprefix] on the
    two component lists. *)
Fixpoint commonprefix (l1 l2 : list str) : list str :=
  match l1, l2 with
  | x :: l1', y :: l2' =>
      if bool_decide (x = y) then x :: commonprefix l1' l2' else []
  | _, _ => []
  end.

(** A list comprehension whose element expression may raise. *)
Fixpoint map_result {A B} (f : A -> result B) (l : list A) : result (list B) :=
  match l with
  | [] => Ok []
  | x :: l' =>
      match f x with
      | Raise e => Raise e
      | Ok y =>
          match map_result f l' with
          | Raise e => Raise e
          | Ok ys => Ok (y :: ys)
          end
      end
  end.

Section WithRepo.
(** [os.getcwd()] *)
Variable cwd : str.
(** [self.root] *)
Variable root : str.
(** The output of [git ls-files] *)
Variable gito : str.

(** [posixpath.abspath] *)
Definition abspath (path : str) : str :=
  PosixPath.normpath
    (if negb (PosixPath.isabs path) then PosixPath.join2 cwd path else path).

(** [posixpath.relpath]; with an empty path it raises [ValueError]. *)
Definition relpath (path start : str) : result str :=
  if negb (Str.truthy path) then Raise ValueError
  else
    let start_list :=
      filter (fun x => Str.truthy x = true)
        (Str.split_on PosixPath.sep (abspath start)) in
    let path_list :=
      filter (fun x => Str.truthy x = true)
        (Str.split_on PosixPath.sep (abspath path)) in
    let i := length (commonprefix start_list path_list) in
    let rel_list :=
      repeat PosixPath.pardir (length start_list - i) ++ skipn i path_list in
    if negb (Str.truthy rel_list) then Ok PosixPath.curdir
    else Ok (Globstar.join_star rel_list).

Definition _get_local_dir (path : str) : result str :=
  if PosixPath.isabs path then relpath path root else Ok path.

Definition _get_candidate_files : list str :=
  let file_list :=
    map (Str.rstrip Str.is_space)
      (filter (fun line =>
                 Str.contains line "src"
                 && negb (Str.contains line "examples")
                 && negb (Str.contains line "third_party") = true)
         (splitlines gito)) in
  filter (fun a => files_match_search a = true) file_list.

Definition get_candidate_files : list str := _get_candidate_files.

(** [get_candidates]; [candidates] is [None] for Python's [None].  The
    order in which a Python [set] lists its elements is not specified;
    [elements] stands for it. *)
Definition get_candidates (candidates : option (list str))
    : result (list str) :=
  let valid_files :=
    match candidates with
    | Some ((_ :: _) as candidates) =>
        match map_result _get_local_dir candidates with
        | Raise e => Raise e
        | Ok candidates =>
            Ok (elements ((list_to_set candidates : gset str)
                            ∩ list_to_set get_candidate_files))
        end
    | _ => Ok get_candidate_files
    end in
  match valid_files with
  | Raise e => Raise e
  | Ok valid_files =>
      Ok (map (fun f => PosixPath.normpath (PosixPath.join2 root f))
            valid_files)
  end.

End WithRepo.
End Repo.

(** ** Vocabulary of the statements *)

(** A segment that holds the recursive wildcard together with other
    characters. *)
Definition mixes_globstar (p : str) : bool :=
  Str.contains p Globstar._GLOBSTAR
  && negb (bool_decide (p = Globstar._GLOBSTAR)).

(** The words of the specification for a pattern without recursive
    wildcard: the single-level glob of the pattern, each path
    normalized. *)
Definition spec_plain_glob (fs : FS) (pattern : str) : list str :=
  map PosixPath.normpath (glob_iglob fs pattern).

(** A path is in normal form: no leading [./], and no trailing separator
    unless it consists of separators only. *)
Definition is_normalized (p : str) : bool :=
  negb (Str.startswith p "./")
  && (negb (Str.endswith p "/") || forallb PosixPath.is_sep p).

(** A component that [normpath] keeps as it is. *)
Definition kept_comp (c : str) : Prop :=
  c <> [] /\ c <> PosixPath.curdir /\ ~ In PosixPath.sep c.

(** The components are in the order [normpath] leaves them in: a parent
    reference stands only before the first name, after other parent
    references, and in a relative path. *)
Definition dots_first (initial_slashes : nat) (comps : list str) : Prop :=
  forall pre cs,
    comps = pre ++ PosixPath.pardir :: cs ->
    initial_slashes = 0 /\ Forall (fun c => c = PosixPath.pardir) pre.

(** A path as [_expand] or [_expand_curdir] builds it for some directory;
    a directory is then the empty string or ends in a separator. *)
Definition built_by_expand (fs : FS) (p : str) : Prop :=
  exists fuel dir kind,
    (In (kind, p) (Gen.yields (fst (Globstar._expand fs fuel dir)))
     \/ In (kind, p) (Gen.yields (fst (Globstar._expand_curdir fs fuel dir))))
    /\ (kind = KDir -> p = [] \/ last p = Some PosixPath.sep).

(** The words of the specification of the candidate set: the tracked
    files of the inventory, the allow-list of three extensions, and the
    path segments of examples and of third-party code. *)
Definition spec_inventory (gito : str) : list str :=
  map (Str.rstrip Str.is_space) (Repo.splitlines gito).

Definition spec_extensions : list str := [(".h" : str); (".hpp" : str); (".cpp" : str)].

Definition spec_allowed_extension (f : str) : bool :=
  existsb (Str.endswith f) spec_extensions.

Definition spec_excluded_segments : list str :=
  [("examples" : str); ("third_party" : str)].

Definition spec_under_excluded_segment (f : str) : bool :=
  existsb (fun segment =>
             existsb (fun excluded => bool_decide (segment = excluded))
               spec_excluded_segments)
    (Str.split_on PosixPath.sep f).

Definition spec_filtered_inventory (gito : str) : list str :=
  filter (fun f => spec_allowed_extension f
                   && negb (spec_under_excluded_segment f) = true)
    (spec_inventory gito).

(** What the code asks of an entry beyond the specification: [src]
    somewhere in it, and [examples] and [third_party] nowhere in it, be it
    inside a name. *)
Definition code_keeps (f : str) : bool :=
  Str.contains f "src"
  && negb (Str.contains f "examples")
  && negb (Str.contains f "third_party").

(** An inventory with a header outside [src] and a file whose name holds
    [examples]. *)
Definition sample_inventory_outside_src : str :=
  "include/a.h" ++ ["010"%char] ++ "src/b.h" ++ ["010"%char]
  ++ "src/counterexamples.cpp" ++ ["010"%char].

(** ** Sample trees

    [sample_tree] is [/f], [/a/f] and [/a/x/b]; [loop_tree] is [/a/f] and
    the link [/a/loop] to [.], that is to [/a] itself.  The working
    directory is the root. *)

Definition sample_tree : TreeFS.node :=
  TreeFS.Dir
    [(("a" : str),
      TreeFS.Dir [(("f" : str), TreeFS.File);
                  (("x" : str), TreeFS.Dir [(("b" : str), TreeFS.File)])]);
     (("f" : str), TreeFS.File)].

Definition loop_tree : TreeFS.node :=
  TreeFS.Dir
    [(("a" : str),
      TreeFS.Dir [(("f" : str), TreeFS.File);
                  (("loop" : str), TreeFS.Symlink ".")])].

Definition no_glob : str -> list str := fun _ => [].

Definition sample_fs : FS :=
  TreeFS.fs sample_tree [] (TreeFS.glob_literal sample_tree []).
Definition loop_fs : FS :=
  TreeFS.fs loop_tree [] (TreeFS.glob_literal loop_tree []).

(** A directory whose entry [loop] leads back to it, on a system that
    resolves any number of links. *)
Definition endless_fs : FS :=
  {| walk_next := fun _ => Some ([("loop" : str)], []);
     islink := fun p => Str.endswith p "/loop";
     glob_iglob := no_glob |}.


(** * Further functions *)

(** ** The pattern of get_files_to_check_from_patch *)

Module Re.

(** The part of Python's [re] that the pattern uses: a literal character,
    a character class repeated once or more, and the two ends of a
    group. *)
Inductive item :=
| Lit (c : ascii)
| ClassPlus (cls : ascii -> bool)
| GroupOpen
| GroupClose.

(** A literal string of the pattern. *)
Definition literal (s : str) : list item := map Lit s.

Section Matcher.
Context {R : Type}.

(** Zero or more characters of the class, then [k] on what is left.  The
    repetition is greedy: the longest run is tried first, and a character
    is given back each time the rest of the pattern fails. *)
Fixpoint star (cls : ascii -> bool) (k : str -> option R) (s : str)
    : option R :=
  match s with
  | c :: s' =>
      if cls c then
        match star cls k s' with
        | Some r => Some r
        | None => k s
        end
      else k s
  | [] => k s
  end.

(** One or more characters of the class. *)
Definition plus (cls : ascii -> bool) (k : str -> option R) (s : str)
    : option R :=
  match s with
  | c :: s' => if cls c then star cls k s' else None
  | [] => None
  end.

End Matcher.

(** [match_from items opened closed s]: the items match at the start of
    [s].  The result is the text that was left to read where the group
    opened and where it closed. *)
Fixpoint match_from (items : list item) (opened closed s : str)
    : option (str * str) :=
  match items with
  | [] => Some (opened, closed)
  | Lit c :: items' =>
      match s with
      | c' :: s' =>
          if Ascii.eqb c' c then match_from items' opened closed s' else None
      | [] => None
      end
  | ClassPlus cls :: items' => plus cls (match_from items' opened closed) s
  | GroupOpen :: items' => match_from items' s closed s
  | GroupClose :: items' => match_from items' opened s s
  end.

(** [m.group(1)]: the text between the two ends of the group. *)
Definition group1 (m : str * str) : str :=
  take (length (fst m) - length (snd m)) (fst m).

End Re.

(** Exceptions of the functions below: those above, [IOError] of [open]
    and [KeyError] of [os.environ]. *)
Inductive error := IOError | KeyError | Other (e : exn).

Inductive outcome (A : Type) := Return (a : A) | Throw (e : error).
Arguments Return {A} a.
Arguments Throw {A} e.

Module Patch.

Definition in_range (lo hi c : ascii) : bool :=
  (nat_of_ascii lo <=? nat_of_ascii c)%nat
  && (nat_of_ascii c <=? nat_of_ascii hi)%nat.

(** The class [[a-z\/\.\-_0-9]] *)
Definition path_char (c : ascii) : bool :=
  in_range "a" "z" c
  || Ascii.eqb c "/" || Ascii.eqb c "." || Ascii.eqb c "-" || Ascii.eqb c "_"
  || in_range "0" "9" c.

(** The pattern [^diff --git a\/([a-z\/\.\-_0-9]+) b\/[a-z\/\.\-_0-9]+];
    [match] tries it at the start of the line only, where [^] holds. *)
Definition check : list Re.item :=
  Re.literal "diff --git a/"
  ++ [Re.GroupOpen; Re.ClassPlus path_char; Re.GroupClose]
  ++ Re.literal " b/"
  ++ [Re.ClassPlus path_char].

(** [check.match(line)] *)
Definition check_match (line : str) : option (str * str) :=
  Re.match_from check [] [] line.

(** [infile.readlines()] of a file opened in binary mode: the lines with
    the newline that ends them. *)
Fixpoint readlines_from (cur s : str) : list str :=
  match s with
  | [] => if Str.truthy cur then [cur] else []
  | c :: s' =>
      if Ascii.eqb c "010"%char then (cur ++ [c]) :: readlines_from [] s'
      else readlines_from (cur ++ [c]) s'
  end.

Definition readlines (s : str) : list str := readlines_from [] s.

Section WithRepo.
(** [os.getcwd()], and the one repository of [get_repos()] once git has
    answered: its root and the output of [git ls-files]; the calls of git
    themselves, which may fail, are in [Git] below. *)
Variables cwd root gito : str.
(** [open(patch, "rb").read()]; [None] when [open] raises [IOError]. *)
Variable open_rb : str -> option str.

(** The loop that reads the patches. *)
Fixpoint read_patches (patches : list str) : outcome (list str) :=
  match patches with
  | [] => Return []
  | patch :: patches' =>
      match open_rb patch with
      | None => Throw IOError
      | Some content =>
          match read_patches patches' with
          | Throw e => Throw e
          | Return lines => Return (readlines content ++ lines)
          end
      end
  end.

(** The list comprehension over the lines. *)
Definition candidates_of (lines : list str) : list str :=
  flat_map (fun line =>
              match check_match line with
              | Some m => [Re.group1 m]
              | None => []
              end) lines.

Definition get_files_to_check_from_patch (patches : list str)
    : outcome (list str) :=
  match read_patches patches with
  | Throw e => Throw e
  | Return lines =>
      let candidates := candidates_of lines in
      match Repo.get_candidates cwd root gito (Some candidates) with
      | Raise e => Throw (Other e)
      | Ok valid_files => Return valid_files
      end
  end.

End WithRepo.
End Patch.

(** ** ClangFormat.__init__ *)

(** What the constructor does to the world, in program order. *)
Inductive io_event :=
| Printed (line : str)                 (* print(line) *)
| Makedirs (name : str)                (* os.makedirs(name) *)
| FromLinuxCache (dest_file : str)     (* get_clang_format_from_linux_cache *)
| FromLlvm (llvm_distro tar_path : option str) (dest_file : str).
                                       (* get_clang_format_from_llvm *)

(** A computation that logs what it does and returns or raises. *)
Definition io (A : Type) : Type := list io_event * outcome A.

Module Io.

Definition ret {A} (a : A) : io A := ([], Return a).

Definition throw {A} (e : error) : io A := ([], Throw e).

Definition bind {A B} (m : io A) (f : A -> io B) : io B :=
  match snd m with
  | Return a => (fst m ++ fst (f a), snd (f a))
  | Throw e => (fst m, Throw e)
  end.

Definition print (line : str) : io unit := ([Printed line], Return tt).

(** A call that may raise, logged as [ev]. *)
Definition call {A} (ev : list io_event) (r : result A) : io A :=
  (ev, match r with Ok a => Return a | Raise e => Throw (Other e) end).

End Io.

Declare Scope io_scope.
Delimit Scope io_scope with io.
Notation "x <- m ;;; f" := (Io.bind m (fun x => f))
  (at level 100, m at level 99, f at level 200, right associativity,
   only parsing) : io_scope.
Notation "m ;;; f" := (Io.bind m (fun _ => f))
  (at level 100, f at level 200, right associativity, only parsing)
  : io_scope.

Module ClangFormatInit.

Definition CLANG_FORMAT_VERSION : str := "3.6.0".
Definition CLANG_FORMAT_PROGNAME : str := "clang-format".

Section WithSystem.
(** [sys.platform] *)
Variable platform : str.
(** [os.environ] *)
Variable environ : gmap str str.
(** [os.path.exists], [os.path.isfile], [os.path.isdir] *)
Variables path_exists isfile isdir : str -> bool.
(** [os.path.join] of the platform, on two arguments *)
Variable os_path_join : str -> str -> str.
(** [spawn.find_executable] *)
Variable find_executable : str -> option str.
(** [callo] *)
Variable callo : list str -> result str.
(** What [os.makedirs] and the two download functions raise, if they do *)
Variable makedirs : str -> result unit.
Variable get_clang_format_from_linux_cache : str -> result unit.
Variable get_clang_format_from_llvm :
  option str -> option str -> str -> result unit.

Open Scope io_scope.

(** [self._validate_version(warn)] with [self.path] at [self_path] *)
Definition _validate_version (self_path : str) (warn : bool) : io bool :=
  let r := ClangFormat._validate_version callo self_path warn in
  Io.call (map Printed (fst r)) (snd r).

(** The local variable [clang_format_progname], as it stands after the
    test of the platform. *)
Definition clang_format_progname : str :=
  let clang_format_progname : str :=
    if path_exists "/usr/bin/clang-format-3.6" then "clang-format-3.6"
    else CLANG_FORMAT_PROGNAME in
  if Str.startswith platform "linux" then clang_format_progname
  else if bool_decide (platform = ("win32" : str))
       then clang_format_progname ++ ".exe"
       else clang_format_progname.

(** [self.llvm_distro] and [self.tar_path]; [None] where the attribute
    is [None] or not set. *)
Definition llvm_distro : option str :=
  if Str.startswith platform "linux" then Some ("x86_64-linux-gnu-ubuntu" : str)
  else if bool_decide (platform = ("win32" : str))
       then Some ("windows_x64" : str)
  else if bool_decide (platform = ("darwin" : str))
       then Some ("x86_64-apple-darwin" : str)
       else None.

Definition tar_path : option str :=
  if Str.startswith platform "linux" then Some ("x86_64-linux-gnu" : str)
  else if bool_decide (platform = ("win32" : str)) then None
  else if bool_decide (platform = ("darwin" : str))
       then Some ("x86_64-apple-darwin" : str)
       else None.

(** [if self.path and not self._validate_version(warn=True): self.path = None] *)
Definition keep_if_valid (self_path : option str) : io (option str) :=
  match self_path with
  | Some p =>
      if Str.truthy p then
        valid <- _validate_version p true ;;;
        Io.ret (if negb valid then None else Some p)
      else Io.ret (Some p)
  | None => Io.ret None
  end.

(** The constructor; the result is [self.path] at its end. *)
Definition __init__ (path : option str) (cache_dir : str) : io str :=
  (* Find Clang-Format now *)
  self_path <-
    match path with
    | Some path =>
        if isfile path then Io.ret (Some path)
        else Io.print ("WARNING: Could not find clang-format " ++ path) ;;;
             Io.ret None
    | None => Io.ret None
    end ;;;
  (* Check the environment variable *)
  self_path <-
    match environ !! ("MONGO_CLANG_FORMAT" : str) with
    | Some value => keep_if_valid (Some value)
    | None => Io.ret self_path
    end ;;;
  (* Check the PATH environment variable now *)
  self_path <-
    match self_path with
    | None => keep_if_valid (find_executable clang_format_progname)
    | Some _ => Io.ret self_path
    end ;;;
  (* If Windows, try to grab it from Program Files *)
  self_path <-
    (if bool_decide (platform = ("win32" : str)) then
       match environ !! ("ProgramFiles(x86)" : str) with
       | None => Io.throw KeyError
       | Some program_files =>
           let win32bin :=
             os_path_join program_files "LLVM\bin\clang-format.exe" in
           if path_exists win32bin then Io.ret (Some win32bin)
           else Io.ret self_path
       end
     else Io.ret self_path) ;;;
  (* Have not found it yet, download it from the web *)
  self_path <-
    match self_path with
    | None =>
        (if negb (isdir cache_dir)
         then Io.call [Makedirs cache_dir] (makedirs cache_dir)
         else Io.ret tt) ;;;
        let self_path := os_path_join cache_dir clang_format_progname in
        (if negb (isfile self_path) then
           if Str.startswith platform "linux" then
             Io.call [FromLinuxCache self_path]
               (get_clang_format_from_linux_cache self_path)
           else if bool_decide (platform = ("darwin" : str)) then
             Io.call [FromLlvm llvm_distro tar_path self_path]
               (get_clang_format_from_llvm llvm_distro tar_path self_path)
           else
             Io.print ("ERROR: clang-format.py does not support downloading clang-format "
                       ++ " on this platform, please install clang-format "
                       ++ CLANG_FORMAT_VERSION)
         else Io.ret tt) ;;;
        Io.ret self_path
    | Some self_path => Io.ret self_path
    end ;;;
  (* Validate we have the correct version *)
  _validate_version self_path false ;;;
  Io.ret self_path.

End WithSystem.
End ClangFormatInit.

(** ** get_files_to_check *)

Module Files.
Section WithRepo.
Variable fs : FS.
(** [os.getcwd()], and the one repository of [get_repos()]: its root and
    the output of [git ls-files] *)
Variables cwd root gito : str.

(** [expand_file_string]: the list comprehension runs the generator to its
    end; [None] stands for a run that was cut off. *)
Definition expand_file_string (fuel : nat) (glob_pattern : str)
    : option (result (list str)) :=
  let g := Globstar.iglob fs fuel glob_pattern in
  match snd g with
  | Finished => Some (Ok (map (Repo.abspath cwd) (Gen.yields (fst g))))
  | Raised e => Some (Raise e)
  | OutOfFuel => None
  end.

(** [[expand_file_string(f) for f in files]] *)
Fixpoint expand_each (fuel : nat) (files : list str)
    : option (result (list (list str))) :=
  match files with
  | [] => Some (Ok [])
  | f :: files' =>
      match expand_file_string fuel f with
      | None => None
      | Some (Raise e) => Some (Raise e)
      | Some (Ok c) =>
          match expand_each fuel files' with
          | None => None
          | Some (Raise e) => Some (Raise e)
          | Some (Ok cs) => Some (Ok (c :: cs))
          end
      end
  end.

Definition get_files_to_check (fuel : nat) (files : list str)
    : option (result (list str)) :=
  match expand_each fuel files with
  | None => None
  | Some (Raise e) => Some (Raise e)
  | Some (Ok candidates) =>
      let candidates := concat candidates in
      Some (Repo.get_candidates cwd root gito (Some candidates))
  end.

End WithRepo.
End Files.

(** ** The repository, as git gives it *)

Module Git.
Section WithGit.
(** [os.getcwd()] *)
Variable cwd : str.
(** [callo], and [subprocess.check_output], of which it is a copy: the
    output of the program, or the exception of the call.  The answer to
    a command does not change while the script runs. *)
Variable callo : list str -> result str.
(** [os.path.dirname(os.path.dirname(os.path.realpath(__file__)))] *)
Variable script_base : str.

(** [get_base_dir()]; the bare [except] catches whatever the call
    raises. *)
Definition get_base_dir : str :=
  match callo [("git" : str); ("rev-parse" : str); ("--show-toplevel" : str)] with
  | Ok out => Str.rstrip Str.is_space out
  | Raise _ => script_base
  end.

(** A [Repo] object *)
Record repo := {
  path : str;
  candidate_files : list str;
  root : str
}.

Definition _callgito (path : str) (args : list str) : result str :=
  callo ([("git" : str); ("--git-dir" : str); PosixPath.join2 path ".git";
          ("--work-tree" : str); path] ++ args).

Definition _get_candidate_files (path : str) : result (list str) :=
  match _callgito path [("ls-files" : str)] with
  | Raise e => Raise e
  | Ok gito => Ok (Repo._get_candidate_files gito)
  end.

Definition _get_root (path : str) : result str :=
  match _callgito path [("rev-parse" : str); ("--show-toplevel" : str)] with
  | Raise e => Raise e
  | Ok gito => Ok (Str.rstrip Str.is_space gito)
  end.

(** [Repo.__init__] *)
Definition __init__ (path : str) : result repo :=
  match _get_candidate_files path with
  | Raise e => Raise e
  | Ok candidate_files =>
      match _get_root path with
      | Raise e => Raise e
      | Ok root =>
          Ok {| path := path; candidate_files := candidate_files;
                root := root |}
      end
  end.

Definition get_repos : result (list repo) :=
  let base_dir := get_base_dir in
  let paths := [base_dir] in
  Repo.map_result __init__ paths.

(** [Repo.get_candidates]: the inventory is asked of git again. *)
Definition get_candidates (self : repo) (candidates : option (list str))
    : result (list str) :=
  let valid_files :=
    match candidates with
    | Some ((_ :: _) as candidates) =>
        match Repo.map_result (Repo._get_local_dir cwd (root self))
                candidates with
        | Raise e => Raise e
        | Ok candidates =>
            match _get_candidate_files (path self) with
            | Raise e => Raise e
            | Ok files =>
                Ok (elements ((list_to_set candidates : gset str)
                                ∩ list_to_set files))
            end
        end
    | _ => _get_candidate_files (path self)
    end in
  match valid_files with
  | Raise e => Raise e
  | Ok valid_files =>
      Ok (map (fun f => PosixPath.normpath (PosixPath.join2 (root self) f))
            valid_files)
  end.

(** [get_files_to_check_from_patch], the calls of git included *)
Definition get_files_to_check_from_patch (open_rb : str -> option str)
    (patches : list str) : outcome (list str) :=
  match Patch.read_patches open_rb patches with
  | Throw e => Throw e
  | Return lines =>
      let candidates := Patch.candidates_of lines in
      match get_repos with
      | Raise e => Throw (Other e)
      | Ok repos =>
          match Repo.map_result
                  (fun r => get_candidates r (Some candidates)) repos with
          | Raise e => Throw (Other e)
          | Ok valid_files => Return (concat valid_files)
          end
      end
  end.

End WithGit.
End Git.

(** ** parallel_process with a func that may raise *)

Module ParallelProcessRaise.
Import ParallelProcess.
Section WithFunc.
Context {Item : Type}.
(** [func(item)]: the value returned, or [None] when the call raises. *)
Variable func : Item -> option bool.
(** [cpu_count()], or 1 when it raises [NotImplementedError]. *)
Variable cpus : nat.

(** One step of a worker thread.  When [func] raises, the [finally]
    clause calls [task_done], the exception leaves [worker] and the thread
    ends there: it has set neither the result nor the event.  A thread
    that has ended, one way or the other, stands at [Exited]. *)
Definition tnext (s : shared) (pc : tpc) : option (shared * tpc) :=
  match pc with
  | LoopTest => Some (s, if event s then Exited else GetNowait)
  | GetNowait =>
      match queue s with
      | item :: q => Some (set_queue q s, CallFunc item)
      | [] => Some (s, QueueEmpty)
      end
  | QueueEmpty => Some (set_event s, Exited)
  | CallFunc item =>
      match func item with
      | Some ret => Some (add_log item s, TaskDone ret)
      | None => Some (add_log item s, Exited)
      end
  | TaskDone ret => Some (s, if ret then LoopTest else AcquireLock)
  | AcquireLock => if lock s then None else Some (set_lock true s, SetResult)
  | SetResult => Some (set_result false s, ReleaseLock)
  | ReleaseLock => Some (set_lock false s, SetEvent)
  | SetEvent => Some (set_event s, Exited)
  | Exited => None
  end.

(** The main thread is the one of [ParallelProcess]: [join] returns for a
    thread that has ended, whatever ended it. *)
Inductive step (s : state) : state -> Prop :=
| step_thread i pc sh' pc' :
    threads s !! i = Some pc ->
    tnext (sh s) pc = Some (sh', pc') ->
    step s {| sh := sh'; threads := <[i := pc']> (threads s); main := main s |}
| step_main s' :
    mnext cpus s = Some s' ->
    step s s'.

Definition sched_step (w : who) (s : state) : option state :=
  match w with
  | Main => mnext cpus s
  | Worker i =>
      match threads s !! i with
      | Some pc =>
          match tnext (sh s) pc with
          | Some (sh', pc') =>
              Some {| sh := sh'; threads := <[i := pc']> (threads s);
                      main := main s |}
          | None => None
          end
      | None => None
      end
  end.

Fixpoint run (schedule : list who) (s : state) : option state :=
  match schedule with
  | [] => Some s
  | w :: schedule' =>
      match sched_step w s with
      | Some s' => run schedule' s'
      | None => None
      end
  end.

(** Some call logged has returned [False]. *)
Definition some_failed (l : list Item) : bool :=
  existsb (fun x => match func x with Some false => true | _ => false end) l.

Record Inv (items : list Item) (s : state) : Prop := {
  inv_items :
    Permutation items (log (sh s) ++ in_flight (threads s) ++ queue (sh s));
  inv_event :
    event (sh s) = true ->
    queue (sh s) = [] \/ some_failed (log (sh s)) = true;
  inv_pending :
    some_failed (log (sh s)) = true ->
    result (sh s) = false \/ 0 < tsum pending_write (threads s);
  inv_empty : 0 < tsum saw_empty (threads s) -> queue (sh s) = [];
  inv_fail :
    0 < tsum on_fail_path (threads s) -> some_failed (log (sh s)) = true;
  inv_main :
    match main s with
    | Spawning | Waiting => True
    | Joining k =>
        event (sh s) = true /\ firstn k (threads s) = replicate k Exited
    | Returned b =>
        event (sh s) = true
        /\ threads s = replicate (length (threads s)) Exited
        /\ b = result (sh s)
    end
}.

(** The one thread there is has not set the event, and will not. *)
Definition lone_raiser (x : Item) (s : state) : Prop :=
  event (sh s) = false
  /\ (main s = Spawning \/ main s = Waiting)
  /\ match threads s with
     | [] => exists q, queue (sh s) = x :: q
     | [pc] =>
         match pc with
         | LoopTest => exists q, queue (sh s) = x :: q
         | GetNowait => exists q, queue (sh s) = x :: q
         | CallFunc item => item = x
         | Exited => True
         | _ => False
         end
     | _ => False
     end.

End WithFunc.

(** Two threads: thread 0 takes the first item, on which [func] raises,
    and ends; thread 1 takes the second, finds the queue empty and sets
    the event; the main thread joins both and returns. *)
Definition raise_schedule : list who :=
  [Main; Main; Worker 0; Worker 0; Worker 0;
   Worker 1; Worker 1; Worker 1; Worker 1; Worker 1; Worker 1; Worker 1;
   Main; Main; Main; Main; Main].

(** One thread, which takes the item and ends on the exception. *)
Definition hang_schedule : list who :=
  [Main; Main; Worker 0; Worker 0; Worker 0].

End ParallelProcessRaise.

(** ** Vocabulary of the further properties *)

(** The words of the docstring of [_canonicalize]: consecutive recursive
    wildcards coalesced; [prev] says that the part before was one. *)
Fixpoint coalesce (prev : bool) (parts : list str) : list str :=
  match parts with
  | [] => []
  | p :: parts' =>
      if bool_decide (p = Globstar._GLOBSTAR)
      then (if prev then coalesce true parts' else p :: coalesce true parts')
      else p :: coalesce false parts'
  end.

(** Two recursive wildcards stand next to each other. *)
Fixpoint adjacent_globstars (parts : list str) : bool :=
  match parts with
  | [] => false
  | p :: parts' =>
      (bool_decide (p = Globstar._GLOBSTAR)
       && match parts' with
          | q :: _ => bool_decide (q = Globstar._GLOBSTAR)
          | [] => false
          end)
      || adjacent_globstars parts'
  end.

(** The items up to the first one on which [func] returns [False], that
    one included. *)
Fixpoint until_first_failure {Item} (func : Item -> bool) (items : list Item)
    : list Item :=
  match items with
  | [] => []
  | x :: items' =>
      if func x then x :: until_first_failure func items' else [x]
  end.

(** What one worker thread at place [pc] knows of the log and the queue
    when it runs alone. *)
Definition alone_at {Item} (func : Item -> bool)
    (pc : @ParallelProcess.tpc Item) (log queue : list Item) : Prop :=
  match pc with
  | ParallelProcess.QueueEmpty =>
      ParallelProcess.some_failed func log = false /\ queue = []
  | ParallelProcess.TaskDone false | ParallelProcess.AcquireLock
  | ParallelProcess.SetResult | ParallelProcess.ReleaseLock
  | ParallelProcess.SetEvent =>
      ParallelProcess.some_failed func log = true
  | ParallelProcess.Exited =>
      ParallelProcess.some_failed func log = true \/ queue = []
  | _ => ParallelProcess.some_failed func log = false
  end.

(** The invariant of the runs with one worker thread: the log, the item
    in flight and the queue are the items, in their order; every call but
    the last returned [True]. *)
Definition alone_inv {Item} (func : Item -> bool) (items : list Item)
    (s : @ParallelProcess.state Item) : Prop :=
  items = ParallelProcess.log (ParallelProcess.sh s)
          ++ ParallelProcess.in_flight (ParallelProcess.threads s)
          ++ ParallelProcess.queue (ParallelProcess.sh s)
  /\ Forall (fun x => func x = true)
       (removelast (ParallelProcess.log (ParallelProcess.sh s)))
  /\ match ParallelProcess.threads s with
     | [] =>
         ParallelProcess.log (ParallelProcess.sh s) = []
         /\ ParallelProcess.event (ParallelProcess.sh s) = false
     | [pc] =>
         alone_at func pc (ParallelProcess.log (ParallelProcess.sh s))
           (ParallelProcess.queue (ParallelProcess.sh s))
         /\ (ParallelProcess.event (ParallelProcess.sh s) = true ->
             pc = ParallelProcess.Exited)
     | _ => False
     end.

(** One worker thread that finds one item, then the queue empty; the main
    thread joins it. *)
Definition lone_schedule : list ParallelProcess.who :=
  [ParallelProcess.Main; ParallelProcess.Main;
   ParallelProcess.Worker 0; ParallelProcess.Worker 0;
   ParallelProcess.Worker 0; ParallelProcess.Worker 0;
   ParallelProcess.Worker 0; ParallelProcess.Worker 0;
   ParallelProcess.Worker 0;
   ParallelProcess.Main; ParallelProcess.Main; ParallelProcess.Main].

(** ** Samples for the further properties *)

(** A patch that touches one file, whose name holds an upper-case
    letter. *)
Definition sample_patch : str :=
  "diff --git a/src/Foo.cpp b/src/Foo.cpp" ++ ["010"%char]
  ++ "+int x;" ++ ["010"%char].

(** An output of [git ls-files]. *)
Definition sample_inventory : str :=
  "src/a.cpp" ++ ["010"%char] ++ "src/Foo.cpp" ++ ["010"%char].

(** An environment that names a program in [MONGO_CLANG_FORMAT]. *)
Definition sample_environ : gmap str str :=
  {[ ("MONGO_CLANG_FORMAT" : str) := ("/opt/llvm/bin/clang-format" : str) ]}.
(** * Properties *)

(** ** Sample runs of the path functions *)

Example split_root : PosixPath.split "/" = (("/" : str), ([] : str)).
Proof. reflexivity. Qed.

Example split_dir_file : PosixPath.split "a//b" = (("a" : str), ("b" : str)).
Proof. reflexivity. Qed.

Example join_trailing : PosixPath.join2 "a" [] = ("a/" : str).
Proof. reflexivity. Qed.

Example normpath_dots : PosixPath.normpath "./a//b/../c/" = ("a/c" : str).
Proof. vm_compute. reflexivity. Qed.

Example normpath_root : PosixPath.normpath "//" = ("//" : str).
Proof. vm_compute. reflexivity. Qed.

Example split_path_root_globstar :
  Globstar._split_path "/**" = [("/" : str); ([] : str); ("**" : str)].
Proof. vm_compute. reflexivity. Qed.

Example splitlines_sample :
  Repo.splitlines ("a" ++ ["010"%char] ++ "b" ++ ["013"%char; "010"%char])
  = [("a" : str); ("b" : str)].
Proof. vm_compute. reflexivity. Qed.

(** ** Generators *)

Lemma seq_skip_l {A} (g : gen A) : Gen.seq Gen.skip g = g.
Proof. by destruct g. Qed.

Lemma seq_skip_r {A} (g : gen A) : Gen.seq g Gen.skip = g.
Proof.
  destruct g as [t st]. unfold Gen.seq, Gen.skip. simpl.
  destruct st; by rewrite ?app_nil_r.
Qed.

Lemma for_events_yield {A} (evs : list (event A)) :
  Gen.for_events evs Gen.yield = (evs, Finished).
Proof.
  induction evs as [|[a|x] evs IH]; simpl; [done| |];
    rewrite IH; reflexivity.
Qed.

(** [for x in g: yield x] is [g]. *)
Lemma for_yield {A} (g : gen A) : Gen.for_ g Gen.yield = g.
Proof.
  destruct g as [t st]. unfold Gen.for_. simpl. rewrite for_events_yield.
  unfold Gen.seq. simpl. by rewrite app_nil_r.
Qed.

Lemma yields_app {A} (t1 t2 : list (event A)) :
  Gen.yields (t1 ++ t2) = Gen.yields t1 ++ Gen.yields t2.
Proof.
  induction t1 as [|[a|x] t1 IH]; simpl; [done|done|by rewrite IH].
Qed.

Lemma each_yield_events {X A} (l : list X) (f : X -> A) :
  Gen.each l (fun x => Gen.yield (f x)) = (map (fun x => Yield (f x)) l, Finished).
Proof.
  induction l as [|x l IH]; simpl; [done|]. rewrite IH. reflexivity.
Qed.

Lemma yields_map_yield {X A} (l : list X) (f : X -> A) :
  Gen.yields (map (fun x => Yield (f x)) l) = map f l.
Proof. induction l as [|x l IH]; simpl; [done|by rewrite IH]. Qed.

Lemma seq_touch_fst {A} (a : access) (g : gen A) :
  fst (Gen.seq (Gen.touch a) g) = Access a :: fst g.
Proof. reflexivity. Qed.

Lemma seq_yield_fst {A} (x : A) (g : gen A) :
  fst (Gen.seq (Gen.yield x) g) = Yield x :: fst g.
Proof. reflexivity. Qed.

Lemma seq_touch_snd {A} (a : access) (g : gen A) :
  snd (Gen.seq (Gen.touch a) g) = snd g.
Proof. reflexivity. Qed.

Lemma seq_yield_snd {A} (x : A) (g : gen A) :
  snd (Gen.seq (Gen.yield x) g) = snd g.
Proof. reflexivity. Qed.

Lemma yields_seq_Forall {A} (P : A -> Prop) (g1 g2 : gen A) :
  Forall P (Gen.yields (fst g1)) -> Forall P (Gen.yields (fst g2)) ->
  Forall P (Gen.yields (fst (Gen.seq g1 g2))).
Proof.
  intros H1 H2. destruct g1 as [t1 [| |]]; unfold Gen.seq; simpl in *;
    [|done..].
  rewrite yields_app. by apply Forall_app.
Qed.

Lemma yields_for_events_Forall {A B} (P : B -> Prop)
    (evs : list (event A)) (body : A -> gen B) :
  (forall x, Forall P (Gen.yields (fst (body x)))) ->
  Forall P (Gen.yields (fst (Gen.for_events evs body))).
Proof.
  intros Hbody. induction evs as [|[a|x] evs IH]; cbn [Gen.for_events].
  - constructor.
  - apply yields_seq_Forall; [constructor|done].
  - by apply yields_seq_Forall.
Qed.

(** What a [for] loop over a generator yields comes from its body. *)
Lemma yields_for_Forall {A B} (P : B -> Prop) (g : gen A) (body : A -> gen B) :
  (forall x, Forall P (Gen.yields (fst (body x)))) ->
  Forall P (Gen.yields (fst (Gen.for_ g body))).
Proof.
  intros Hbody. unfold Gen.for_.
  apply yields_seq_Forall; [by apply yields_for_events_Forall|constructor].
Qed.

(** ** Strings *)

Lemma startswith_spec (s t : str) :
  Str.startswith s t = true <-> exists u, s = t ++ u.
Proof.
  revert s. induction t as [|b t IH]; intros s; simpl.
  - split; [by exists s|done].
  - destruct s as [|a s].
    + split; [done|]. intros [u Hu]. discriminate.
    + rewrite andb_true_iff, Ascii.eqb_eq, IH. split.
      * intros [-> [u ->]]. by exists u.
      * intros [u Hu]. injection Hu as -> ->. split; [done|by exists u].
Qed.

Lemma endswith_spec (s t : str) :
  Str.endswith s t = true <-> exists u, s = u ++ t.
Proof.
  unfold Str.endswith. rewrite startswith_spec. split.
  - intros [u Hu]. exists (rev u).
    rewrite <- (rev_involutive s), Hu, rev_app_distr.
    by rewrite rev_involutive.
  - intros [u ->]. exists (rev u). by rewrite rev_app_distr.
Qed.

Lemma contains_spec (s t : str) :
  Str.contains s t = true <-> exists u v, s = u ++ t ++ v.
Proof.
  induction s as [|a s IH]; simpl.
  - rewrite orb_false_r, startswith_spec. split.
    + intros [u Hu]. by exists [], u.
    + intros (u & v & Huv). destruct u; [by exists v|discriminate].
  - rewrite orb_true_iff, startswith_spec, IH. split.
    + intros [[u Hu]|(u & v & ->)]; [by exists [], u|by exists (a :: u), v].
    + intros (u & v & Huv). destruct u as [|a' u].
      * left. by exists v.
      * right. injection Huv as -> ->. by exists u, v.
Qed.

(** A substring of a prefix is a substring of the whole. *)
Lemma contains_app_l (s u t : str) :
  Str.contains s t = true -> Str.contains (s ++ u) t = true.
Proof.
  rewrite !contains_spec. intros (a & b & ->). exists a, (b ++ u).
  by rewrite <- !app_assoc.
Qed.

Lemma endswith_app (pre s t : str) :
  Str.endswith s t = true -> Str.endswith (pre ++ s) t = true.
Proof.
  rewrite !endswith_spec. intros [u ->]. exists (pre ++ u).
  by rewrite app_assoc.
Qed.

Lemma endswith_one_last (s : str) (c : ascii) :
  Str.endswith s [c] = true <-> last s = Some c.
Proof.
  rewrite endswith_spec. split.
  - intros [u ->]. by rewrite last_snoc.
  - intros H. destruct (decide (s = [])) as [->|Hne]; [done|].
    destruct (exists_last Hne) as (u & c' & ->).
    rewrite last_snoc in H. injection H as ->. by exists u.
Qed.

(** [rstrip] keeps a prefix and drops characters to strip only. *)
Lemma rstrip_prefix (strip : ascii -> bool) (s : str) :
  exists u, s = Str.rstrip strip s ++ u /\ forallb strip u = true.
Proof.
  induction s as [|c s (u & Hs & Hu)]; simpl.
  - by exists [].
  - destruct (Str.rstrip strip s) as [|r rs] eqn:Hr.
    + destruct (strip c) eqn:Hc.
      * exists (c :: s). split; [done|]. simpl. rewrite Hc.
        simpl in Hs. by subst.
      * exists u. simpl in *. by subst.
    + exists u. split; [|done]. simpl. f_equal. exact Hs.
Qed.

(** The result of [rstrip] does not end with a character to strip. *)
Lemma rstrip_last (strip : ascii -> bool) (s : str) (c : ascii) :
  last (Str.rstrip strip s) = Some c -> strip c = false.
Proof.
  induction s as [|a s IH]; simpl; [done|].
  destruct (Str.rstrip strip s) as [|r rs] eqn:Hr.
  - destruct (strip a) eqn:Ha; [done|]. simpl. by intros [= <-].
  - exact IH.
Qed.

Lemma split_on_snoc (c : ascii) (s : str) :
  exists fields b, Str.split_on c s = fields ++ [b].
Proof.
  induction s as [|x s (fields & b & IH)]; simpl.
  - by exists [], [].
  - destruct (Ascii.eqb x c).
    + exists ([] :: fields), b. by rewrite IH.
    + rewrite IH. destruct fields as [|f fields]; simpl.
      * by exists [], (x :: b).
      * by exists ((x :: f) :: fields), b.
Qed.

(** No field of [split_on] holds the separator. *)
Lemma split_on_no_sep (c : ascii) (s : str) :
  Forall (fun f => ~ In c f) (Str.split_on c s).
Proof.
  induction s as [|x s IH]; simpl.
  - constructor; [by intros []|constructor].
  - destruct (Ascii.eqb_spec x c) as [->|Hne].
    + constructor; [by intros []|done].
    + destruct (Str.split_on c s) as [|f fields].
      * constructor; [|constructor]. intros [?|[]]. by subst.
      * inversion IH as [|? ? Hf Hfields]; subst.
        constructor; [|done]. intros [?|?]; [by subst|by apply Hf].
Qed.

(** Text without separator, added at the end, goes to the last field. *)
Lemma split_on_app_no_sep (c : ascii) (s t : str) :
  ~ In c t ->
  exists fields b,
    Str.split_on c s = fields ++ [b]
    /\ Str.split_on c (s ++ t) = fields ++ [b ++ t].
Proof.
  intros Ht. induction s as [|x s (fields & b & IH1 & IH2)]; simpl.
  - exists [], []. split; [done|]. simpl.
    induction t as [|y t IHt]; simpl; [done|].
    destruct (Ascii.eqb_spec y c) as [->|Hne]; [by destruct Ht; left|].
    rewrite IHt; [done|]. intros ?. apply Ht. by right.
  - destruct (Ascii.eqb x c).
    + exists ([] :: fields), b. by rewrite IH1, IH2.
    + rewrite IH1, IH2. destruct fields as [|f fields]; simpl.
      * by exists [], (x :: b).
      * by exists ((x :: f) :: fields), b.
Qed.

(** ** posixpath *)

(** The directory part that [split] returns is a prefix of the path. *)
Lemma split_head_prefix (p : str) :
  exists u, p = fst (PosixPath.split p) ++ u.
Proof.
  unfold PosixPath.split. simpl.
  set (i := PosixPath.after_last_sep p).
  destruct (Str.truthy (firstn i p) && negb (forallb PosixPath.is_sep (firstn i p))).
  - destruct (rstrip_prefix PosixPath.is_sep (firstn i p)) as (u & Hu & _).
    exists (u ++ skipn i p).
    by rewrite app_assoc, <- Hu, firstn_skipn.
  - exists (skipn i p). by rewrite firstn_skipn.
Qed.

Lemma is_sep_spec (c : ascii) : PosixPath.is_sep c = true <-> c = PosixPath.sep.
Proof. unfold PosixPath.is_sep. apply Ascii.eqb_eq. Qed.

(** Without separator, there is nothing after a last separator. *)
Lemma after_last_sep_none (p : str) :
  ~ In PosixPath.sep p -> PosixPath.after_last_sep p = 0.
Proof.
  induction p as [|c p IH]; intros Hp; simpl; [done|].
  rewrite IH by (intros ?; apply Hp; by right).
  destruct (PosixPath.is_sep c) eqn:Hc; [|done].
  apply is_sep_spec in Hc. destruct Hp. by left.
Qed.

Lemma after_last_sep_app (b l : str) :
  ~ In PosixPath.sep l -> last b = Some PosixPath.sep ->
  PosixPath.after_last_sep (b ++ l) = length b.
Proof.
  intros Hl. induction b as [|c b IH]; intros Hb; [done|]. simpl.
  destruct b as [|c' b].
  - simpl in *. injection Hb as ->. by rewrite after_last_sep_none.
  - rewrite IH by done. done.
Qed.

(** The base name of a path that ends in text without separator, after a
    separator or on its own, is that text. *)
Lemma basename_app (b l : str) :
  ~ In PosixPath.sep l -> b = [] \/ last b = Some PosixPath.sep ->
  PosixPath.basename (b ++ l) = l.
Proof.
  intros Hl [->|Hb]; unfold PosixPath.basename.
  - simpl. by rewrite after_last_sep_none.
  - rewrite after_last_sep_app by done. by rewrite drop_app_length.
Qed.

(** The base name holds no separator. *)
Lemma basename_no_sep (p : str) : ~ In PosixPath.sep (PosixPath.basename p).
Proof.
  unfold PosixPath.basename. induction p as [|c p IH]; simpl; [by intros []|].
  destruct (PosixPath.after_last_sep p) as [|k] eqn:Hk.
  - destruct (PosixPath.is_sep c) eqn:Hc; simpl in *; [done|].
    intros [->|?]; [by cbv in Hc|done].
  - done.
Qed.

Lemma endswith_sep_last (b : str) :
  Str.endswith b "/" = true <-> last b = Some PosixPath.sep.
Proof. apply (endswith_one_last b PosixPath.sep). Qed.

(** [join_step] puts its second argument at the end, after a separator
    or on its own. *)
Lemma join_step_end (a b l : str) :
  b = [] \/ last b = Some PosixPath.sep ->
  exists b', PosixPath.join_step a (b ++ l) = b' ++ l
             /\ (b' = [] \/ last b' = Some PosixPath.sep).
Proof.
  intros Hb. unfold PosixPath.join_step.
  destruct (Str.startswith (b ++ l) "/"); [by exists b|].
  destruct (negb (Str.truthy a) || Str.endswith a "/") eqn:Ha.
  - exists (a ++ b). rewrite <- app_assoc. split; [done|].
    destruct Hb as [->|Hb].
    + rewrite app_nil_r. apply orb_true_iff in Ha as [Ha|Ha].
      * left. by destruct a.
      * right. by apply endswith_sep_last.
    + right. rewrite last_app, Hb. done.
  - exists (a ++ "/" ++ b). rewrite <- !app_assoc. split; [done|]. right.
    destruct Hb as [->|Hb].
    + simpl. by rewrite last_snoc.
    + rewrite !last_app, Hb. done.
Qed.

Lemma join_star_end (parts : list str) (l : str) :
  exists b, Globstar.join_star (parts ++ [l]) = b ++ l
            /\ (b = [] \/ last b = Some PosixPath.sep).
Proof.
  destruct parts as [|a parts]; simpl.
  - exists []. split; [done|by left].
  - unfold PosixPath.join. rewrite fold_left_app. simpl.
    apply (join_step_end _ [] l). by left.
Qed.

Lemma join2_endswith (a b t : str) :
  Str.endswith b t = true -> Str.endswith (PosixPath.join2 a b) t = true.
Proof.
  intros H. unfold PosixPath.join2, PosixPath.join. simpl.
  unfold PosixPath.join_step.
  destruct (Str.startswith b "/"); [done|].
  destruct (_ || _); [by apply endswith_app|].
  rewrite app_assoc. by apply endswith_app.
Qed.

(** ** normpath *)

Lemma normpath_step_kept k acc comp :
  ~ In PosixPath.sep comp ->
  Forall kept_comp acc ->
  Forall kept_comp (PosixPath.normpath_step k acc comp).
Proof.
  intros Hsep Hacc. unfold PosixPath.normpath_step.
  case_bool_decide as Hne; [exact Hacc|].
  case_bool_decide as Hdot; [exact Hacc|]. simpl.
  match goal with
  | |- context [if negb ?a || ?b || ?c then _ else _] =>
      destruct (negb a || b || c)
  end.
  - apply Forall_app. split; [done|]. by repeat constructor.
  - destruct (Str.truthy acc); [|done].
    destruct (decide (acc = [])) as [->|Hacc_ne]; [done|].
    destruct (exists_last Hacc_ne) as (acc' & x & ->).
    rewrite removelast_last. by apply Forall_app in Hacc as [].
Qed.

Lemma normpath_fold_kept k comps acc :
  Forall (fun c => ~ In PosixPath.sep c) comps ->
  Forall kept_comp acc ->
  Forall kept_comp (fold_left (PosixPath.normpath_step k) comps acc).
Proof.
  intros H. revert acc. induction H as [|c comps Hc _ IH]; intros acc Hacc.
  - done.
  - simpl. apply IH. by apply normpath_step_kept.
Qed.

(** A component that is not empty, [.] or [..] is appended. *)
Lemma normpath_step_plain k acc comp :
  comp <> [] -> comp <> PosixPath.curdir -> comp <> PosixPath.pardir ->
  PosixPath.normpath_step k acc comp = acc ++ [comp].
Proof.
  intros H1 H2 H3. unfold PosixPath.normpath_step.
  do 3 (case_bool_decide; [done|]). reflexivity.
Qed.

Lemma join_with_snoc c fields f :
  exists pre, Str.join_with c (fields ++ [f]) = pre ++ f.
Proof.
  induction fields as [|g fields [pre IH]]; simpl.
  - by exists [].
  - destruct (fields ++ [f]) as [|h rest] eqn:Hf; [by destruct fields|].
    rewrite IH. exists (g ++ c :: pre). by rewrite <- app_assoc.
Qed.

Lemma join_with_startswith_dot_slash comps :
  Forall kept_comp comps ->
  Str.startswith (Str.join_with PosixPath.sep comps) "./" = false.
Proof.
  intros H. destruct H as [|c comps (Hne & Hdot & Hsep) _]; [done|].
  apply not_true_is_false. rewrite startswith_spec. intros [u Hu].
  assert (Hc : exists v, c ++ v = "./" ++ u).
  { simpl in Hu. destruct comps; [exists []; by rewrite app_nil_r|by eexists]. }
  clear Hu. destruct Hc as [v Hv]. simpl in Hv.
  destruct c as [|c1 [|c2 c]]; [done| |].
  - injection Hv as -> _. by apply Hdot.
  - injection Hv as -> -> _. apply Hsep. right. by left.
Qed.

Lemma join_with_last pre comps c :
  c <> [] ->
  last (pre ++ Str.join_with PosixPath.sep (comps ++ [c])) = last c.
Proof.
  intros Hc. destruct (join_with_snoc PosixPath.sep comps c) as [p ->].
  rewrite !app_assoc. destruct (exists_last Hc) as (c' & x & ->).
  by rewrite !app_assoc, !last_snoc.
Qed.

Lemma join_with_not_endswith_sep pre comps :
  comps <> [] -> Forall kept_comp comps ->
  Str.endswith (pre ++ Str.join_with PosixPath.sep comps) "/" = false.
Proof.
  intros Hne Hall. destruct (exists_last Hne) as (comps' & c & ->).
  apply Forall_app in Hall as [_ Hc]. inversion Hc as [|? ? (Hc1 & _ & Hsep)]; subst.
  apply not_true_is_false. change ("/" : str) with [PosixPath.sep].
  rewrite endswith_one_last, join_with_last by done.
  intros Hl. apply Hsep. apply list_elem_of_In, last_Some_elem_of, Hl.
Qed.

(** What [normpath] returns is in normal form. *)
Lemma normpath_is_normalized (path : str) :
  is_normalized (PosixPath.normpath path) = true.
Proof.
  unfold PosixPath.normpath.
  destruct (bool_decide (path = [])); [done|].
  set (k := if Str.startswith path "/" then _ else _).
  set (comps := fold_left _ _ _).
  assert (Hcomps : Forall kept_comp comps).
  { apply normpath_fold_kept; [apply split_on_no_sep|done]. }
  assert (Hk : k = 0 \/ k = 1 \/ k = 2).
  { subst k. destruct (Str.startswith path "/"); [|by left].
    destruct (_ && _); auto. }
  destruct (decide (comps = [])) as [->|Hne].
  - simpl. rewrite app_nil_r.
    destruct Hk as [->|[->| ->]]; reflexivity.
  - assert (Hend := join_with_not_endswith_sep (repeat PosixPath.sep k) comps Hne Hcomps).
    assert (Htruthy : Str.truthy (repeat PosixPath.sep k ++ Str.join_with PosixPath.sep comps) = true).
    { destruct (repeat _ _ ++ _) eqn:E; [|done].
      apply app_eq_nil in E as [_ E].
      destruct (exists_last Hne) as (comps' & c & ->).
      destruct (join_with_snoc PosixPath.sep comps' c) as [p Hp].
      rewrite Hp in E. apply app_eq_nil in E as [_ ->].
      apply Forall_app in Hcomps as [_ Hc]. inversion Hc as [|? ? [? _]]; done. }
    rewrite Htruthy. unfold is_normalized. rewrite Hend. simpl.
    rewrite andb_true_r. apply negb_true_iff.
    destruct Hk as [->|[->| ->]]; [|done..].
    simpl. by apply join_with_startswith_dot_slash.
Qed.

Lemma normpath_step_dots k acc comp :
  dots_first k acc -> dots_first k (PosixPath.normpath_step k acc comp).
Proof.
  intros Hacc. unfold PosixPath.normpath_step.
  case_bool_decide as Hne; [exact Hacc|].
  case_bool_decide as Hdot; [exact Hacc|]. simpl.
  case_bool_decide as Hpar; simpl.
  - (* a parent reference *)
    destruct acc as [|a acc'] using rev_ind.
    + simpl. rewrite andb_true_r, orb_false_r.
      destruct (Nat.eqb_spec k 0) as [->|Hk]; simpl.
      * intros pre cs Heq. destruct pre as [|p pre]; [by split|].
        exfalso. injection Heq as _ Heq. by destruct pre.
      * done.
    + clear IHacc'.
      replace (Str.truthy (acc' ++ [a])) with true by (by destruct acc').
      rewrite andb_false_r, last_snoc. simpl.
      case_bool_decide as Hlast; simpl.
      * injection Hlast as ->.
        destruct (Hacc acc' [] eq_refl) as [Hk Hall].
        intros pre cs Heq. split; [done|].
        assert (Hfull : Forall (fun c => c = PosixPath.pardir)
                          ((acc' ++ [PosixPath.pardir]) ++ [comp])).
        { rewrite Hpar. by rewrite !Forall_app, !Forall_singleton. }
        rewrite Heq in Hfull. by apply Forall_app in Hfull as [? _].
      * rewrite removelast_last. intros pre cs Heq.
        apply (Hacc pre (cs ++ [a])). by rewrite Heq, <- app_assoc.
  - (* a name *)
    intros pre cs Heq.
    destruct cs as [|c cs'] using rev_ind.
    + apply app_inj_tail in Heq as [_ Heq]. congruence.
    + clear IHcs'. rewrite app_comm_cons, app_assoc in Heq.
      apply app_inj_tail in Heq as [Heq _]. by apply (Hacc pre cs').
Qed.

Lemma normpath_fold_dots k comps acc :
  dots_first k acc ->
  dots_first k (fold_left (PosixPath.normpath_step k) comps acc).
Proof.
  revert acc. induction comps as [|c comps IH]; intros acc Hacc; [done|].
  simpl. apply IH. by apply normpath_step_dots.
Qed.

(** Components in that order go through the loop of [normpath]
    unchanged. *)
Lemma normpath_fold_fixed k comps pre :
  Forall kept_comp (pre ++ comps) -> dots_first k (pre ++ comps) ->
  fold_left (PosixPath.normpath_step k) comps pre = pre ++ comps.
Proof.
  revert pre. induction comps as [|c comps IH]; intros pre Hkept Hdots.
  - by rewrite app_nil_r.
  - assert (Hstep : PosixPath.normpath_step k pre c = pre ++ [c]).
    { apply Forall_app in Hkept as [_ Hc].
      apply Forall_cons in Hc as [(Hne & Hdot & _) _].
      destruct (decide (c = PosixPath.pardir)) as [->|Hpar];
        [|by apply normpath_step_plain].
      destruct (Hdots pre comps eq_refl) as [-> Hpre].
      unfold PosixPath.normpath_step. simpl.
      destruct pre as [|a pre'] using rev_ind; [done|].
      replace (Str.truthy (pre' ++ [a])) with true by (by destruct pre').
      rewrite last_snoc. apply Forall_app in Hpre as [_ Ha].
      apply Forall_inv in Ha. simpl in Ha. rewrite Ha.
      by rewrite bool_decide_eq_true_2. }
    simpl. rewrite Hstep. rewrite (IH (pre ++ [c])); rewrite <- ?app_assoc; done.
Qed.

Lemma split_on_plain (c : ascii) (s : str) :
  ~ In c s -> Str.split_on c s = [s].
Proof.
  induction s as [|x s IH]; intros Hs; simpl; [done|].
  destruct (Ascii.eqb_spec x c) as [->|Hne]; [by destruct Hs; left|].
  rewrite IH; [done|]. intros ?. apply Hs. by right.
Qed.

Lemma split_on_app_sep (c : ascii) (s t : str) :
  ~ In c s -> Str.split_on c (s ++ c :: t) = s :: Str.split_on c t.
Proof.
  induction s as [|x s IH]; intros Hs; simpl.
  - by rewrite Ascii.eqb_refl.
  - destruct (Ascii.eqb_spec x c) as [->|Hne]; [by destruct Hs; left|].
    rewrite IH; [done|]. intros ?. apply Hs. by right.
Qed.

(** Splitting a join of components without separator gives them back. *)
Lemma split_on_join_with (c : ascii) (comps : list str) :
  comps <> [] -> Forall (fun f => ~ In c f) comps ->
  Str.split_on c (Str.join_with c comps) = comps.
Proof.
  intros Hne Hall. induction Hall as [|f comps Hf Hall IH]; [done|].
  destruct comps as [|g comps].
  - simpl. by apply split_on_plain.
  - change (Str.join_with c (f :: g :: comps))
      with (f ++ c :: Str.join_with c (g :: comps)).
    rewrite split_on_app_sep by done. f_equal. by apply IH.
Qed.

Lemma normpath_fold_empty k n comps acc :
  fold_left (PosixPath.normpath_step k) (replicate n [] ++ comps) acc
  = fold_left (PosixPath.normpath_step k) comps acc.
Proof. induction n as [|n IH]; [done|]. simpl. exact IH. Qed.

Lemma split_on_repeat_sep n (s : str) :
  Str.split_on PosixPath.sep (repeat PosixPath.sep n ++ s)
  = replicate n [] ++ Str.split_on PosixPath.sep s.
Proof. induction n as [|n IH]; [done|]. simpl. by rewrite IH. Qed.

Lemma kept_comp_no_sep comps :
  Forall kept_comp comps -> Forall (fun f => ~ In PosixPath.sep f) comps.
Proof.
  intros H. eapply Forall_impl; [exact H|]. by intros c (_ & _ & ?).
Qed.

(** The joined components start with a character that is no separator,
    if there is one. *)
Lemma join_with_kept_head comps :
  Forall kept_comp comps ->
  Str.join_with PosixPath.sep comps = []
  \/ exists c0 j, Str.join_with PosixPath.sep comps = c0 :: j
                  /\ c0 <> PosixPath.sep.
Proof.
  intros H. destruct H as [|c rest (Hne & _ & Hsep) _]; [by left|]. right.
  destruct c as [|c0 c']; [done|].
  exists c0. destruct rest; simpl; eexists; (split; [done|]);
    intros ->; apply Hsep; by left.
Qed.

(** A path put together from leading separators and components in the
    order of [normpath] is a fixed point of [normpath]. *)
Lemma normpath_fixed k comps :
  k = 0 \/ k = 1 \/ k = 2 ->
  Forall kept_comp comps -> dots_first k comps ->
  repeat PosixPath.sep k ++ Str.join_with PosixPath.sep comps <> [] ->
  PosixPath.normpath
    (repeat PosixPath.sep k ++ Str.join_with PosixPath.sep comps)
  = repeat PosixPath.sep k ++ Str.join_with PosixPath.sep comps.
Proof.
  intros Hk Hkept Hdots Hout.
  set (j := Str.join_with PosixPath.sep comps) in *.
  set (out := repeat PosixPath.sep k ++ j) in *.
  unfold PosixPath.normpath. rewrite bool_decide_eq_false_2 by done.
  assert (Hslashes :
    (if Str.startswith out "/"
     then if Str.startswith out "//" && negb (Str.startswith out "///")
          then 2 else 1
     else 0) = k).
  { subst out. destruct (join_with_kept_head comps Hkept) as [Hj|(c0 & j' & Hj & Hc0)];
      fold j in Hj; rewrite Hj in *.
    - destruct Hk as [->|[->| ->]]; [done|reflexivity|reflexivity].
    - assert (Ascii.eqb c0 "/" = false) as Hc by (by apply Ascii.eqb_neq).
      destruct Hk as [->|[->| ->]]; simpl; by rewrite Hc. }
  rewrite Hslashes.
  assert (Hfold : fold_left (PosixPath.normpath_step k)
                    (Str.split_on PosixPath.sep out) [] = comps).
  { subst out. rewrite split_on_repeat_sep, normpath_fold_empty.
    destruct (decide (comps = [])) as [->|Hne]; [done|].
    subst j. rewrite split_on_join_with;
      [|done|by apply kept_comp_no_sep].
    by apply (normpath_fold_fixed k comps []). }
  rewrite Hfold. fold j. fold out.
  by destruct out.
Qed.

(** What [normpath] returns: the current directory, or leading
    separators and components in its order. *)
Lemma normpath_cases (path : str) :
  PosixPath.normpath path = PosixPath.curdir
  \/ exists k comps,
       (k = 0 \/ k = 1 \/ k = 2)
       /\ Forall kept_comp comps /\ dots_first k comps
       /\ repeat PosixPath.sep k ++ Str.join_with PosixPath.sep comps <> []
       /\ PosixPath.normpath path
          = repeat PosixPath.sep k ++ Str.join_with PosixPath.sep comps.
Proof.
  unfold PosixPath.normpath.
  destruct (bool_decide (path = [])); [by left|].
  set (k := if Str.startswith path "/" then _ else _).
  set (comps := fold_left _ _ _).
  assert (Hkept : Forall kept_comp comps).
  { apply normpath_fold_kept; [apply split_on_no_sep|done]. }
  assert (Hdots : dots_first k comps).
  { apply normpath_fold_dots. intros pre cs Heq. by destruct pre. }
  assert (Hk : k = 0 \/ k = 1 \/ k = 2).
  { subst k. destruct (Str.startswith path "/"); [|by left].
    destruct (_ && _); auto. }
  destruct (Str.truthy (repeat PosixPath.sep k
                        ++ Str.join_with PosixPath.sep comps)) eqn:Ht;
    [|by left].
  right. exists k, comps.
  split; [exact Hk|]. split; [exact Hkept|]. split; [exact Hdots|].
  split; [|reflexivity]. intros Hnil. by rewrite Hnil in Ht.
Qed.

(** [normpath] is idempotent: what it returns it leaves unchanged. *)
Lemma normpath_idempotent (path : str) :
  PosixPath.normpath (PosixPath.normpath path) = PosixPath.normpath path.
Proof.
  destruct (normpath_cases path)
    as [->|(k & comps & Hk & Hkept & Hdots & Hne & ->)]; [reflexivity|].
  by apply normpath_fixed.
Qed.

(** [normpath] keeps an extension: a suffix without separator that does
    not end in a dot. *)
Lemma normpath_keeps_suffix (x e : str) (c : ascii) :
  ~ In PosixPath.sep (e ++ [c]) -> c <> "."%char ->
  Str.endswith x (e ++ [c]) = true ->
  Str.endswith (PosixPath.normpath x) (e ++ [c]) = true.
Proof.
  intros Hsep Hc Hx. apply endswith_spec in Hx as [x0 ->].
  destruct (split_on_app_no_sep PosixPath.sep x0 (e ++ [c]) Hsep)
    as (fields & b & _ & Hsplit).
  unfold PosixPath.normpath.
  case_bool_decide as Hnil; [by destruct x0, e|].
  rewrite Hsplit, fold_left_app. simpl.
  assert (Hlast : last (b ++ e ++ [c]) = Some c)
    by (by rewrite !app_assoc, last_snoc).
  rewrite normpath_step_plain.
  - match goal with
    | |- context [Str.join_with ?s (?acc ++ [?comp])] =>
        destruct (join_with_snoc s acc comp) as [pre ->]
    end.
    match goal with
    | |- context [if Str.truthy ?p then _ else _] =>
        assert (Hp : exists u, p = u ++ e ++ [c])
    end.
    { eexists. rewrite !app_assoc. reflexivity. }
    destruct Hp as [u ->].
    destruct (u ++ e ++ [c]) eqn:E; [by destruct u, e|].
    simpl. rewrite <- E. apply endswith_spec. by exists u.
  - intros E. by rewrite E in Hlast.
  - intros E. rewrite E in Hlast. by injection Hlast as <-.
  - intros E. rewrite E in Hlast. by injection Hlast as <-.
Qed.

(** ** _split_path *)

(** The loop of [_split_path] ends: each round goes on with a strictly
    shorter path. *)
Lemma split_path_loop_total (fuel : nat) (pathname : str) (parts : list str) :
  length pathname < fuel ->
  exists parts', Globstar._split_path_loop fuel pathname parts = Some parts'.
Proof.
  revert pathname parts.
  induction fuel as [|fuel IH]; intros pathname parts Hlen; [lia|].
  cbn [Globstar._split_path_loop].
  destruct (PosixPath.split pathname) as [dirname basename] eqn:Hsplit.
  case_bool_decide as Heq; [by eexists|].
  destruct (negb (Str.truthy dirname)); [by eexists|].
  apply IH.
  destruct (split_head_prefix pathname) as [u Hu].
  rewrite Hsplit in Hu. simpl in Hu.
  assert (u <> []) by (intros ->; rewrite app_nil_r in Hu; done).
  rewrite Hu in Hlen. rewrite length_app in Hlen.
  destruct u; [done|]. simpl in Hlen. lia.
Qed.

Lemma split_path_total (pathname : str) :
  exists parts,
    Globstar._split_path_loop (S (length pathname)) pathname [] = Some parts
    /\ Globstar._split_path pathname = rev parts.
Proof.
  destruct (split_path_loop_total (S (length pathname)) pathname [])
    as [parts H]; [lia|].
  exists parts. split; [done|]. unfold Globstar._split_path. by rewrite H.
Qed.

(** The loop of [_split_path] only adds parts, the base name first. *)
Lemma split_path_loop_first fuel (pathname : str) (acc parts : list str) :
  Globstar._split_path_loop fuel pathname acc = Some parts ->
  exists more, parts = acc ++ PosixPath.basename pathname :: more.
Proof.
  revert pathname acc.
  assert (Hprefix : forall fuel pathname acc parts,
            Globstar._split_path_loop fuel pathname acc = Some parts ->
            exists more, parts = acc ++ more).
  { clear. induction fuel as [|fuel IH]; intros pathname acc parts; [done|].
    cbn [Globstar._split_path_loop].
    destruct (PosixPath.split pathname) as [dirname basename].
    case_bool_decide.
    - intros [= <-]. eexists. by rewrite <- app_assoc.
    - destruct (negb (Str.truthy dirname)).
      + intros [= <-]. by eexists.
      + intros Hrec. apply IH in Hrec as [more ->]. eexists.
        by rewrite <- app_assoc. }
  destruct fuel as [|fuel]; intros pathname acc; [done|].
  cbn [Globstar._split_path_loop].
  change (PosixPath.split pathname)
    with (fst (PosixPath.split pathname), PosixPath.basename pathname).
  cbv beta iota.
  case_bool_decide.
  - intros [= <-]. eexists. by rewrite <- app_assoc.
  - destruct (negb (Str.truthy _)).
    + intros [= <-]. by exists [].
    + intros Hrec. apply Hprefix in Hrec as [more' ->]. exists more'.
      by rewrite <- app_assoc.
Qed.

(** The last part of a path is its base name. *)
Lemma split_path_last (pathname : str) :
  last (Globstar._split_path pathname) = Some (PosixPath.basename pathname).
Proof.
  destruct (split_path_total pathname) as (parts & Hloop & ->).
  apply split_path_loop_first in Hloop as [more ->]. simpl.
  by rewrite last_snoc.
Qed.

(** ** Canonical parts *)

Lemma canonicalize_loop_raises parts res prev :
  Exists (fun p => mixes_globstar p = true) parts ->
  Globstar._canonicalize_loop parts res prev = Raise ValueError.
Proof.
  intros H. revert res prev.
  induction H as [p parts Hp | p parts _ IH]; intros res prev; simpl.
  - unfold mixes_globstar in Hp. apply andb_true_iff in Hp as [Hc Hne].
    destruct (bool_decide (p = Globstar._GLOBSTAR)); [done|].
    by rewrite Hc.
  - destruct (bool_decide (p = Globstar._GLOBSTAR)).
    + destruct (negb prev); apply IH.
    + destruct (Str.contains p Globstar._GLOBSTAR); [done|apply IH].
Qed.

(** Without a segment that holds the wildcard, canonicalization is the
    identity. *)
Lemma canonicalize_loop_plain parts res prev :
  Forall (fun p => Str.contains p Globstar._GLOBSTAR = false) parts ->
  Globstar._canonicalize_loop parts res prev = Ok (res ++ parts).
Proof.
  intros H. revert res prev.
  induction H as [|p parts Hp _ IH]; intros res prev; simpl.
  - by rewrite app_nil_r.
  - destruct (bool_decide_reflect (p = Globstar._GLOBSTAR)) as [->|_];
      [done|].
    rewrite Hp, IH. by rewrite <- app_assoc.
Qed.

(** A last part that is not the recursive wildcard stays last. *)
Lemma canonicalize_loop_last (parts : list str) (l : str) res prev c :
  Globstar._canonicalize_loop (parts ++ [l]) res prev = Ok c ->
  l <> Globstar._GLOBSTAR ->
  last c = Some l.
Proof.
  intros Hc Hl. revert res prev Hc.
  induction parts as [|p parts IH]; intros res prev; simpl.
  - rewrite bool_decide_eq_false_2 by done.
    destruct (Str.contains l Globstar._GLOBSTAR); [done|].
    intros [= <-]. by rewrite last_snoc.
  - case_bool_decide.
    + destruct (negb prev); apply IH.
    + destruct (Str.contains p Globstar._GLOBSTAR); [done|apply IH].
Qed.

Lemma find_globstar_from_none i parts :
  Forall (fun p => p <> Globstar._GLOBSTAR) parts ->
  Globstar._find_globstar_from i parts = (-1)%Z.
Proof.
  intros H. revert i. induction H as [|p parts Hp _ IH]; intros i; simpl.
  - done.
  - rewrite bool_decide_eq_false_2 by done. apply IH.
Qed.

(** [_find_globstar] returns the position of a recursive wildcard, or
    -1. *)
Lemma find_globstar_from_spec (i : Z) (parts : list str) :
  Globstar._find_globstar_from i parts = (-1)%Z
  \/ exists n : nat,
       Globstar._find_globstar_from i parts = (i + Z.of_nat n)%Z
       /\ parts !! n = Some Globstar._GLOBSTAR.
Proof.
  revert i. induction parts as [|p parts IH]; intros i; simpl; [by left|].
  case_bool_decide as Hp.
  - right. exists 0. split; [lia|by rewrite Hp].
  - destruct (IH (i + 1)%Z) as [->|(n & -> & Hn)]; [by left|].
    right. exists (S n). split; [lia|done].
Qed.

Lemma drop_after_not_last {A} (l : list A) (n : nat) (x y : A) :
  l !! n = Some x -> last l = Some y -> x <> y ->
  exists l', drop (S n) l = l' ++ [y].
Proof.
  intros Hn Hl Hxy.
  destruct (decide (drop (S n) l = [])) as [Hnil|Hne].
  - exfalso. apply Hxy.
    rewrite <- (take_drop (S n) l), Hnil, app_nil_r in Hl.
    rewrite (take_S_r _ _ _ Hn), last_snoc in Hl. congruence.
  - destruct (exists_last Hne) as (l' & y' & Hd). exists l'.
    rewrite <- (take_drop (S n) l), Hd, app_assoc, last_snoc in Hl.
    congruence.
Qed.

(** ** The matcher *)

(** What [_expand] and [_expand_curdir] do with a directory that cannot
    be listed: one call to list it, nothing yielded, no error. *)
Lemma expand_missing fs fuel pathname :
  Globstar._list_dir fs pathname = None ->
  Globstar._expand fs (S fuel) pathname = ([Access (Walk pathname)], Finished).
Proof. intros H. simpl. by rewrite H. Qed.

Lemma expand_curdir_missing fs fuel pathname :
  Globstar._list_dir fs pathname = None ->
  Globstar._expand_curdir fs (S fuel) pathname
  = ([Access (Walk pathname)], Finished).
Proof. intros H. simpl. by rewrite H. Qed.

(** C4. A pattern one of whose segments holds the recursive wildcard
    together with other characters makes [iglob] raise [ValueError] at its
    first resumption: nothing is yielded and the filesystem is not
    touched, whatever the filesystem is. *)
Theorem iglob_invalid_pattern_raises (fs : FS) (fuel : nat) (pattern : str) :
  Exists (fun p => mixes_globstar p = true) (Globstar._split_path pattern) ->
  Globstar.iglob fs (S fuel) pattern = ([], Raised ValueError).
Proof.
  intros H. simpl. unfold Globstar._canonicalize.
  by rewrite (canonicalize_loop_raises _ _ _ H).
Qed.

Lemma iglob_invalid_pattern_raises_witness :
  Exists (fun p => mixes_globstar p = true) (Globstar._split_path "a/b**/c")
  /\ forall fs, Globstar.iglob fs 1 "a/b**/c" = ([], Raised ValueError).
Proof.
  assert (H : Exists (fun p => mixes_globstar p = true)
                (Globstar._split_path "a/b**/c")).
  { apply Exists_cons_tl, Exists_cons_hd. vm_compute. reflexivity. }
  split; [exact H|].
  intros fs. exact (iglob_invalid_pattern_raises fs 0 "a/b**/c" H).
Defined.

(** The run of [iglob] on a pattern none of whose segments holds the
    recursive wildcard: one call of the single-level glob, whose paths are
    yielded normalized. *)
Lemma iglob_plain_run (fs : FS) (fuel : nat) (pattern : str) :
  Forall (fun p => Str.contains p Globstar._GLOBSTAR = false)
    (Globstar._split_path pattern) ->
  Globstar.iglob fs (S fuel) pattern
  = (Access (Glob pattern)
       :: map (fun p => Yield (PosixPath.normpath p)) (glob_iglob fs pattern),
     Finished).
Proof.
  intros Hplain.
  assert (Hnone : Forall (fun p => p <> Globstar._GLOBSTAR)
                    (Globstar._split_path pattern)).
  { eapply Forall_impl; [exact Hplain|]. intros p Hp ->. by vm_compute in Hp. }
  simpl. unfold Globstar._canonicalize.
  rewrite (canonicalize_loop_plain _ _ _ Hplain). simpl.
  unfold Globstar._find_globstar. rewrite (find_globstar_from_none _ _ Hnone).
  simpl. by rewrite each_yield_events.
Qed.

(** C7. For a pattern none of whose segments holds the recursive
    wildcard, [iglob] yields what the single-level glob of the pattern
    yields, each path normalized, in the same order, and finishes. *)
Theorem iglob_plain_is_glob (fs : FS) (fuel : nat) (pattern : str) :
  Forall (fun p => Str.contains p Globstar._GLOBSTAR = false)
    (Globstar._split_path pattern) ->
  Gen.yields (fst (Globstar.iglob fs (S fuel) pattern))
  = spec_plain_glob fs pattern
  /\ snd (Globstar.iglob fs (S fuel) pattern) = Finished.
Proof.
  intros Hplain. rewrite (iglob_plain_run fs fuel pattern Hplain).
  simpl. by rewrite yields_map_yield.
Qed.

Lemma iglob_plain_is_glob_witness :
  Forall (fun p => Str.contains p Globstar._GLOBSTAR = false)
    (Globstar._split_path "./a/x/../f")
  /\ Gen.yields (fst (Globstar.iglob sample_fs 1 "./a/x/../f"))
     = spec_plain_glob sample_fs "./a/x/../f"
  /\ snd (Globstar.iglob sample_fs 1 "./a/x/../f") = Finished.
Proof.
  assert (H : Forall (fun p => Str.contains p Globstar._GLOBSTAR = false)
                (Globstar._split_path "./a/x/../f"))
    by (vm_compute; repeat constructor).
  split; [exact H|].
  exact (iglob_plain_is_glob sample_fs 0 "./a/x/../f" H).
Defined.

Example iglob_plain_sample :
  Globstar.iglob sample_fs 1 "./a/x/../f"
  = ([Access (Glob "./a/x/../f"); Yield ("a/f" : str)], Finished).
Proof. vm_compute. reflexivity. Qed.

(** C8. A directory that cannot be listed is an empty match, not an
    error: [_expand] and [_expand_curdir] ask for it once, yield nothing
    and finish; so does [iglob] for every pattern whose recursive wildcard
    is expanded from that directory. *)
Theorem iglob_missing_directory (fs : FS) (fuel : nat) (pathname : str) :
  walk_next fs pathname = None ->
  Globstar._expand fs (S fuel) pathname = ([Access (Walk pathname)], Finished)
  /\ Globstar._expand_curdir fs (S fuel) pathname
     = ([Access (Walk pathname)], Finished)
  /\ forall pattern parts,
       Globstar._canonicalize (Globstar._split_path pattern) = Ok parts ->
       Globstar._find_globstar parts <> (-1)%Z ->
       Globstar.prefix_of
         (Globstar.prefix_parts_of parts (Globstar._find_globstar parts))
       = pathname ->
       Globstar.iglob fs (S (S fuel)) pattern
       = ([Access (Walk pathname)], Finished).
Proof.
  intros Hmissing.
  split; [by apply expand_missing|]. split; [by apply expand_curdir_missing|].
  intros pattern parts Hc Hidx Hprefix.
  cbn [Globstar.iglob]. rewrite Hc.
  apply Z.eqb_neq in Hidx. rewrite Hidx, Hprefix.
  destruct (Globstar._find_globstar parts =? 0)%Z.
  - rewrite expand_curdir_missing by done. reflexivity.
  - rewrite expand_missing by done. reflexivity.
Qed.

Lemma iglob_missing_directory_witness :
  walk_next sample_fs "nowhere" = None
  /\ Globstar._expand sample_fs 1 "nowhere"
     = ([Access (Walk "nowhere")], Finished)
  /\ Globstar.iglob sample_fs 2 "nowhere/**/b"
     = ([Access (Walk "nowhere")], Finished).
Proof.
  assert (H : walk_next sample_fs "nowhere" = None)
    by (vm_compute; reflexivity).
  split; [exact H|].
  destruct (iglob_missing_directory sample_fs 0 "nowhere" H) as (He & _ & Hi).
  split; [exact He|].
  apply (Hi "nowhere/**/b" [("nowhere" : str); ("**" : str); ("b" : str)]).
  - vm_compute. reflexivity.
  - vm_compute. discriminate.
  - vm_compute. reflexivity.
Defined.

(** C5, as amended.  When the start directory can be listed, [_expand]
    yields it first, with a trailing separator, provided that its path has
    a base name; [_expand_curdir] yields the empty path first. *)
Theorem expand_zero_expansion_first (fs : FS) (fuel : nat) (pathname : str)
    (dirs files : list str) :
  Globstar._list_dir fs pathname = Some (dirs, files) ->
  (Str.truthy (PosixPath.basename pathname) = true ->
   exists rest,
     fst (Globstar._expand fs (S fuel) pathname)
     = Access (Walk pathname)
         :: Yield (KDir, PosixPath.join2 pathname []) :: rest)
  /\ exists rest,
       fst (Globstar._expand_curdir fs (S fuel) pathname)
       = Access (Walk pathname) :: Yield (KDir, ([] : str)) :: rest.
Proof.
  intros Hls. split.
  - intros Hbase. cbn [Globstar._expand]. rewrite Hls, Hbase.
    rewrite seq_touch_fst, seq_yield_fst. by eexists.
  - cbn [Globstar._expand_curdir]. rewrite Hls.
    rewrite seq_touch_fst, seq_yield_fst. by eexists.
Qed.

Lemma expand_zero_expansion_first_witness :
  Globstar._list_dir sample_fs "a" = Some ([("x" : str)], [("f" : str)])
  /\ Str.truthy (PosixPath.basename "a") = true
  /\ exists rest,
       fst (Globstar._expand sample_fs 1 "a")
       = Access (Walk "a") :: Yield (KDir, ("a/" : str)) :: rest.
Proof.
  assert (H : Globstar._list_dir sample_fs "a"
              = Some ([("x" : str)], [("f" : str)])) by (vm_compute; reflexivity).
  split; [exact H|]. split; [reflexivity|].
  exact (proj1 (expand_zero_expansion_first sample_fs 0 "a" _ _ H) eq_refl).
Defined.

(** C5, the claim as stated fails at the root: for [/**] the start
    directory [/] can be listed, but it has no base name and [_expand]
    does not yield it; the first path out of [iglob] is the file [/f]. *)
Lemma iglob_root_zero_expansion_missing :
  Globstar._list_dir sample_fs "/" = Some ([("a" : str)], [("f" : str)])
  /\ Globstar.iglob sample_fs 4 "/**"
     = ([Access (Walk "/"); Yield ("/f" : str);
         Access (Walk "/a"); Yield ("/a/" : str); Yield ("/a/f" : str);
         Access (Walk "/a/x"); Yield ("/a/x/" : str); Yield ("/a/x/b" : str)],
        Finished).
Proof. split; vm_compute; reflexivity. Qed.

(** C6, the claim as stated fails for a pattern that ends in the
    recursive wildcard: the paths are yielded as [_expand] builds them, a
    directory with its trailing separator, and under [./a/**] with the
    leading [./] of the pattern; [a/f] and [./a/f] name the same file. *)
Lemma iglob_globstar_yields_unnormalized :
  Gen.yields (fst (Globstar.iglob sample_fs 4 "a/**"))
  = [("a/" : str); ("a/f" : str); ("a/x/" : str); ("a/x/b" : str)]
  /\ Gen.yields (fst (Globstar.iglob sample_fs 4 "./a/**"))
     = [("./a/" : str); ("./a/f" : str); ("./a/x/" : str); ("./a/x/b" : str)]
  /\ is_normalized "a/" = false
  /\ is_normalized "./a/f" = false
  /\ PosixPath.normpath "./a/f" = ("a/f" : str).
Proof. repeat split; vm_compute; reflexivity. Qed.

Lemma yields_each_Forall {X A} (P : A -> Prop) (l : list X) (body : X -> gen A) :
  (forall x, Forall P (Gen.yields (fst (body x)))) ->
  Forall P (Gen.yields (fst (Gen.each l body))).
Proof.
  intros Hbody. induction l as [|x l IH]; cbn [Gen.each]; [constructor|].
  by apply yields_seq_Forall.
Qed.

(** Joining the empty string to a path that has a base name adds a
    separator. *)
Lemma join2_empty_last (p : str) :
  Str.truthy (PosixPath.basename p) = true ->
  last (PosixPath.join2 p []) = Some PosixPath.sep.
Proof.
  intros Hb. unfold PosixPath.join2, PosixPath.join. simpl.
  unfold PosixPath.join_step. simpl.
  destruct p as [|c p]; [done|]. cbn [Str.truthy negb orb].
  match goal with
  | |- context [if ?b then _ else _] => destruct b eqn:He
  end.
  - rewrite app_nil_r. by apply (endswith_sep_last (c :: p)).
  - change (last ((c :: p) ++ [PosixPath.sep]) = Some PosixPath.sep).
    by rewrite last_snoc.
Qed.

Lemma expand_dirs_last (fs : FS) (fuel : nat) (pathname : str) :
  Forall (fun x => fst x = KDir -> last (snd x) = Some PosixPath.sep)
    (Gen.yields (fst (Globstar._expand fs fuel pathname))).
Proof.
  revert pathname. induction fuel as [|fuel IH]; intros pathname;
    [constructor|].
  cbn [Globstar._expand].
  apply yields_seq_Forall; [constructor|].
  destruct (Globstar._list_dir fs pathname) as [[dirs files]|]; [|constructor].
  apply yields_seq_Forall; [|apply yields_seq_Forall].
  - destruct (Str.truthy (PosixPath.basename pathname)) eqn:Hb; [|constructor].
    repeat constructor. simpl. intros _. by apply join2_empty_last.
  - apply yields_each_Forall. intros f. by repeat constructor.
  - apply yields_each_Forall. intros d. rewrite for_yield. apply IH.
Qed.

(** What a [for] loop over a generator yields comes from its body, run on
    what the generator yields. *)
Lemma yields_for_Forall_in {A B} (P : B -> Prop) (g : gen A)
    (body : A -> gen B) :
  (forall x, In x (Gen.yields (fst g)) ->
             Forall P (Gen.yields (fst (body x)))) ->
  Forall P (Gen.yields (fst (Gen.for_ g body))).
Proof.
  intros Hbody. unfold Gen.for_.
  apply yields_seq_Forall; [|constructor].
  induction (fst g) as [|[a|x] evs IH]; cbn [Gen.for_events].
  - constructor.
  - apply yields_seq_Forall; [constructor|]. by apply IH.
  - apply yields_seq_Forall.
    + apply Hbody. by left.
    + apply IH. intros y Hy. apply Hbody. by right.
Qed.

(** A last part that is the recursive wildcard stays last. *)
Lemma canonicalize_loop_last_globstar (parts : list str) res prev c :
  (prev = true -> last res = Some Globstar._GLOBSTAR) ->
  Globstar._canonicalize_loop (parts ++ [Globstar._GLOBSTAR]) res prev = Ok c ->
  last c = Some Globstar._GLOBSTAR.
Proof.
  revert res prev. induction parts as [|p parts IH]; intros res prev Hprev; simpl.
  - destruct prev; simpl.
    + intros [= <-]. by apply Hprev.
    + intros [= <-]. by rewrite last_snoc.
  - case_bool_decide as Hp.
    + destruct prev; simpl.
      * by apply IH.
      * apply IH. intros _. by rewrite last_snoc, Hp.
    + destruct (Str.contains p Globstar._GLOBSTAR); [done|].
      by apply IH.
Qed.

Lemma expand_curdir_dirs_last (fs : FS) (fuel : nat) (pathname : str) :
  Forall (fun x => fst x = KDir ->
                   snd x = [] \/ last (snd x) = Some PosixPath.sep)
    (Gen.yields (fst (Globstar._expand_curdir fs fuel pathname))).
Proof.
  destruct fuel as [|fuel]; [constructor|].
  cbn [Globstar._expand_curdir].
  apply yields_seq_Forall; [constructor|].
  destruct (Globstar._list_dir fs pathname) as [[dirs files]|]; [|constructor].
  apply yields_seq_Forall; [|apply yields_seq_Forall].
  - repeat constructor.
  - apply yields_each_Forall. intros f. by repeat constructor.
  - apply yields_each_Forall. intros d. rewrite for_yield.
    eapply Forall_impl; [apply expand_dirs_last|]. intros x Hx Hk.
    right. by apply Hx.
Qed.

(** The last part of the pattern is the last part of the patterns of the
    recursive calls. *)
Lemma join2_suffix_basename (path : str) (qs : list str) (l : str) :
  ~ In PosixPath.sep l ->
  PosixPath.basename
    (PosixPath.join2 path (Globstar.suffix_of (qs ++ [l]))) = l.
Proof.
  intros Hl. unfold Globstar.suffix_of.
  replace (Str.truthy (qs ++ [l])) with true by (by destruct qs).
  destruct (join_star_end qs l) as (b & -> & Hb1).
  unfold PosixPath.join2, PosixPath.join. simpl.
  destruct (join_step_end path b l Hb1) as (b' & -> & Hb').
  by apply basename_app.
Qed.

(** The paths of a pattern that does not end in the recursive wildcard
    are results of [normpath]. *)
Lemma iglob_yields_normpath (fs : FS) (fuel : nat) (pattern : str) :
  last (Globstar._split_path pattern) <> Some Globstar._GLOBSTAR ->
  Forall (fun p => exists q, p = PosixPath.normpath q)
    (Gen.yields (fst (Globstar.iglob fs fuel pattern))).
Proof.
  revert pattern. induction fuel as [|fuel IH]; intros pattern Hlast;
    [constructor|].
  cbn [Globstar.iglob].
  destruct (Globstar._canonicalize (Globstar._split_path pattern))
    as [parts|e] eqn:Hc; [|constructor].
  pose proof (split_path_last pattern) as Hl.
  set (l := PosixPath.basename pattern) in *.
  assert (Hne : l <> Globstar._GLOBSTAR) by congruence.
  assert (Hparts : last parts = Some l).
  { destruct (Globstar._split_path pattern) as [|p0 ps] eqn:Hsp using rev_ind;
      [done|].
    rewrite last_snoc in Hl. injection Hl as ->.
    by eapply canonicalize_loop_last. }
  destruct (Globstar._find_globstar parts =? -1)%Z eqn:Hidx.
  - rewrite each_yield_events, seq_touch_fst. simpl.
    rewrite yields_map_yield. apply Forall_forall. intros p Hp.
    apply list_elem_of_In, in_map_iff in Hp as (q & <- & _). by exists q.
  - apply Z.eqb_neq in Hidx.
    destruct (find_globstar_from_spec 0 parts) as [?|(n & Hn & Hstar)];
      [done|].
    unfold Globstar._find_globstar in *. rewrite Hn.
    unfold Globstar.suffix_parts_of.
    replace (Z.to_nat (0 + Z.of_nat n + 1)) with (S n) by lia.
    destruct (drop_after_not_last parts n _ _ Hstar Hparts) as [qs Hqs];
      [congruence|].
    rewrite Hqs.
    apply yields_for_Forall. intros [kind path].
    replace (Str.truthy (qs ++ [l])) with true by (by destruct qs).
    simpl negb. cbv iota.
    destruct kind; [|constructor].
    apply yields_seq_Forall; [constructor|].
    destruct (negb (islink fs path)); [|constructor].
    rewrite for_yield. apply IH.
    rewrite split_path_last, join2_suffix_basename;
      [intros [= Hb]; by apply Hne|apply basename_no_sep].
Qed.

(** A recursive wildcard among the parts is found. *)
Lemma find_globstar_from_found (i : Z) (parts : list str) :
  (0 <= i)%Z -> In Globstar._GLOBSTAR parts ->
  (0 <= Globstar._find_globstar_from i parts)%Z.
Proof.
  revert i. induction parts as [|p parts IH]; intros i Hi Hin; simpl; [done|].
  case_bool_decide as Hp; [done|].
  destruct Hin as [Heq|Hin]; [done|]. apply IH; [lia|done].
Qed.

(** The paths of a pattern that ends in the recursive wildcard are those
    that [_expand] and [_expand_curdir] build. *)
Lemma iglob_yields_built (fs : FS) (fuel : nat) (pattern : str) :
  last (Globstar._split_path pattern) = Some Globstar._GLOBSTAR ->
  Forall (built_by_expand fs)
    (Gen.yields (fst (Globstar.iglob fs fuel pattern))).
Proof.
  revert pattern. induction fuel as [|fuel IH]; intros pattern Hlast;
    [constructor|].
  cbn [Globstar.iglob].
  destruct (Globstar._canonicalize (Globstar._split_path pattern))
    as [parts|e] eqn:Hc; [|constructor].
  assert (Hparts : last parts = Some Globstar._GLOBSTAR).
  { destruct (Globstar._split_path pattern) as [|p0 ps] eqn:Hsp using rev_ind;
      [done|].
    rewrite last_snoc in Hlast. injection Hlast as ->.
    apply (canonicalize_loop_last_globstar ps [] false); [done|exact Hc]. }
  destruct (find_globstar_from_spec 0 parts) as [Hnone|(n & Hn & Hstar)].
  { exfalso.
    assert (Hin : In Globstar._GLOBSTAR parts)
      by (by apply list_elem_of_In, last_Some_elem_of).
    pose proof (find_globstar_from_found 0 parts ltac:(lia) Hin). lia. }
  unfold Globstar._find_globstar. rewrite Hn.
  replace (0 + Z.of_nat n =? -1)%Z with false by (symmetry; apply Z.eqb_neq; lia).
  unfold Globstar.suffix_parts_of.
  replace (Z.to_nat (0 + Z.of_nat n + 1)) with (S n) by lia.
  apply yields_for_Forall_in. intros [kind path] Hin.
  destruct (decide (drop (S n) parts = [])) as [Hnil|Hsuffix].
  - rewrite Hnil. simpl. constructor; [|constructor].
    exists fuel, (Globstar.prefix_of (Globstar.prefix_parts_of parts (0 + Z.of_nat n))), kind.
    destruct (0 + Z.of_nat n =? 0)%Z.
    + split; [by right|].
      pose proof (expand_curdir_dirs_last fs fuel
                    (Globstar.prefix_of
                       (Globstar.prefix_parts_of parts (0 + Z.of_nat n)))) as Hd.
      rewrite Forall_forall in Hd. intros Hk.
      apply (Hd (kind, path)); [by apply list_elem_of_In|done].
    + split; [by left|].
      pose proof (expand_dirs_last fs fuel
                    (Globstar.prefix_of
                       (Globstar.prefix_parts_of parts (0 + Z.of_nat n)))) as Hd.
      rewrite Forall_forall in Hd. intros Hk. right.
      apply (Hd (kind, path)); [by apply list_elem_of_In|done].
  - destruct (exists_last Hsuffix) as (qs & l & Hqs).
    assert (Hl : l = Globstar._GLOBSTAR).
    { rewrite <- (take_drop (S n) parts), Hqs, app_assoc, last_snoc in Hparts.
      congruence. }
    subst l. rewrite Hqs.
    replace (Str.truthy (qs ++ [Globstar._GLOBSTAR])) with true
      by (by destruct qs).
    simpl negb. cbv iota.
    destruct kind; [|constructor].
    apply yields_seq_Forall; [constructor|].
    destruct (negb (islink fs path)); [|constructor].
    rewrite for_yield. apply IH.
    rewrite split_path_last, join2_suffix_basename; [done|].
    vm_compute. intros [H|[H|[]]]; discriminate.
Qed.

(** C6, as amended.  A path that [iglob] yields for a pattern that does
    not end in a recursive-wildcard segment is normalized: [normpath]
    leaves it unchanged, it does not start with [./] and does not end
    with a separator, unless it is made of separators only.  For a
    pattern that ends in the recursive wildcard [iglob] does not
    normalize: every path it yields is one that [_expand] or
    [_expand_curdir] built, a directory being the empty string or ending
    in a separator. *)
Theorem iglob_yields_normalized (fs : FS) (fuel : nat) (pattern : str) :
  (last (Globstar._split_path pattern) <> Some Globstar._GLOBSTAR ->
   Forall (fun p => PosixPath.normpath p = p /\ is_normalized p = true)
     (Gen.yields (fst (Globstar.iglob fs fuel pattern))))
  /\ (last (Globstar._split_path pattern) = Some Globstar._GLOBSTAR ->
      Forall (built_by_expand fs)
        (Gen.yields (fst (Globstar.iglob fs fuel pattern)))).
Proof.
  split; [|apply iglob_yields_built].
  intros Hlast. eapply Forall_impl; [by apply iglob_yields_normpath|].
  intros p [q ->]. split; [apply normpath_idempotent|].
  apply normpath_is_normalized.
Qed.

Lemma iglob_yields_normalized_witness :
  last (Globstar._split_path "./a/**/b") <> Some Globstar._GLOBSTAR
  /\ Gen.yields (fst (Globstar.iglob sample_fs 4 "./a/**/b"))
     = [("a/x/b" : str)]
  /\ Forall (fun p => PosixPath.normpath p = p /\ is_normalized p = true)
       (Gen.yields (fst (Globstar.iglob sample_fs 4 "./a/**/b"))).
Proof.
  assert (H : last (Globstar._split_path "./a/**/b")
              <> Some Globstar._GLOBSTAR) by (vm_compute; discriminate).
  split; [exact H|]. split; [vm_compute; reflexivity|].
  exact (proj1 (iglob_yields_normalized sample_fs 4 "./a/**/b") H).
Defined.

(** For [a/**/b] the matches are those below [a] at any depth, the zero
    expansion [a/b] included when it exists; here only [a/x/b] does. *)
Example iglob_suffix_sample :
  Globstar.iglob sample_fs 4 "./a/**/b"
  = ([Access (Walk "./a");
      Access (Islink "./a/"); Access (Glob "./a/b");
      Access (Walk "./a/x");
      Access (Islink "./a/x/"); Access (Glob "./a/x/b");
      Yield ("a/x/b" : str)],
     Finished).
Proof. vm_compute. reflexivity. Qed.

(** ** Symbolic links *)

(** Without a limit on the links resolved, the expansion of a directory
    that holds a link to itself never ends: whatever the fuel, the run is
    cut off. *)
Lemma expand_endless fuel pathname :
  snd (Globstar._expand endless_fs fuel pathname) = OutOfFuel.
Proof.
  revert pathname. induction fuel as [|fuel IH]; intros pathname; [done|].
  cbn [Globstar._expand]. unfold Globstar._list_dir. cbn [walk_next endless_fs].
  rewrite seq_touch_snd.
  cbn [Gen.each]. rewrite seq_skip_l, for_yield, seq_skip_r.
  destruct (Str.truthy (PosixPath.basename pathname)).
  - rewrite seq_yield_snd. apply IH.
  - rewrite seq_skip_l. apply IH.
Qed.

(** C3, the code at a tree with a link to its own directory.  [a/loop]
    is a symbolic link; [_expand] lists it and goes on below it, level
    after level, yielding the same file under ever longer names; the run
    ends only because the system refuses to resolve more than
    [MAXSYMLINKS] links, at which point [isdir] fails and the link is
    yielded as a file. *)
Theorem expand_descends_into_symlink :
  islink loop_fs "a/loop" = true
  /\ firstn 9 (fst (Globstar.iglob loop_fs 64 "a/**"))
     = [Access (Walk "a"); Yield ("a/" : str); Yield ("a/f" : str);
        Access (Walk "a/loop");
        Yield ("a/loop/" : str); Yield ("a/loop/f" : str);
        Access (Walk "a/loop/loop");
        Yield ("a/loop/loop/" : str); Yield ("a/loop/loop/f" : str)]
  /\ length (Gen.yields (fst (Globstar.iglob loop_fs 64 "a/**"))) = 83
  /\ snd (Globstar.iglob loop_fs 64 "a/**") = Finished.
Proof. repeat split; vm_compute; reflexivity. Qed.

(** The test of [iglob] before it goes on with a suffix is made on the
    path that [_expand] yields, which ends in a separator; a link before a
    trailing separator is resolved, so the test does not see the link:
    for [a/**/f] the file is found again below the link. *)
Example iglob_suffix_follows_link :
  islink loop_fs "a/loop/" = false
  /\ firstn 7 (fst (Globstar.iglob loop_fs 64 "a/**/f"))
     = [Access (Walk "a");
        Access (Islink "a/"); Access (Glob "a/f"); Yield ("a/f" : str);
        Access (Walk "a/loop");
        Access (Islink "a/loop/"); Access (Glob "a/loop/f")]
  /\ firstn 3 (Gen.yields (fst (Globstar.iglob loop_fs 64 "a/**/f")))
     = [("a/f" : str); ("a/loop/f" : str); ("a/loop/loop/f" : str)].
Proof. repeat split; vm_compute; reflexivity. Qed.

(** ** Repo *)

Lemma has_extension_normpath_join (root f : str) :
  Repo.has_extension f = true ->
  Repo.has_extension (PosixPath.normpath (PosixPath.join2 root f)) = true.
Proof.
  unfold Repo.has_extension. rewrite !orb_true_iff.
  intros [[H|H]|H];
    [left; left; apply (normpath_keeps_suffix _ "." "h"%char)
    |left; right; apply (normpath_keeps_suffix _ ".hp" "p"%char)
    |right; apply (normpath_keeps_suffix _ ".cp" "p"%char)];
    try discriminate; try (apply join2_endswith, H);
    simpl; unfold PosixPath.sep; intros Hin;
    repeat (destruct Hin as [Hin|Hin]; [discriminate|]); done.
Qed.

(** After [rstrip], the [$] of the pattern stands at the end of the
    string: there is no newline left for it to stand before. *)
Lemma files_match_search_rstrip (line : str) :
  Repo.files_match_search (Str.rstrip Str.is_space line) = true ->
  Repo.has_extension (Str.rstrip Str.is_space line) = true.
Proof.
  unfold Repo.files_match_search. rewrite orb_true_iff, andb_true_iff.
  intros [H|[H _]]; [done|].
  apply endswith_one_last, rstrip_last in H. done.
Qed.

Lemma get_local_dir_ok cwd root (f : str) :
  exists f', Repo._get_local_dir cwd root f = Ok f'.
Proof.
  unfold Repo._get_local_dir, Repo.relpath, PosixPath.isabs.
  destruct (Str.startswith f "/") eqn:Habs; [|by eexists].
  destruct f as [|a f]; [done|]. simpl.
  match goal with |- context [if ?b then _ else _] => destruct b end;
    by eexists.
Qed.

Lemma map_result_ok {A B} (f : A -> result B) (l : list A) :
  (forall x, exists y, f x = Ok y) ->
  exists ys, Repo.map_result f l = Ok ys.
Proof.
  intros Hf. induction l as [|x l [ys IH]]; simpl; [by eexists|].
  destruct (Hf x) as [y ->]. rewrite IH. by eexists.
Qed.

(** What passes the filter of [_get_candidate_files]. *)
Lemma get_candidate_files_spec gito (f : str) :
  In f (Repo._get_candidate_files gito) ->
  exists line,
    In line (Repo.splitlines gito)
    /\ f = Str.rstrip Str.is_space line
    /\ Str.contains line "src" = true
    /\ Str.contains line "examples" = false
    /\ Str.contains line "third_party" = false
    /\ Repo.has_extension f = true.
Proof.
  unfold Repo._get_candidate_files. rewrite <- list_elem_of_In.
  rewrite list_elem_of_filter. intros [Hmatch Hf].
  apply list_elem_of_In, in_map_iff in Hf as (line & <- & Hline).
  apply list_elem_of_In, list_elem_of_filter in Hline as [Hcond Hline].
  apply andb_true_iff in Hcond as [Hcond H3].
  apply andb_true_iff in Hcond as [H1 H2].
  apply negb_true_iff in H2, H3.
  exists line. repeat split; try done.
  - by apply list_elem_of_In.
  - by apply files_match_search_rstrip.
Qed.

Lemma contains_snoc (s t : str) (x c : ascii) :
  last t = Some c -> c <> x ->
  Str.contains (s ++ [x]) t = true -> Str.contains s t = true.
Proof.
  intros Hlast Hne. rewrite !contains_spec. intros (a & b & Heq).
  destruct (decide (b = [])) as [->|Hb].
  - exfalso. rewrite app_nil_r in Heq.
    apply (f_equal last) in Heq. rewrite last_snoc in Heq.
    rewrite last_app, Hlast in Heq. congruence.
  - destruct (exists_last Hb) as (b' & x' & ->).
    rewrite !app_assoc in Heq. apply app_inj_tail in Heq as [-> _].
    exists a, b'. by rewrite <- app_assoc.
Qed.

(** Text that does not end in a character to strip is found in a string
    exactly when it is found in the stripped string. *)
Lemma contains_rstrip (strip : ascii -> bool) (line t : str) (c : ascii) :
  last t = Some c -> strip c = false ->
  Str.contains (Str.rstrip strip line) t = Str.contains line t.
Proof.
  intros Hlast Hc.
  destruct (rstrip_prefix strip line) as (u & Hline & Hu).
  set (f := Str.rstrip strip line) in *. clearbody f. subst line.
  apply eq_true_iff_eq. split; [apply contains_app_l|].
  induction u as [|x u IH] using rev_ind; [by rewrite app_nil_r|].
  rewrite forallb_app in Hu. apply andb_true_iff in Hu as [Hu Hx].
  simpl in Hx. rewrite andb_true_r in Hx.
  rewrite app_assoc. intros H. apply IH; [done|].
  apply (contains_snoc _ _ x c Hlast); [congruence|done].
Qed.

Lemma split_on_head (c : ascii) (s f : str) (fs : list str) :
  Str.split_on c s = f :: fs -> exists v, s = f ++ v.
Proof.
  revert f fs. induction s as [|x s IH]; intros f fs; simpl.
  - intros [= <- <-]. by exists [].
  - destruct (Ascii.eqb x c).
    + intros [= <- <-]. by eexists.
    + destruct (Str.split_on c s) as [|g gs] eqn:Hs.
      * intros [= <- <-]. destruct (split_on_snoc c s) as (l & b & Hl).
        rewrite Hs in Hl. by destruct l.
      * intros [= <- <-]. destruct (IH g gs eq_refl) as [v ->].
        by exists v.
Qed.

(** A field of [split_on] is a substring. *)
Lemma split_on_contains (c : ascii) (s seg : str) :
  In seg (Str.split_on c s) -> Str.contains s seg = true.
Proof.
  rewrite contains_spec. revert seg. induction s as [|x s IH]; intros seg; simpl.
  - intros [<-|[]]. by exists [], [].
  - destruct (Ascii.eqb x c).
    + intros [<-|Hin]; [by exists [], (x :: s)|].
      destruct (IH seg Hin) as (u & v & ->). by exists (x :: u), v.
    + destruct (Str.split_on c s) as [|g gs] eqn:Hs.
      * intros [<-|[]]. destruct (split_on_snoc c s) as (l & b & Hl).
        rewrite Hs in Hl. by destruct l.
      * intros [<-|Hin].
        -- destruct (split_on_head c s g gs Hs) as [v ->].
           by exists [], v.
        -- destruct (IH seg (or_intror Hin)) as (u & v & ->).
           by exists (x :: u), v.
Qed.

(** A path that holds neither word lies under no excluded segment. *)
Lemma code_keeps_not_excluded (f : str) :
  code_keeps f = true -> spec_under_excluded_segment f = false.
Proof.
  unfold code_keeps. rewrite !andb_true_iff, !negb_true_iff.
  intros [[_ Hex] Htp]. apply not_true_is_false.
  unfold spec_under_excluded_segment. rewrite existsb_exists.
  intros (seg & Hin & Hseg). apply split_on_contains in Hin.
  simpl in Hseg. rewrite orb_false_r in Hseg.
  apply orb_true_iff in Hseg as [Hseg|Hseg];
    apply bool_decide_eq_true in Hseg; rewrite Hseg in Hin;
    [exact (eq_true_false_abs _ Hin Hex)|exact (eq_true_false_abs _ Hin Htp)].
Qed.

Lemma spec_allowed_extension_eq (f : str) :
  spec_allowed_extension f = Repo.has_extension f.
Proof.
  unfold spec_allowed_extension, Repo.has_extension. simpl.
  by rewrite orb_false_r, orb_assoc.
Qed.

Lemma filter_map_str (P : str -> bool) (g : str -> str) (l : list str) :
  filter (fun a => P a = true) (map g l)
  = map g (filter (fun a => P (g a) = true) l).
Proof.
  induction l as [|a l IH]; [done|]. simpl.
  rewrite !filter_cons.
  destruct (decide (P (g a) = true)); simpl; by rewrite IH.
Qed.

Lemma filter_ext_str (P Q : str -> bool) (l : list str) :
  (forall a, P a = Q a) ->
  filter (fun a => P a = true) l = filter (fun a => Q a = true) l.
Proof.
  intros H. induction l as [|a l IH]; [done|].
  rewrite !filter_cons, IH.
  destruct (decide (P a = true)) as [Hp|Hp], (decide (Q a = true)) as [Hq|Hq];
    try done; rewrite H in Hp; done.
Qed.

Lemma filter_and_str (P Q : str -> bool) (l : list str) :
  filter (fun a => P a = true) (filter (fun a => Q a = true) l)
  = filter (fun a => P a && Q a = true) l.
Proof.
  induction l as [|a l IH]; [done|].
  rewrite !filter_cons.
  destruct (decide (Q a = true)) as [Hq|Hq];
    [rewrite filter_cons|];
    destruct (decide (P a = true)) as [Hp|Hp];
    destruct (decide (P a && Q a = true)) as [Hpq|Hpq];
    try (by rewrite IH);
    try (exfalso; apply Hpq; by rewrite Hp, Hq);
    apply andb_true_iff in Hpq as [? ?]; done.
Qed.

(** The inventory of the code is the filtered inventory of the
    specification, narrowed by [code_keeps]. *)
Lemma get_candidate_files_spec_inventory (gito : str) :
  Repo._get_candidate_files gito
  = filter (fun f => code_keeps f = true) (spec_filtered_inventory gito).
Proof.
  unfold Repo._get_candidate_files, spec_filtered_inventory, spec_inventory.
  rewrite filter_and_str, !filter_map_str.
  rewrite (filter_and_str
             (fun line => Repo.files_match_search (Str.rstrip Str.is_space line))).
  f_equal. apply filter_ext_str. intros line.
  set (f := Str.rstrip Str.is_space line).
  assert (Hsearch : Repo.files_match_search f = Repo.has_extension f).
  { apply eq_true_iff_eq. split; [apply files_match_search_rstrip|].
    unfold Repo.files_match_search. by intros ->. }
  rewrite Hsearch, spec_allowed_extension_eq.
  unfold code_keeps. subst f.
  rewrite (contains_rstrip _ line "src" "c"%char) by done.
  rewrite (contains_rstrip _ line "examples" "s"%char) by done.
  rewrite (contains_rstrip _ line "third_party" "y"%char) by done.
  destruct (Str.contains line "src" && negb (Str.contains line "examples")
            && negb (Str.contains line "third_party")) eqn:Hk.
  - assert (Hk' : code_keeps (Str.rstrip Str.is_space line) = true).
    { unfold code_keeps.
      rewrite (contains_rstrip _ line "src" "c"%char) by done.
      rewrite (contains_rstrip _ line "examples" "s"%char) by done.
      by rewrite (contains_rstrip _ line "third_party" "y"%char) by done. }
    by rewrite (code_keeps_not_excluded _ Hk').
  - by rewrite andb_false_r.
Qed.

(** C9, as amended.  [get_candidates] does not raise.  Every path it
    returns is the normalized join of the root and a file of the filtered
    inventory of the specification: a tracked file with one of the three
    extensions, which the path keeps, under no excluded segment.  The
    file moreover holds [src], and holds [examples] and [third_party]
    nowhere.  Without candidates, [None] or an empty list, what is
    returned is the filtered inventory narrowed to these files, in the
    order of the inventory. *)
Theorem get_candidates_filtered (cwd root gito : str)
    (candidates : option (list str)) :
  exists out,
    Repo.get_candidates cwd root gito candidates = Ok out
    /\ (forall p, In p out ->
          exists f,
            In f (spec_filtered_inventory gito)
            /\ p = PosixPath.normpath (PosixPath.join2 root f)
            /\ spec_allowed_extension f = true
            /\ spec_allowed_extension p = true
            /\ spec_under_excluded_segment f = false
            /\ code_keeps f = true)
    /\ (candidates = None \/ candidates = Some [] ->
        out = map (fun f => PosixPath.normpath (PosixPath.join2 root f))
                (filter (fun f => code_keeps f = true)
                   (spec_filtered_inventory gito))).
Proof.
  assert (Hvalid : exists valid_files,
    Repo.get_candidates cwd root gito candidates
    = Ok (map (fun f => PosixPath.normpath (PosixPath.join2 root f)) valid_files)
    /\ (forall f, In f valid_files -> In f (Repo._get_candidate_files gito))
    /\ (candidates = None \/ candidates = Some [] ->
        valid_files = Repo._get_candidate_files gito)).
  { unfold Repo.get_candidates.
    destruct candidates as [[|c cs]|].
    - exists (Repo._get_candidate_files gito). by repeat split.
    - destruct (map_result_ok (Repo._get_local_dir cwd root) (c :: cs)
                  (get_local_dir_ok cwd root)) as [ys ->].
      eexists. split; [reflexivity|]. split.
      + intros f Hf. apply list_elem_of_In, elem_of_elements in Hf.
        apply elem_of_intersection in Hf as [_ Hf].
        by apply elem_of_list_to_set, list_elem_of_In in Hf.
      + by intros [|].
    - exists (Repo._get_candidate_files gito). by repeat split. }
  destruct Hvalid as (valid_files & -> & Hsub & Hall).
  eexists. split; [reflexivity|]. split.
  - intros p Hp. apply in_map_iff in Hp as (f & <- & Hf).
    apply Hsub in Hf. rewrite get_candidate_files_spec_inventory in Hf.
    apply list_elem_of_In, list_elem_of_filter in Hf as [Hkeeps Hf].
    pose proof Hf as Hspec.
    apply list_elem_of_filter in Hspec as [Hspec _].
    apply andb_true_iff in Hspec as [Hext Hseg].
    apply negb_true_iff in Hseg.
    exists f. repeat split; try done.
    + by apply list_elem_of_In.
    + rewrite spec_allowed_extension_eq in *.
      by apply has_extension_normpath_join.
  - intros Hc. by rewrite (Hall Hc), get_candidate_files_spec_inventory.
Qed.

(** C9, the claim as stated fails: the header [include/a.h] is tracked,
    has an extension of the allow-list and lies under no excluded
    segment, and so does [src/counterexamples.cpp]; both are in the
    filtered inventory, and neither is returned. *)
Lemma get_candidates_drops_filtered_files :
  spec_filtered_inventory sample_inventory_outside_src
  = [("include/a.h" : str); ("src/b.h" : str);
     ("src/counterexamples.cpp" : str)]
  /\ Repo.get_candidates "/home/u" "/repo" sample_inventory_outside_src None
     = Ok [("/repo/src/b.h" : str)]
  /\ Repo.get_candidates "/home/u" "/repo" sample_inventory_outside_src
       (Some [])
     = Ok [("/repo/src/b.h" : str)].
Proof. repeat split; vm_compute; reflexivity. Qed.

(** A sample inventory: one line per file, the last two with trailing
    blanks and with an extension that is not wanted. *)
Example get_candidates_sample :
  let nl : str := ["010"%char] in
  let gito : str :=
    "src/a.cpp" ++ nl ++ "src/third_party/b.h" ++ nl
    ++ "examples/src/c.hpp" ++ nl ++ "README" ++ nl
    ++ "src/d.hpp  " ++ nl ++ "src/e.c" ++ nl in
  Repo.get_candidates "/home/u" "/repo" gito None
  = Ok [("/repo/src/a.cpp" : str); ("/repo/src/d.hpp" : str)]
  /\ Repo.get_candidates "/home/u" "/repo" gito
       (Some [("/repo/src/a.cpp" : str); ("src/third_party/b.h" : str);
              ("src/e.c" : str)])
     = Ok [("/repo/src/a.cpp" : str)].
Proof. split; vm_compute; reflexivity. Qed.

(** ** ClangFormat *)

(** C10. [_validate_version] returns [False] whatever the program
    prints, and also when the call ends in [CalledProcessError]; any other
    exception of the call goes through. *)
Theorem validate_version_always_false (callo : list str -> result str)
    (path : str) (warn : bool) :
  match callo [path; ("--version" : str)] with
  | Ok _ | Raise CalledProcessError =>
      snd (ClangFormat._validate_version callo path warn) = Ok false
  | Raise e =>
      ClangFormat._validate_version callo path warn = ([], Raise e)
  end.
Proof.
  unfold ClangFormat._validate_version.
  destruct (callo _) as [out|[| |]]; reflexivity.
Qed.

(** ** parallel_process *)

Section ParallelProcessFacts.
Import ParallelProcess.
Context {Item : Type}.
Variable func : Item -> bool.
Variable cpus : nat.

#[local] Abbreviation step := (ParallelProcess.step func cpus).
#[local] Abbreviation tnext := (ParallelProcess.tnext func).
#[local] Abbreviation mnext := (ParallelProcess.mnext (Item := Item) cpus).
#[local] Abbreviation Inv := (ParallelProcess.Inv func cpus).
#[local] Abbreviation measure := (ParallelProcess.measure (Item := Item) cpus).
#[local] Abbreviation some_failed := (ParallelProcess.some_failed func).
#[local] Arguments Nat.mul : simpl never.

Lemma tsum_insert (f : tpc -> nat) (l : list (@tpc Item)) i pc pc' :
  l !! i = Some pc ->
  tsum f (<[i := pc']> l) + f pc = tsum f l + f pc'.
Proof.
  revert i. induction l as [|x l IH]; intros i Hi; [done|].
  destruct i as [|i]; simpl in *.
  - injection Hi as ->. unfold tsum. simpl. lia.
  - specialize (IH i Hi). unfold tsum in *. simpl. lia.
Qed.

Lemma tsum_app (f : tpc -> nat) (l1 l2 : list (@tpc Item)) :
  tsum f (l1 ++ l2) = tsum f l1 + tsum f l2.
Proof. unfold tsum. by rewrite map_app, list_sum_app. Qed.

Lemma tsum_snoc (f : tpc -> nat) (l : list (@tpc Item)) pc :
  tsum f (l ++ [pc]) = tsum f l + f pc.
Proof. rewrite tsum_app. unfold tsum. simpl. lia. Qed.

Lemma tsum_lookup (f : tpc -> nat) (l : list (@tpc Item)) i pc :
  l !! i = Some pc -> f pc <= tsum f l.
Proof.
  revert i. induction l as [|x l IH]; intros i Hi; [done|].
  destruct i as [|i]; simpl in *.
  - injection Hi as ->. unfold tsum. simpl. lia.
  - specialize (IH i Hi). unfold tsum in *. simpl. lia.
Qed.

Lemma tsum_pos_lookup (f : tpc -> nat) (l : list (@tpc Item)) :
  0 < tsum f l -> exists i pc, l !! i = Some pc /\ 0 < f pc.
Proof.
  induction l as [|x l IH]; unfold tsum; simpl; [lia|].
  intros H. destruct (f x) eqn:Hx.
  - destruct IH as (i & pc & Hi & Hpc); [unfold tsum; lia|].
    by exists (S i), pc.
  - exists 0, x. split; [done|lia].
Qed.

Lemma tsum_replicate_exited (f : tpc -> nat) n :
  f Exited = 0 -> tsum f (replicate n (@Exited Item)) = 0.
Proof.
  intros Hf. induction n as [|n IH]; [done|].
  unfold tsum in *. simpl. lia.
Qed.

Lemma at_get_exited_le (l : list (@tpc Item)) :
  tsum at_get l + tsum is_exited l <= length l.
Proof.
  induction l as [|x l IH]; [done|].
  unfold tsum in *. simpl. destruct x; simpl; lia.
Qed.

Lemma in_flight_replicate_exited n :
  in_flight (replicate n (@Exited Item)) = [].
Proof. induction n as [|n IH]; [done|exact IH]. Qed.

Lemma in_flight_app (l1 l2 : list (@tpc Item)) :
  in_flight (l1 ++ l2) = in_flight l1 ++ in_flight l2.
Proof. unfold in_flight. by rewrite flat_map_app. Qed.

Lemma some_failed_app (l1 l2 : list Item) :
  some_failed (l1 ++ l2) = some_failed l1 || some_failed l2.
Proof. unfold ParallelProcess.some_failed. by rewrite existsb_app. Qed.

Lemma some_failed_false (l : list Item) :
  some_failed l = false <-> Forall (fun x => func x = true) l.
Proof.
  unfold ParallelProcess.some_failed. induction l as [|x l IH]; simpl.
  - split; [constructor|done].
  - rewrite orb_false_iff, negb_false_iff, IH. split.
    + intros []. by constructor.
    + by inversion 1.
Qed.

Lemma some_failed_perm (l1 l2 : list Item) :
  Permutation l1 l2 -> some_failed l1 = some_failed l2.
Proof.
  induction 1 as [|x l1 l2 _ IH|x y l|l1 l2 l3 _ IH1 _ IH2]; simpl.
  - done.
  - by rewrite IH.
  - by destruct (negb (func x)), (negb (func y)).
  - congruence.
Qed.

(** *** Termination *)

Lemma tnext_measure (s s' : shared) (pc pc' : @tpc Item) :
  tnext s pc = Some (s', pc') ->
  rank pc' + 10 * length (queue s') < rank pc + 10 * length (queue s).
Proof.
  destruct pc; simpl; intros H; try (injection H as <- <-; simpl; lia).
  - injection H as <- <-. destruct (event s); simpl; lia.
  - destruct (queue s) eqn:Hq; injection H as <- <-; simpl; rewrite ?Hq;
      simpl; lia.
  - injection H as <- <-. destruct ret; simpl; lia.
  - destruct (lock s); [done|]. injection H as <- <-. simpl. lia.
  - done.
Qed.

Lemma step_measure (s s' : state) : step s s' -> measure s' < measure s.
Proof.
  intros [i pc sh' pc' Hi Hnext|s'' Hm].
  - unfold ParallelProcess.measure. simpl.
    pose proof (tsum_insert rank _ _ _ pc' Hi).
    pose proof (tnext_measure _ _ _ _ Hnext).
    rewrite length_insert. lia.
  - unfold ParallelProcess.mnext in Hm. unfold ParallelProcess.measure.
    destruct (main s) eqn:Hmain.
    + destruct (Nat.ltb_spec (length (threads s)) cpus);
        injection Hm as <-; simpl; rewrite ?tsum_app, ?length_app;
        unfold tsum; simpl; lia.
    + destruct (event (sh s)); [|done]. injection Hm as <-. simpl. lia.
    + destruct (threads s !! k) as [pc|] eqn:Hk.
      * destruct pc; try done. injection Hm as <-. simpl.
        apply lookup_lt_Some in Hk. lia.
      * injection Hm as <-. simpl. lia.
    + done.
Qed.

(** No run goes on for ever. *)
Lemma step_terminates (s : state) : Acc (flip step) s.
Proof.
  remember (measure s) as n eqn:Hn. revert s Hn.
  induction (lt_wf n) as [n _ IH]. intros s ->.
  constructor. intros s' Hs'. unfold flip in Hs'.
  eapply IH; [apply step_measure, Hs'|done].
Qed.

(** *** The invariant *)

Lemma inv_init (items : list Item) : Inv items (init items).
Proof.
  constructor; simpl; try done; unfold tsum; simpl; lia.
Qed.

Lemma in_flight_split (l : list (@tpc Item)) i pc :
  l !! i = Some pc ->
  exists rest,
    Permutation (in_flight l) (held pc ++ rest)
    /\ forall pc', Permutation (in_flight (<[i := pc']> l)) (held pc' ++ rest).
Proof.
  revert i. induction l as [|x l IH]; intros i Hi; [done|].
  destruct i as [|i]; simpl in *.
  - injection Hi as ->. exists (in_flight l). split; [done|by intros].
  - destruct (IH i Hi) as (rest & H1 & H2). exists (held x ++ rest). split.
    + unfold in_flight in *. simpl. rewrite H1.
      rewrite !app_assoc. apply Permutation_app_tail, Permutation_app_comm.
    + intros pc'. unfold in_flight in *. simpl. rewrite (H2 pc').
      rewrite !app_assoc. apply Permutation_app_tail, Permutation_app_comm.
Qed.

(** A thread that can still move is not among those already joined. *)
Lemma take_insert_live k (l : list (@tpc Item)) i pc pc' :
  take k l = replicate k Exited ->
  l !! i = Some pc -> pc <> Exited ->
  take k (<[i := pc']> l) = replicate k Exited.
Proof.
  intros Hk Hi Hpc. destruct (decide (i < k)) as [Hlt|Hge].
  - exfalso. apply Hpc.
    rewrite <- (lookup_take_lt l k i Hlt), Hk in Hi.
    by apply lookup_replicate in Hi as [-> _].
  - rewrite take_insert_ge by lia. done.
Qed.

Lemma all_exited_lookup (l : list (@tpc Item)) i pc :
  l = replicate (length l) Exited -> l !! i = Some pc -> pc = Exited.
Proof.
  intros Hl Hi. rewrite Hl in Hi. by apply lookup_replicate in Hi as [-> _].
Qed.

Ltac tnext_cases Hnext pc :=
  destruct pc; simpl in Hnext;
  repeat match type of Hnext with
         | context [match ?x with _ => _ end] => destruct x eqn:?
         end;
  simplify_eq.

(** Feed the facts of the invariant whose premise holds. *)
Ltac inv_feed :=
  repeat match goal with
         | H : ?P -> _ |- _ =>
             let HP := fresh in
             assert (HP : P) by (done || lia);
             specialize (H HP)
         end.

Ltac inv_close :=
  first [ done | lia | tauto
        | left; (done || lia) | right; (done || lia) ].

Lemma inv_step_thread (items : list Item) (s : state) i pc sh' pc' :
  Inv items s ->
  threads s !! i = Some pc ->
  tnext (sh s) pc = Some (sh', pc') ->
  Inv items {| sh := sh'; threads := <[i := pc']> (threads s);
               main := main s |}.
Proof.
  intros [Hlen Hstarted Hitems Hexited Hsetter Hevent Hresult Hpending Hlock
            Hempty Hfail Hmain] Hi Hnext.
  pose proof (tsum_insert is_exited _ _ _ pc' Hi) as E1.
  pose proof (tsum_insert saw_empty _ _ _ pc' Hi) as E2.
  pose proof (tsum_insert holds_lock _ _ _ pc' Hi) as E3.
  pose proof (tsum_insert pending_write _ _ _ pc' Hi) as E4.
  pose proof (tsum_insert on_fail_path _ _ _ pc' Hi) as E5.
  pose proof (tsum_lookup saw_empty _ _ _ Hi) as B2.
  pose proof (tsum_lookup holds_lock _ _ _ Hi) as B3.
  pose proof (tsum_lookup pending_write _ _ _ Hi) as B4.
  pose proof (tsum_lookup on_fail_path _ _ _ Hi) as B5.
  destruct (in_flight_split _ _ _ Hi) as (rest & Hr1 & Hr2).
  specialize (Hr2 pc').
  assert (Hjoin : forall k, take k (threads s) = replicate k Exited ->
                    pc <> Exited ->
                    take k (<[i := pc']> (threads s)) = replicate k Exited)
    by (intros k Hk Hpc; by eapply take_insert_live).
  assert (Hall : threads s = replicate (length (threads s)) Exited ->
                 pc = Exited) by (intros Hl; by eapply all_exited_lookup).
  destruct s as [[q ev res lk lg] l m]. simpl in *.
  tnext_cases Hnext pc; constructor; simpl in *;
    rewrite ?length_insert; try done; try lia; try tauto.
  (* the items *)
  all: try (match goal with |- Permutation _ _ => idtac end;
            rewrite Hr2; rewrite Hitems, Hr1; simpl;
            rewrite <- ?app_assoc; simpl;
            first [ done | apply Permutation_app_head, Permutation_middle
                  | apply Permutation_app_head; symmetry;
                    apply Permutation_middle ]).
  (* the main thread *)
  all: try (match goal with |- context [replicate] => idtac end;
            destruct m; [done|done| |];
            [ destruct Hmain as [Hev Hk]; split; [done|];
              by apply Hjoin
            | destruct Hmain as (Hev & Hl & Hb);
              by specialize (Hall Hl) ]).
  (* the counts *)
  all: intros; rewrite ?some_failed_app in *; simpl in *;
    try match goal with
        | |- context [func ?x] =>
            let r := fresh "r" in
            remember (func x) as r; destruct r; simpl in *
        | H : context [func ?x] |- _ =>
            let r := fresh "r" in
            remember (func x) as r; destruct r; simpl in *
        end;
    rewrite ?orb_false_r, ?orb_true_r in *;
    try (destruct lk; simpl in * );
    inv_feed;
    repeat match goal with H : _ \/ _ |- _ => destruct H end;
    try inv_close.
Qed.

Lemma inv_step_main (items : list Item) (s s' : state) :
  Inv items s -> mnext s = Some s' -> Inv items s'.
Proof.
  intros [Hlen Hstarted Hitems Hexited Hsetter Hevent Hresult Hpending Hlock
            Hempty Hfail Hmain] Hm.
  unfold ParallelProcess.mnext in Hm.
  destruct s as [[q ev res lk lg] l m]. simpl in *.
  destruct m as [| |k|b]; simpl in *.
  - destruct (Nat.ltb_spec (length l) cpus); simplify_eq;
      constructor; simpl in *;
      rewrite ?tsum_snoc, ?in_flight_app, ?length_app; simpl;
      rewrite ?app_nil_r; try done; try lia.
    all: intros; inv_feed;
      repeat match goal with H : _ \/ _ |- _ => destruct H end; inv_close.
  - destruct ev; simplify_eq. constructor; simpl in *; try done.
    all: intros; inv_feed; inv_close.
  - destruct Hmain as [Hev Hk].
    destruct (l !! k) as [pc|] eqn:Hlk.
    + destruct pc; simplify_eq. constructor; simpl in *; try done.
      * intros; inv_feed; inv_close.
      * split; [done|]. rewrite (take_S_r _ _ _ Hlk), Hk.
        symmetry. apply (replicate_S_end k Exited).
    + simplify_eq. constructor; simpl in *; try done.
      * intros; inv_feed; inv_close.
      * apply lookup_ge_None in Hlk. rewrite take_ge in Hk by done.
        split; [done|]. split; [|done]. rewrite Hk at 1. f_equal.
        rewrite Hk. by rewrite length_replicate.
  - done.
Qed.

Lemma inv_step (items : list Item) (s s' : state) :
  Inv items s -> step s s' -> Inv items s'.
Proof.
  intros HI [i pc sh' pc' Hi Hnext|s'' Hm].
  - by eapply inv_step_thread.
  - by eapply inv_step_main.
Qed.

Lemma inv_reachable (items : list Item) (s : state) :
  rtc step (init items) s -> Inv items s.
Proof.
  intros H. apply rtc_nsteps in H as [n H]. revert s H.
  induction n as [|n IH]; intros s H.
  - apply nsteps_once_inv in H || (inversion H; subst). apply inv_init.
  - apply nsteps_inv_r in H as (s1 & H1 & H2).
    eapply inv_step; [by apply IH|done].
Qed.

(** *** Progress *)

Lemma thread_can_move (items : list Item) (s : state) i pc :
  Inv items s -> threads s !! i = Some pc -> pc <> Exited ->
  exists s', step s s'.
Proof.
  intros HI Hi Hpc. destruct (tnext (sh s) pc) as [[sh' pc']|] eqn:Hnext.
  - eexists. by eapply step_thread.
  - destruct pc; simpl in Hnext; try done.
    + by destruct (queue (sh s)).
    + destruct (lock (sh s)) eqn:Hlk; [|done].
      pose proof (inv_lock _ _ _ _ HI) as Hlock. rewrite Hlk in Hlock.
      destruct (tsum_pos_lookup holds_lock (threads s)) as (j & pcj & Hj & Hpos);
        [lia|].
      destruct pcj; simpl in Hpos; try lia;
        eexists; eapply step_thread; try exact Hj; reflexivity.
Qed.

(** A state that is not final has a successor: no deadlock. *)
Lemma step_progress (items : list Item) (s : state) :
  0 < cpus -> Inv items s ->
  (exists b, main s = Returned b) \/ exists s', step s s'.
Proof.
  intros Hcpus HI. destruct (main s) as [| |k|b] eqn:Hmain.
  - right.
    destruct (mnext s) as [s'|] eqn:Hm; [exists s'; by apply step_main|].
    unfold ParallelProcess.mnext in Hm. rewrite Hmain in Hm.
    by destruct (_ <? _)%nat.
  - right. destruct (event (sh s)) eqn:Hev.
    + eexists. apply step_main. unfold ParallelProcess.mnext.
      by rewrite Hmain, Hev.
    + assert (Hlen : length (threads s) = cpus)
        by (apply (inv_started _ _ _ _ HI); by rewrite Hmain).
      destruct (lookup_lt_is_Some_2 (threads s) 0) as [pc Hpc]; [lia|].
      eapply thread_can_move; [done..|]. intros ->.
      pose proof (inv_exited _ _ _ _ HI Hev).
      pose proof (tsum_lookup is_exited _ _ _ Hpc). simpl in *. lia.
  - right. destruct (threads s !! k) as [pc|] eqn:Hk.
    + assert (Hdec : pc = Exited \/ pc <> Exited)
        by (destruct pc; (by left) || (by right)).
      destruct Hdec as [->|Hpc].
      * eexists. apply step_main. unfold ParallelProcess.mnext.
        by rewrite Hmain, Hk.
      * by eapply thread_can_move.
    + eexists. apply step_main. unfold ParallelProcess.mnext.
      by rewrite Hmain, Hk.
  - left. by exists b.
Qed.

(** *** The final state *)

Lemma returned_state (items : list Item) (s : state) b :
  Inv items s -> main s = Returned b ->
  b = result (sh s)
  /\ event (sh s) = true
  /\ in_flight (threads s) = []
  /\ tsum pending_write (threads s) = 0.
Proof.
  intros HI Hmain. pose proof (inv_main _ _ _ _ HI) as Hm.
  rewrite Hmain in Hm. destruct Hm as (Hev & Hl & Hb).
  repeat split; [done|done| |]; rewrite Hl.
  - apply in_flight_replicate_exited.
  - by apply tsum_replicate_exited.
Qed.

Lemma returned_result (items : list Item) (s : state) b :
  Inv items s -> main s = Returned b ->
  b = negb (some_failed (log (sh s))).
Proof.
  intros HI Hmain.
  destruct (returned_state _ _ _ HI Hmain) as (-> & _ & _ & Hpend).
  destruct (some_failed (log (sh s))) eqn:Hf; simpl.
  - destruct (inv_pending _ _ _ _ HI Hf); [done|lia].
  - destruct (result (sh s)) eqn:Hr; [done|].
    pose proof (inv_result _ _ _ _ HI Hr). congruence.
Qed.

(** When the event is set, either the queue has been found empty or a
    call has failed; at the end, either way, what is logged is what the
    claim needs. *)
Lemma returned_items (items : list Item) (s : state) b :
  Inv items s -> main s = Returned b ->
  Permutation items (log (sh s) ++ queue (sh s))
  /\ (queue (sh s) = [] \/ some_failed (log (sh s)) = true).
Proof.
  intros HI Hmain.
  destruct (returned_state _ _ _ HI Hmain) as (_ & Hev & Hfl & _).
  split.
  - pose proof (inv_items _ _ _ _ HI) as Hp. by rewrite Hfl in Hp.
  - by apply (inv_event _ _ _ _ HI).
Qed.

(** *** After the stop event *)

Lemma tnext_after_event (s s' : shared) (pc pc' : @tpc Item) :
  tnext s pc = Some (s', pc') -> event s = true ->
  event s' = true
  /\ length (queue s) + at_get pc' <= length (queue s') + at_get pc.
Proof.
  intros H Hev. destruct pc; simpl in H;
    repeat match type of H with
           | context [match ?x with _ => _ end] => destruct x eqn:?
           end;
    simplify_eq; simpl in *; split; try done; try lia.
  all: match goal with |- context [if ?b then _ else _] => destruct b end;
    simpl; lia.
Qed.

Lemma step_after_event (s s' : state) :
  step s s' -> event (sh s) = true ->
  event (sh s') = true
  /\ length (queue (sh s)) + tsum at_get (threads s')
     <= length (queue (sh s')) + tsum at_get (threads s).
Proof.
  intros [i pc sh' pc' Hi Hnext|s'' Hm] Hev.
  - destruct (tnext_after_event _ _ _ _ Hnext Hev) as [Hev' Hq].
    pose proof (tsum_insert at_get _ _ _ pc' Hi). simpl. split; [done|lia].
  - unfold ParallelProcess.mnext in Hm.
    destruct (main s); simpl in Hm;
      repeat match type of Hm with
             | context [match ?x with _ => _ end] => destruct x eqn:?
             | context [if ?x then _ else _] => destruct x eqn:?
             end;
      simplify_eq; simpl; rewrite ?tsum_snoc; simpl; split; try done; lia.
Qed.

Lemma steps_after_event (s s' : state) :
  rtc step s s' -> event (sh s) = true ->
  event (sh s') = true
  /\ length (queue (sh s)) + tsum at_get (threads s')
     <= length (queue (sh s')) + tsum at_get (threads s).
Proof.
  induction 1 as [s|s1 s2 s3 H12 _ IH]; intros Hev; [split; [done|lia]|].
  destruct (step_after_event _ _ H12 Hev) as [Hev2 Hq2].
  destruct (IH Hev2) as [Hev3 Hq3]. split; [done|lia].
Qed.

(** The result is written only by a thread that holds the lock, and only
    to [False]. *)
Lemma step_result_locked (items : list Item) (s s' : state) :
  Inv items s -> step s s' -> result (sh s') <> result (sh s) ->
  lock (sh s) = true /\ result (sh s') = false.
Proof.
  intros HI [i pc sh' pc' Hi Hnext|s'' Hm] Hres.
  - simpl in *. destruct pc; simpl in Hnext;
      repeat match type of Hnext with
             | context [match ?x with _ => _ end] => destruct x eqn:?
             end;
      simplify_eq; simpl in *; try done.
    split; [|done].
    pose proof (inv_lock _ _ _ _ HI) as Hlock.
    pose proof (tsum_lookup holds_lock _ _ _ Hi). simpl in *.
    destruct (lock (sh s)); [done|lia].
  - exfalso. apply Hres. unfold ParallelProcess.mnext in Hm.
    destruct (main s); simpl in Hm;
      repeat match type of Hm with
             | context [match ?x with _ => _ end] => destruct x eqn:?
             | context [if ?x then _ else _] => destruct x eqn:?
             end;
      by simplify_eq.
Qed.

(** A schedule that runs is a sequence of steps. *)
Lemma sched_step_step w (s s' : state) :
  sched_step func cpus w s = Some s' -> step s s'.
Proof.
  destruct w as [|i]; simpl; [by apply step_main|].
  destruct (threads s !! i) as [pc|] eqn:Hi; [|done].
  destruct (tnext (sh s) pc) as [[sh' pc']|] eqn:Hnext; [|done].
  intros [= <-]. by eapply step_thread.
Qed.

Lemma run_rtc schedule (s s' : state) :
  run func cpus schedule s = Some s' -> rtc step s s'.
Proof.
  revert s. induction schedule as [|w schedule IH]; intros s; simpl.
  - by intros [= <-].
  - destruct (sched_step func cpus w s) as [s1|] eqn:Hw; [|done].
    intros H. eapply rtc_l; [by eapply sched_step_step|by apply IH].
Qed.

(** *** The thread whose call failed *)

Lemma thread_moves_step i pc (s s' : state) :
  thread_moves func i pc s s' -> step s s'.
Proof. intros (Hi & sh' & pc' & Hnext & ->). by eapply step_thread. Qed.

Lemma mnext_lookup (s s' : state) i pc :
  mnext s = Some s' -> threads s !! i = Some pc -> threads s' !! i = Some pc.
Proof.
  unfold ParallelProcess.mnext. intros Hm Hi.
  destruct (main s); simpl in Hm;
    repeat match type of Hm with
           | context [match ?x with _ => _ end] => destruct x eqn:?
           | context [if ?x then _ else _] => destruct x eqn:?
           end;
    simplify_eq; simpl; try done.
  by apply lookup_app_l_Some.
Qed.

(** A thread that stands at a place, and has returned later, has made the
    step from that place in between. *)
Lemma thread_leaves i pc (s s' : state) :
  rtc step s s' ->
  threads s !! i = Some pc -> threads s' !! i = Some Exited -> pc <> Exited ->
  exists m m', rtc step s m /\ thread_moves func i pc m m' /\ rtc step m' s'.
Proof.
  intros Hrtc. revert pc.
  induction Hrtc as [s|s s2 s' H12 H2 IH]; intros pc Hi Hend Hne;
    [congruence|].
  destruct H12 as [j pcj sh' pcj' Hj Hnext|s2 Hm].
  - destruct (decide (i = j)) as [<-|Hij].
    + exists s, {| sh := sh'; threads := <[i := pcj']> (threads s);
                   main := main s |}.
      split; [done|]. split; [|done].
      split; [done|]. exists sh', pcj'. split; [congruence|done].
    + destruct (IH pc) as (m & m' & Hm1 & Hmv & Hm2); [|done|done|].
      { simpl. by rewrite list_lookup_insert_ne. }
      exists m, m'. split; [|done].
      eapply rtc_l; [|done]. by eapply step_thread.
  - destruct (IH pc) as (m & m' & Hm1 & Hmv & Hm2); [|done|done|].
    { by eapply mnext_lookup. }
    exists m, m'. split; [|done]. eapply rtc_l; [|done]. by apply step_main.
Qed.

(** The result is [False] only after some call has returned [False]. *)
Lemma first_failure (s s' : state) :
  rtc step s s' ->
  tsum on_fail_path (threads s) = 0 -> result (sh s) = true ->
  result (sh s') = false ->
  exists a i,
    rtc step s a /\ threads a !! i = Some (TaskDone false) /\ rtc step a s'.
Proof.
  induction 1 as [s|s s2 s' H12 H2 IH]; intros Hpath Hres Hend; [congruence|].
  assert (Hnow : (exists i, threads s2 !! i = Some (TaskDone false))
                 \/ (tsum on_fail_path (threads s2) = 0
                     /\ result (sh s2) = true)).
  { destruct H12 as [j pc sh' pc' Hj Hnext|s2 Hm].
    - pose proof (tsum_lookup on_fail_path _ _ _ Hj) as Hpc.
      pose proof (tsum_insert on_fail_path _ _ _ pc' Hj) as Hins.
      pose proof (lookup_lt_Some _ _ _ Hj) as Hlt.
      destruct pc; simpl in Hnext, Hpc;
        repeat match type of Hnext with
               | context [match ?x with _ => _ end] => destruct x eqn:?
               end;
        simplify_eq; simpl in *; try lia;
        try (right; split; [lia|done]).
      destruct (func item) eqn:Hf.
      + right. split; [lia|done].
      + left. exists j. by rewrite list_lookup_insert_eq.
    - right. unfold ParallelProcess.mnext in Hm.
      destruct (main s); simpl in Hm;
        repeat match type of Hm with
               | context [match ?x with _ => _ end] => destruct x eqn:?
               | context [if ?x then _ else _] => destruct x eqn:?
               end;
        simplify_eq; simpl; rewrite ?tsum_snoc; simpl; split; (done || lia). }
  destruct Hnow as [[i Hi]|[Hpath2 Hres2]].
  - exists s2, i. split; [by apply rtc_once|done].
  - destruct (IH Hpath2 Hres2 Hend) as (a & i & Ha & Hi & Ha').
    exists a, i. split; [by eapply rtc_l|done].
Qed.

(** From the failed call to the return of the thread: the lock is taken,
    the result written, the lock released, the event set. *)
Lemma failing_thread_path (items : list Item) (a s' : state) i :
  rtc step (init items) a ->
  threads a !! i = Some (TaskDone false) ->
  rtc step a s' -> threads s' !! i = Some Exited ->
  exists w w' e e',
    rtc step a w
    /\ thread_moves func i SetResult w w'
    /\ lock (sh w) = true
    /\ tsum holds_lock (threads w) = 1
    /\ result (sh w') = false
    /\ rtc step w' e
    /\ thread_moves func i SetEvent e e'
    /\ event (sh e') = true
    /\ rtc step e' s'.
Proof.
  intros Ha Hi Has' Hend.
  (* the test of the value returned *)
  destruct (thread_leaves i _ _ _ Has' Hi Hend) as (m0 & m0' & H0 & Hmv0 & H0');
    [done|].
  destruct Hmv0 as (Hi0 & sh0 & pc0 & Hn0 & ->). simpl in Hn0.
  injection Hn0 as <- <-.
  pose proof (lookup_lt_Some _ _ _ Hi0) as Hlt0.
  (* the lock is taken *)
  destruct (thread_leaves i AcquireLock _ _ H0') as (m1 & m1' & H1 & Hmv1 & H1');
    [by apply list_lookup_insert_eq|done|done|].
  destruct Hmv1 as (Hi1 & sh1 & pc1 & Hn1 & ->). simpl in Hn1.
  destruct (lock (sh m1)) eqn:Hlock1; [done|]. injection Hn1 as <- <-.
  pose proof (lookup_lt_Some _ _ _ Hi1) as Hlt1.
  (* the result is written *)
  destruct (thread_leaves i SetResult _ _ H1') as (w & w' & H2 & Hmv2 & H2');
    [by apply list_lookup_insert_eq|done|done|].
  pose proof Hmv2 as (Hi2 & sh2 & pc2 & Hn2 & Hw'). simpl in Hn2.
  injection Hn2 as <- <-.
  pose proof (lookup_lt_Some _ _ _ Hi2) as Hlt2.
  (* the lock is released *)
  destruct (thread_leaves i ReleaseLock _ _ H2') as (m3 & m3' & H3 & Hmv3 & H3');
    [subst w'; by apply list_lookup_insert_eq|done|done|].
  destruct Hmv3 as (Hi3 & sh3 & pc3 & Hn3 & ->). simpl in Hn3.
  injection Hn3 as <- <-.
  pose proof (lookup_lt_Some _ _ _ Hi3) as Hlt3.
  (* the event is set *)
  destruct (thread_leaves i SetEvent _ _ H3') as (e & e' & H4 & Hmv4 & H4');
    [by apply list_lookup_insert_eq|done|done|].
  pose proof Hmv4 as (Hi4 & sh4 & pc4 & Hn4 & He'). simpl in Hn4.
  injection Hn4 as <- <-.
  assert (Haw : rtc step a w).
  { etrans; [exact H0|]. eapply rtc_l; [by eapply step_thread|].
    etrans; [exact H1|]. eapply rtc_l; [|exact H2].
    eapply step_thread; [done|]. simpl. by rewrite Hlock1. }
  assert (HIw : Inv items w)
    by (apply inv_reachable; by etrans).
  pose proof (inv_lock _ _ _ _ HIw) as Hlockw.
  pose proof (tsum_lookup holds_lock _ _ _ Hi2) as Hholds. simpl in Hholds.
  assert (Hlw : lock (sh w) = true) by (destruct (lock (sh w)); [done|lia]).
  rewrite Hlw in Hlockw.
  assert (Hwe : rtc step w' e).
  { etrans; [|exact H4]. etrans; [exact H3|].
    apply rtc_once. by eapply step_thread. }
  exists w, w', e, e'.
  split; [exact Haw|]. split; [exact Hmv2|]. split; [exact Hlw|].
  split; [exact Hlockw|]. split; [by subst w'|]. split; [exact Hwe|].
  split; [exact Hmv4|]. split; [by subst e'|exact H4'].
Qed.

(** *** The claims on the work loop *)

(** C1. With at least one worker thread, every run of
    [parallel_process] ends, none is stuck before the main thread returns,
    and the value returned is [True] exactly when every call of [func]
    that took place returned [True].  When [func] returns [True] on every
    item, the value is [True], the queue is empty and the items handed to
    [func] are the items given, each once. *)
Theorem parallel_process_result (items : list Item) :
  0 < cpus ->
  (forall s, Acc (flip step) s)
  /\ (forall s, rtc step (init items) s ->
        (exists b, main s = Returned b) \/ exists s', step s s')
  /\ (forall s b, rtc step (init items) s -> main s = Returned b ->
        (b = true <-> Forall (fun x => func x = true) (log (sh s)))
        /\ (Forall (fun x => func x = true) items ->
            b = true
            /\ queue (sh s) = []
            /\ Permutation (log (sh s)) items)).
Proof.
  intros Hcpus. split; [apply step_terminates|]. split.
  - intros s Hs. eapply step_progress; [done|by apply inv_reachable].
  - intros s b Hs Hmain. apply inv_reachable in Hs.
    pose proof (returned_result _ _ _ Hs Hmain) as Hb.
    destruct (returned_items _ _ _ Hs Hmain) as [Hperm Hq].
    split.
    + rewrite <- some_failed_false, Hb. by destruct (some_failed _).
    + intros Hall.
      assert (Hlog : some_failed (log (sh s)) = false).
      { apply some_failed_false in Hall.
        rewrite (some_failed_perm _ _ Hperm), some_failed_app in Hall.
        by apply orb_false_iff in Hall as [? _]. }
      rewrite Hlog in Hb, Hq. destruct Hq as [Hq|]; [|done].
      rewrite Hq, app_nil_r in Hperm. by repeat split.
Qed.

(** C2, as amended.  With exactly one item on which [func] returns
    [False], every run ends and returns [False], with the event set; the
    number of calls of [func] is between 1 and the number of items.  In
    every run that returns there is a thread whose call returned [False],
    and every such thread goes on to write the result while it holds the
    lock, alone in the critical section, and then sets the event, all
    before the return.  The result is written only under the lock.  Once the event is set, the threads
    that had passed the test of the loop and stand before [get_nowait]
    may still take an item, one each: at most [cpus - 1] more items leave
    the queue. *)
Theorem parallel_process_one_failure (items : list Item) :
  0 < cpus ->
  length (filter (fun x => func x = false) items) = 1 ->
  (forall s, Acc (flip step) s)
  /\ (forall s, rtc step (init items) s ->
        (exists b, main s = Returned b) \/ exists s', step s s')
  /\ (forall s, rtc step (init items) s ->
        (forall b, main s = Returned b ->
           b = false /\ event (sh s) = true
           /\ 1 <= length (log (sh s)) <= length items)
        /\ (forall s', step s s' -> result (sh s') <> result (sh s) ->
              lock (sh s) = true /\ result (sh s') = false)
        /\ (event (sh s) = true ->
            tsum at_get (threads s) <= cpus - 1
            /\ forall s', rtc step s s' ->
                 event (sh s') = true
                 /\ length (queue (sh s))
                    <= length (queue (sh s')) + tsum at_get (threads s)))
  /\ (forall s b, rtc step (init items) s -> main s = Returned b ->
        (exists a i,
           rtc step (init items) a
           /\ threads a !! i = Some (TaskDone false)
           /\ rtc step a s)
        /\ forall a i,
             rtc step (init items) a ->
             threads a !! i = Some (TaskDone false) ->
             rtc step a s ->
             exists w w' e e',
               rtc step a w
               /\ thread_moves func i SetResult w w'
               /\ lock (sh w) = true
               /\ tsum holds_lock (threads w) = 1
               /\ result (sh w') = false
               /\ rtc step w' e
               /\ thread_moves func i SetEvent e e'
               /\ event (sh e') = true
               /\ rtc step e' s).
Proof.
  intros Hcpus Hone.
  assert (Hreturned : forall s b, Inv items s -> main s = Returned b ->
            b = false /\ event (sh s) = true
            /\ 1 <= length (log (sh s)) <= length items).
  { intros s b Hs Hmain.
    pose proof (returned_result _ _ _ Hs Hmain) as Hb.
    destruct (returned_state _ _ _ Hs Hmain) as (_ & Hev & _ & _).
    destruct (returned_items _ _ _ Hs Hmain) as [Hperm Hq].
    assert (Hitems : some_failed items = true).
    { apply not_false_iff_true. intros Hf. apply some_failed_false in Hf.
      assert (filter (fun x => func x = false) items = []) as Hnil.
      { clear -Hf. induction Hf as [|x l Hx _ IH]; [done|].
        rewrite filter_cons_False by congruence. done. }
      by rewrite Hnil in Hone. }
    assert (Hlog : some_failed (log (sh s)) = true).
    { destruct Hq as [Hq|]; [|done].
      rewrite Hq, app_nil_r in Hperm.
      by rewrite <- (some_failed_perm _ _ Hperm). }
    rewrite Hlog in Hb. split; [done|]. split; [done|].
    apply Permutation_length in Hperm. rewrite length_app in Hperm.
    split; [|lia]. destruct (log (sh s)); [done|simpl; lia]. }
  split; [apply step_terminates|]. split; [|split].
  { intros s Hs. eapply step_progress; [done|by apply inv_reachable]. }
  - intros s Hs. apply inv_reachable in Hs. split; [|split].
    + intros b Hmain. by apply Hreturned.
    + intros s' Hstep. by eapply step_result_locked.
    + intros Hev. split.
      * pose proof (inv_setter _ _ _ _ Hs Hev).
        pose proof (inv_len _ _ _ _ Hs).
        pose proof (at_get_exited_le (threads s)). lia.
      * intros s' Hs'. destruct (steps_after_event _ _ Hs' Hev) as [Hev' Hq].
        split; [done|lia].
  - intros s b Hs Hmain.
    pose proof (inv_reachable _ _ Hs) as HI.
    destruct (Hreturned s b HI Hmain) as (-> & _ & _).
    destruct (returned_state _ _ _ HI Hmain) as (Hres & _ & _ & _).
    split.
    + destruct (first_failure _ _ Hs) as (a & i & Ha & Hi & Has);
        [done|done|done|].
      by exists a, i.
    + intros a i Ha Hi Has.
      assert (Hend : threads s !! i = Some Exited).
      { pose proof (inv_main _ _ _ _ HI) as Hm. rewrite Hmain in Hm.
        destruct Hm as (_ & Hl & _). rewrite Hl.
        apply lookup_replicate_2.
        pose proof (inv_started _ _ _ _ HI) as Hstarted.
        rewrite Hmain in Hstarted. specialize (Hstarted ltac:(done)).
        pose proof (inv_len _ _ _ _ (inv_reachable _ _ Ha)).
        pose proof (lookup_lt_Some _ _ _ Hi). lia. }
      by apply (failing_thread_path items).
Qed.

End ParallelProcessFacts.

Lemma parallel_process_result_witness :
  0 < 2
  /\ forall s b,
       rtc (ParallelProcess.step (fun b : bool => b) 2)
         (ParallelProcess.init [true; true]) s ->
       ParallelProcess.main s = ParallelProcess.Returned b ->
       b = true
       /\ ParallelProcess.queue (ParallelProcess.sh s) = []
       /\ Permutation (ParallelProcess.log (ParallelProcess.sh s)) [true; true].
Proof.
  split; [lia|]. intros s b Hs Hmain.
  refine (proj2 (proj2 (proj2
    (parallel_process_result (fun b : bool => b) 2 [true; true] _)) s b Hs Hmain) _).
  - lia.
  - by repeat constructor.
Defined.

Lemma parallel_process_one_failure_witness :
  0 < 2
  /\ length (filter (fun x : bool => x = false) [false; true]) = 1
  /\ forall s b,
       rtc (ParallelProcess.step (fun b : bool => b) 2)
         (ParallelProcess.init [false; true]) s ->
       ParallelProcess.main s = ParallelProcess.Returned b ->
       b = false
       /\ ParallelProcess.event (ParallelProcess.sh s) = true
       /\ 1 <= length (ParallelProcess.log (ParallelProcess.sh s)) <= 2.
Proof.
  split; [lia|]. split; [reflexivity|]. intros s b Hs Hmain.
  refine (proj1 (proj1 (proj2 (proj2
    (parallel_process_one_failure (fun b : bool => b) 2 [false; true] _ _))) s Hs)
    b Hmain).
  - lia.
  - reflexivity.
Defined.

(** C2, the claim as stated fails on two threads and the items
    [[false; true]] with the identity for [func]: thread 1 has passed the
    test of the loop when thread 0 fails on the first item and sets the
    event; thread 1 then takes the second item from the queue. *)
Lemma worker_dequeues_after_stop_event :
  ParallelProcess.dequeues_after_stop (fun b : bool => b) 2 [false; true].
Proof.
  unfold ParallelProcess.dequeues_after_stop.
  destruct (ParallelProcess.run (fun b : bool => b) 2
              ParallelProcess.race_schedule
              (ParallelProcess.init [false; true])) as [s|] eqn:Hrun;
    [|by vm_compute in Hrun].
  destruct (ParallelProcess.sched_step (fun b : bool => b) 2
              (ParallelProcess.Worker 1) s) as [s'|] eqn:Hstep;
    [|vm_compute in Hrun; injection Hrun as <-; by vm_compute in Hstep].
  exists s, s'. split; [by eapply run_rtc|].
  split; [vm_compute in Hrun; by injection Hrun as <-|].
  split; [by eapply sched_step_step|].
  vm_compute in Hrun. injection Hrun as <-.
  vm_compute in Hstep. injection Hstep as <-. simpl. lia.
Qed.

Example race_schedule_state :
  ParallelProcess.run (fun b : bool => b) 2 ParallelProcess.race_schedule
    (ParallelProcess.init [false; true])
  = Some {| ParallelProcess.sh :=
              {| ParallelProcess.queue := [true];
                 ParallelProcess.event := true;
                 ParallelProcess.result := false;
                 ParallelProcess.lock := false;
                 ParallelProcess.log := [false] |};
            ParallelProcess.threads :=
              [ParallelProcess.Exited; ParallelProcess.GetNowait];
            ParallelProcess.main := ParallelProcess.Spawning |}.
Proof. vm_compute. reflexivity. Qed.

(** The run goes on: thread 1 calls [func] on the item it took, comes
    back to the test and returns; the main thread joins and returns
    [False].  Both items have been processed. *)
Example race_schedule_end :
  ParallelProcess.run (fun b : bool => b) 2
    (ParallelProcess.race_schedule
       ++ [ParallelProcess.Worker 1; ParallelProcess.Worker 1;
           ParallelProcess.Worker 1; ParallelProcess.Worker 1;
           ParallelProcess.Main; ParallelProcess.Main; ParallelProcess.Main;
           ParallelProcess.Main; ParallelProcess.Main])
    (ParallelProcess.init [false; true])
  = Some {| ParallelProcess.sh :=
              {| ParallelProcess.queue := [];
                 ParallelProcess.event := true;
                 ParallelProcess.result := false;
                 ParallelProcess.lock := false;
                 ParallelProcess.log := [false; true] |};
            ParallelProcess.threads :=
              [ParallelProcess.Exited; ParallelProcess.Exited];
            ParallelProcess.main := ParallelProcess.Returned false |}.
Proof. vm_compute. reflexivity. Qed.

(** * Further properties *)

(** ** _find_globstar *)

Lemma find_globstar_from_minus_one (i : Z) (parts : list str) :
  (0 <= i)%Z ->
  Globstar._find_globstar_from i parts = (-1)%Z ->
  Forall (fun p => p <> Globstar._GLOBSTAR) parts.
Proof.
  revert i. induction parts as [|p parts IH]; intros i Hi; simpl; [done|].
  case_bool_decide as Hp; [lia|].
  intros H. constructor; [done|]. apply (IH (i + 1)%Z); [lia|done].
Qed.

Lemma find_globstar_from_first (i : Z) (parts : list str) (n : nat) :
  (0 <= i)%Z ->
  Globstar._find_globstar_from i parts = (i + Z.of_nat n)%Z
  <-> parts !! n = Some Globstar._GLOBSTAR
      /\ Forall (fun p => p <> Globstar._GLOBSTAR) (take n parts).
Proof.
  revert i n. induction parts as [|p parts IH]; intros i n Hi; simpl.
  - split; [lia|]. by intros [? _].
  - case_bool_decide as Hp.
    + destruct n as [|n]; simpl.
      * split; [by rewrite Hp|lia].
      * split; [lia|]. intros [_ Hall]. by inversion Hall.
    + destruct n as [|n]; simpl.
      * split.
        -- intros H.
           destruct (find_globstar_from_spec (i + 1) parts) as [E|(m & E & _)];
             rewrite E in H; lia.
        -- intros [[= ?] _]. done.
      * replace (i + Z.of_nat (S n))%Z with (i + 1 + Z.of_nat n)%Z by lia.
        rewrite IH by lia. split.
        -- intros [? ?]. split; [done|by constructor].
        -- intros [? Hall]. split; [done|by inversion Hall].
Qed.

(** X1. [_find_globstar] returns -1 exactly when no part is the
    recursive wildcard, and otherwise the index of its first occurrence;
    the value is below the number of parts. *)
Theorem find_globstar_first_occurrence (parts : list str) :
  (Globstar._find_globstar parts = (-1)%Z
   <-> Forall (fun p => p <> Globstar._GLOBSTAR) parts)
  /\ (forall n : nat,
        Globstar._find_globstar parts = Z.of_nat n
        <-> parts !! n = Some Globstar._GLOBSTAR
            /\ Forall (fun p => p <> Globstar._GLOBSTAR) (take n parts))
  /\ (-1 <= Globstar._find_globstar parts < Z.of_nat (length parts))%Z.
Proof.
  unfold Globstar._find_globstar. split; [|split].
  - split; [by apply find_globstar_from_minus_one|apply find_globstar_from_none].
  - intros n. by apply (find_globstar_from_first 0 parts n).
  - destruct (find_globstar_from_spec 0 parts) as [->|(m & -> & Hm)].
    + destruct parts; simpl; lia.
    + apply lookup_lt_Some in Hm. lia.
Qed.

(** ** _canonicalize *)

Lemma canonicalize_loop_coalesce (parts res : list str) (prev : bool) :
  Forall (fun p => mixes_globstar p = false) parts ->
  Globstar._canonicalize_loop parts res prev = Ok (res ++ coalesce prev parts).
Proof.
  intros H. revert res prev.
  induction H as [|p parts Hp _ IH]; intros res prev; simpl.
  - by rewrite app_nil_r.
  - unfold mixes_globstar in Hp. case_bool_decide as Hg.
    + destruct prev; simpl; rewrite IH; [done|]. by rewrite <- app_assoc.
    + simpl in Hp. rewrite andb_true_r in Hp. rewrite Hp, IH.
      by rewrite <- app_assoc.
Qed.

Lemma mixes_globstar_dec (parts : list str) :
  Forall (fun p => mixes_globstar p = false) parts
  \/ Exists (fun p => mixes_globstar p = true) parts.
Proof.
  induction parts as [|p parts [IH|IH]].
  - left. constructor.
  - destruct (mixes_globstar p) eqn:Hp.
    + right. by constructor.
    + left. by constructor.
  - right. by constructor.
Qed.

Lemma coalesce_not_adjacent (prev : bool) (parts : list str) :
  adjacent_globstars (coalesce prev parts) = false
  /\ (prev = true -> head (coalesce prev parts) <> Some Globstar._GLOBSTAR).
Proof.
  revert prev. induction parts as [|p parts IH]; intros prev; simpl.
  - split; [done|]. by intros _.
  - case_bool_decide as Hg.
    + destruct prev.
      * apply IH.
      * destruct (IH true) as [IH1 IH2]. split; [|done]. simpl.
        rewrite IH1, orb_false_r. apply andb_false_iff. right.
        destruct (coalesce true parts) as [|q l] eqn:E; [done|].
        apply bool_decide_eq_false. intros ->. by apply IH2.
    + destruct (IH false) as [IH1 _]. split.
      * simpl. rewrite IH1. by rewrite bool_decide_eq_false_2.
      * intros _. simpl. congruence.
Qed.

Lemma coalesce_filter (prev : bool) (parts : list str) :
  filter (fun p => p <> Globstar._GLOBSTAR) (coalesce prev parts)
  = filter (fun p => p <> Globstar._GLOBSTAR) parts.
Proof.
  revert prev. induction parts as [|p parts IH]; intros prev; simpl; [done|].
  case_bool_decide as Hg.
  - rewrite (filter_cons_False _ p parts) by (intros ?; done).
    destruct prev; [apply IH|].
    rewrite filter_cons_False by (intros ?; done). apply IH.
  - rewrite !filter_cons_True by done. by rewrite IH.
Qed.

Lemma coalesce_fixed (prev : bool) (parts : list str) :
  adjacent_globstars parts = false ->
  (prev = true -> head parts <> Some Globstar._GLOBSTAR) ->
  coalesce prev parts = parts.
Proof.
  revert prev. induction parts as [|p parts IH]; intros prev Hadj Hhd;
    simpl in *; [done|].
  apply orb_false_iff in Hadj as [Hp Hadj].
  case_bool_decide as Hg.
  - destruct prev; [exfalso; apply Hhd; [done|by rewrite Hg]|].
    f_equal. apply IH; [done|]. intros _.
    destruct parts as [|q parts]; [done|]. simpl in *.
    apply bool_decide_eq_false in Hp. congruence.
  - f_equal. apply IH; [done|]. by intros [=].
Qed.

Lemma coalesce_sublist (prev : bool) (parts : list str) :
  sublist (coalesce prev parts) parts.
Proof.
  revert prev. induction parts as [|p parts IH]; intros prev; simpl;
    [constructor|].
  case_bool_decide.
  - destruct prev; [by apply sublist_cons|by apply sublist_skip].
  - by apply sublist_skip.
Qed.

Lemma coalesce_Forall (P : str -> Prop) (prev : bool) (parts : list str) :
  Forall P parts -> Forall P (coalesce prev parts).
Proof.
  intros H. revert prev. induction H as [|p parts Hp _ IH]; intros prev;
    simpl; [constructor|].
  case_bool_decide; [destruct prev|]; try apply IH; by constructor.
Qed.

Lemma coalesce_find_globstar (i : Z) (parts : list str) :
  Globstar._find_globstar_from i (coalesce false parts)
  = Globstar._find_globstar_from i parts.
Proof.
  revert i. induction parts as [|p parts IH]; intros i; simpl; [done|].
  case_bool_decide as Hg; simpl.
  - by rewrite bool_decide_eq_true_2.
  - rewrite bool_decide_eq_false_2 by done. apply IH.
Qed.

(** X2. [_canonicalize] raises [ValueError] exactly when some part
    holds the recursive wildcard together with other characters; on every
    other list it returns the list with consecutive wildcards
    coalesced. *)
Theorem canonicalize_ok_iff_well_formed (parts : list str) :
  (Exists (fun p => mixes_globstar p = true) parts
   /\ Globstar._canonicalize parts = Raise ValueError)
  \/ (Forall (fun p => mixes_globstar p = false) parts
      /\ Globstar._canonicalize parts = Ok (coalesce false parts)).
Proof.
  unfold Globstar._canonicalize.
  destruct (mixes_globstar_dec parts) as [H|H].
  - right. split; [done|]. by rewrite canonicalize_loop_coalesce.
  - left. split; [done|]. by apply canonicalize_loop_raises.
Qed.

Lemma canonicalize_ok_inv (parts c : list str) :
  Globstar._canonicalize parts = Ok c ->
  Forall (fun p => mixes_globstar p = false) parts /\ c = coalesce false parts.
Proof.
  intros Hc. unfold Globstar._canonicalize in *.
  destruct (mixes_globstar_dec parts) as [H|H].
  - rewrite canonicalize_loop_coalesce in Hc by done. by injection Hc as <-.
  - rewrite (canonicalize_loop_raises _ _ _ H) in Hc. done.
Qed.

(** X3. What [_canonicalize] returns has no two recursive wildcards
    next to each other, is a sublist of the parts given, and keeps all
    the parts that are not the wildcard, in their order. *)
Theorem canonicalize_coalesces (parts c : list str) :
  Globstar._canonicalize parts = Ok c ->
  adjacent_globstars c = false
  /\ sublist c parts
  /\ filter (fun p => p <> Globstar._GLOBSTAR) c
     = filter (fun p => p <> Globstar._GLOBSTAR) parts.
Proof.
  intros Hc. apply canonicalize_ok_inv in Hc as [_ ->].
  split; [apply coalesce_not_adjacent|].
  split; [apply coalesce_sublist|apply coalesce_filter].
Qed.

(** X4. [_canonicalize] is idempotent: a list it returned is returned
    as it is. *)
Theorem canonicalize_idempotent (parts c : list str) :
  Globstar._canonicalize parts = Ok c ->
  Globstar._canonicalize c = Ok c.
Proof.
  intros Hc. apply canonicalize_ok_inv in Hc as [Hwf ->].
  unfold Globstar._canonicalize. rewrite canonicalize_loop_coalesce.
  - simpl. f_equal. apply coalesce_fixed; [apply coalesce_not_adjacent|done].
  - by apply coalesce_Forall.
Qed.

(** X5. Canonicalization does not move the first recursive wildcard:
    [_find_globstar] gives the same index before and after, and the parts
    before it, from which the start directory is built, are the same. *)
Theorem canonicalize_keeps_first_globstar (parts c : list str) :
  Globstar._canonicalize parts = Ok c ->
  Globstar._find_globstar c = Globstar._find_globstar parts
  /\ Globstar.prefix_parts_of c (Globstar._find_globstar c)
     = Globstar.prefix_parts_of parts (Globstar._find_globstar parts).
Proof.
  intros Hc. apply canonicalize_ok_inv in Hc as [_ ->].
  unfold Globstar._find_globstar. rewrite coalesce_find_globstar.
  split; [done|]. unfold Globstar.prefix_parts_of.
  destruct (find_globstar_from_spec 0 parts) as [->|(n & E & Hn)];
    [reflexivity|].
  rewrite E.
  replace (Z.to_nat (0 + Z.of_nat n)) with n by lia.
  assert (Hfirst : Forall (fun p => p <> Globstar._GLOBSTAR) (take n parts)).
  { by apply (find_globstar_from_first 0 parts n). }
  clear Hn E. revert n Hfirst.
  induction parts as [|p parts IH]; intros n Hfirst; [by destruct n|].
  destruct n as [|n]; [done|]. simpl in *.
  inversion Hfirst as [|? ? Hp Hrest]; subst.
  rewrite bool_decide_eq_false_2 by done. simpl. f_equal. by apply IH.
Qed.

Lemma canonicalize_coalesces_witness :
  Globstar._canonicalize [("a" : str); ("**" : str); ("**" : str); ("b" : str)]
  = Ok [("a" : str); ("**" : str); ("b" : str)]
  /\ adjacent_globstars [("a" : str); ("**" : str); ("b" : str)] = false
  /\ sublist [("a" : str); ("**" : str); ("b" : str)]
       [("a" : str); ("**" : str); ("**" : str); ("b" : str)].
Proof.
  assert (H : Globstar._canonicalize
                [("a" : str); ("**" : str); ("**" : str); ("b" : str)]
              = Ok [("a" : str); ("**" : str); ("b" : str)])
    by (vm_compute; reflexivity).
  split; [exact H|].
  destruct (canonicalize_coalesces _ _ H) as (H1 & H2 & _).
  split; [exact H1|exact H2].
Defined.

Lemma canonicalize_idempotent_witness :
  Globstar._canonicalize [("a" : str); ("**" : str); ("**" : str); ("b" : str)]
  = Ok [("a" : str); ("**" : str); ("b" : str)]
  /\ Globstar._canonicalize [("a" : str); ("**" : str); ("b" : str)]
     = Ok [("a" : str); ("**" : str); ("b" : str)].
Proof.
  assert (H : Globstar._canonicalize
                [("a" : str); ("**" : str); ("**" : str); ("b" : str)]
              = Ok [("a" : str); ("**" : str); ("b" : str)])
    by (vm_compute; reflexivity).
  split; [exact H|]. exact (canonicalize_idempotent _ _ H).
Defined.

Lemma canonicalize_keeps_first_globstar_witness :
  Globstar._canonicalize [("a" : str); ("**" : str); ("**" : str); ("b" : str)]
  = Ok [("a" : str); ("**" : str); ("b" : str)]
  /\ Globstar._find_globstar [("a" : str); ("**" : str); ("b" : str)]
     = Globstar._find_globstar
         [("a" : str); ("**" : str); ("**" : str); ("b" : str)].
Proof.
  assert (H : Globstar._canonicalize
                [("a" : str); ("**" : str); ("**" : str); ("b" : str)]
              = Ok [("a" : str); ("**" : str); ("b" : str)])
    by (vm_compute; reflexivity).
  split; [exact H|]. exact (proj1 (canonicalize_keeps_first_globstar _ _ H)).
Defined.

(** ** _split_path, again *)

Lemma after_last_sep_le (p : str) : PosixPath.after_last_sep p <= length p.
Proof.
  induction p as [|c p IH]; simpl; [done|].
  destruct (PosixPath.after_last_sep p); [destruct (PosixPath.is_sep c)|];
    simpl; lia.
Qed.

Lemma after_last_sep_full (p : str) :
  PosixPath.after_last_sep p = length p -> p = [] \/ last p = Some PosixPath.sep.
Proof.
  induction p as [|c p IH]; [by left|]. simpl. intros H. right.
  destruct (PosixPath.after_last_sep p) as [|k] eqn:Hk.
  - destruct (PosixPath.is_sep c) eqn:Hc; [|done].
    injection H as H. destruct p; [|done].
    apply is_sep_spec in Hc. by rewrite Hc.
  - injection H as H. destruct IH as [->|IH]; [done|done|].
    rewrite last_cons, IH. done.
Qed.

Lemma rstrip_length (strip : ascii -> bool) (s : str) :
  length (Str.rstrip strip s) <= length s.
Proof.
  destruct (rstrip_prefix strip s) as (u & Hu & _).
  rewrite Hu at 2. rewrite length_app. lia.
Qed.

(** A path that is its own directory part is made of separators. *)
Lemma split_fixed_all_sep (p : str) :
  fst (PosixPath.split p) = p -> forallb PosixPath.is_sep p = true.
Proof.
  unfold PosixPath.split. simpl.
  set (i := PosixPath.after_last_sep p).
  pose proof (after_last_sep_le p) as Hi. fold i in Hi.
  destruct (Str.truthy (take i p) && negb (forallb PosixPath.is_sep (take i p)))
    eqn:Hcond.
  - intros H. exfalso.
    assert (Hlen : length (take i p) = length p).
    { pose proof (rstrip_length PosixPath.is_sep (take i p)) as Hr.
      rewrite H in Hr. pose proof (length_take_le p i Hi). lia. }
    rewrite length_take_le in Hlen by done.
    assert (Htake : take i p = p) by (apply take_ge; lia).
    rewrite Htake in H, Hcond.
    destruct (after_last_sep_full p Hlen) as [->|Hlast]; [done|].
    rewrite <- H in Hlast. apply rstrip_last in Hlast. by cbv in Hlast.
  - intros H. rewrite H in Hcond.
    destruct p as [|c p]; [done|]. simpl in Hcond.
    by apply negb_false_iff in Hcond.
Qed.

(** The shape of what the loop of [_split_path] adds: base names, then
    possibly a root made of separators. *)
Lemma split_path_loop_shape fuel (pathname : str) (acc parts : list str) :
  Globstar._split_path_loop fuel pathname acc = Some parts ->
  exists comps root,
    parts = acc ++ comps ++ root
    /\ comps <> []
    /\ Forall (fun c => ~ In PosixPath.sep c) comps
    /\ (root = []
        \/ exists r, root = [r] /\ forallb PosixPath.is_sep r = true).
Proof.
  revert pathname acc. induction fuel as [|fuel IH]; intros pathname acc;
    [done|].
  cbn [Globstar._split_path_loop].
  pose proof (basename_no_sep pathname) as Hbase.
  pose proof (split_fixed_all_sep pathname) as Hfix.
  change (PosixPath.split pathname)
    with (fst (PosixPath.split pathname), PosixPath.basename pathname).
  cbv beta iota. set (dirname := fst (PosixPath.split pathname)) in *.
  case_bool_decide as Heq.
  - intros [= <-]. exists [PosixPath.basename pathname], [dirname].
    rewrite <- !app_assoc. split; [done|]. split; [done|].
    split; [by constructor|]. right. exists dirname. split; [done|].
    rewrite <- Heq. by apply Hfix.
  - destruct (negb (Str.truthy dirname)).
    + intros [= <-]. exists [PosixPath.basename pathname], [].
      rewrite app_nil_r. split; [done|]. split; [done|].
      split; [by constructor|by left].
    + intros H. apply IH in H as (comps & root & -> & _ & Hcomps & Hroot).
      exists (PosixPath.basename pathname :: comps), root.
      rewrite <- !app_assoc. split; [done|]. split; [done|].
      split; [by constructor|done].
Qed.

(** X6. The parts that [_split_path] returns are, in this order: at most
    one root, made of separators only (it is empty for the empty path);
    then at least one component; no component holds a separator, and the
    last one is the base name of the path. *)
Theorem split_path_shape (pathname : str) :
  exists root comps,
    Globstar._split_path pathname = root ++ comps
    /\ (root = []
        \/ exists r, root = [r] /\ forallb PosixPath.is_sep r = true)
    /\ Forall (fun c => ~ In PosixPath.sep c) comps
    /\ last comps = Some (PosixPath.basename pathname).
Proof.
  destruct (split_path_total pathname) as (parts & Hloop & Hparts).
  pose proof (split_path_last pathname) as Hlast.
  apply split_path_loop_shape in Hloop as (comps & root & -> & Hne & Hcomps & Hroot).
  exists (rev root), (rev comps). rewrite Hparts in *. simpl in *.
  rewrite rev_app_distr in *. split; [done|]. split; [|split].
  - destruct Hroot as [->|(r & -> & Hr)]; [by left|]. right. by exists r.
  - by apply Forall_rev.
  - rewrite last_app in Hlast.
    destruct (last (rev comps)) as [c|] eqn:E; [done|].
    apply last_None in E. destruct comps as [|c comps]; [done|].
    simpl in E. by destruct (rev comps).
Qed.

Lemma split_path_loop_more_fuel fuel fuel' (pathname : str)
    (acc parts : list str) :
  Globstar._split_path_loop fuel pathname acc = Some parts ->
  fuel <= fuel' ->
  Globstar._split_path_loop fuel' pathname acc = Some parts.
Proof.
  revert fuel' pathname acc. induction fuel as [|fuel IH];
    intros fuel' pathname acc; [done|].
  intros H Hle. destruct fuel' as [|fuel']; [lia|].
  cbn [Globstar._split_path_loop] in *.
  destruct (PosixPath.split pathname) as [dirname basename].
  case_bool_decide; [done|].
  destruct (negb (Str.truthy dirname)); [done|].
  apply IH; [done|lia].
Qed.

Lemma startswith_sep_no_sep (b : str) :
  ~ In PosixPath.sep b -> Str.startswith b "/" = false.
Proof.
  intros Hb. destruct b as [|c b]; [done|]. simpl.
  rewrite andb_true_r. apply Ascii.eqb_neq. intros ->. apply Hb. by left.
Qed.

Lemma last_no_sep (b : str) :
  ~ In PosixPath.sep b -> last b <> Some PosixPath.sep.
Proof.
  intros Hb Hl. apply Hb. by apply list_elem_of_In, last_Some_elem_of.
Qed.

(** On components without separator, [os.path.join] puts one separator
    between two components. *)
Lemma join_step_plain (acc b : str) :
  acc <> [] -> last acc <> Some PosixPath.sep -> ~ In PosixPath.sep b ->
  PosixPath.join_step acc b = acc ++ PosixPath.sep :: b.
Proof.
  intros Hne Hlast Hb. unfold PosixPath.join_step.
  rewrite startswith_sep_no_sep by done.
  replace (Str.truthy acc) with true by (by destruct acc).
  destruct (Str.endswith acc "/") eqn:He; [|done].
  by apply endswith_sep_last in He.
Qed.

Lemma join_plain (a : str) (p : list str) :
  a <> [] -> ~ In PosixPath.sep a ->
  Forall (fun c => c <> [] /\ ~ In PosixPath.sep c) p ->
  PosixPath.join a p = Str.join_with PosixPath.sep (a :: p).
Proof.
  intros Ha Hsep Hp. unfold PosixPath.join.
  assert (Hgen : forall pre acc,
            acc <> [] -> ~ In PosixPath.sep acc ->
            fold_left PosixPath.join_step p (pre ++ acc)
            = pre ++ Str.join_with PosixPath.sep (acc :: p)).
  { induction Hp as [|c p [Hc1 Hc2] _ IH]; intros pre acc Hacc Hacc2; [done|].
    cbn [fold_left]. rewrite join_step_plain; [| |  |done].
    - replace ((pre ++ acc) ++ PosixPath.sep :: c)
        with ((pre ++ acc ++ [PosixPath.sep]) ++ c)
        by (by rewrite <- !app_assoc).
      rewrite IH by done. cbn [Str.join_with].
      destruct p; by rewrite <- !app_assoc.
    - by destruct pre, acc.
    - rewrite last_app. destruct (last acc) as [x|] eqn:E.
      + intros [= ->]. by apply (last_no_sep acc).
      + apply last_None in E. done. }
  apply (Hgen [] a Ha Hsep).
Qed.

Lemma rstrip_snoc_strip (strip : ascii -> bool) (s : str) (c : ascii) :
  strip c = true -> Str.rstrip strip (s ++ [c]) = Str.rstrip strip s.
Proof.
  intros Hc. induction s as [|a s IH]; simpl; [by rewrite Hc|].
  by rewrite IH.
Qed.

Lemma rstrip_keep (strip : ascii -> bool) (s : str) (c : ascii) :
  last s = Some c -> strip c = false -> Str.rstrip strip s = s.
Proof.
  induction s as [|a s IH]; [done|]. intros Hl Hc. simpl.
  destruct s as [|b s].
  - simpl in *. injection Hl as ->. by rewrite Hc.
  - rewrite IH by done. done.
Qed.

Lemma join_with_cons_last (comps : list str) (c : str) :
  comps <> [] ->
  Str.join_with PosixPath.sep (comps ++ [c])
  = Str.join_with PosixPath.sep comps ++ PosixPath.sep :: c.
Proof.
  induction comps as [|a comps IH]; [done|]. intros _.
  destruct comps as [|b comps]; [done|].
  change (Str.join_with PosixPath.sep ((a :: b :: comps) ++ [c]))
    with (a ++ PosixPath.sep :: Str.join_with PosixPath.sep ((b :: comps) ++ [c])).
  rewrite IH by done.
  change (Str.join_with PosixPath.sep (a :: b :: comps))
    with (a ++ PosixPath.sep :: Str.join_with PosixPath.sep (b :: comps)).
  by rewrite <- app_assoc.
Qed.

Lemma join_with_plain_last (comps : list str) (c : str) :
  Forall (fun c => c <> [] /\ ~ In PosixPath.sep c) (comps ++ [c]) ->
  exists x, last (Str.join_with PosixPath.sep (comps ++ [c])) = Some x
            /\ x <> PosixPath.sep.
Proof.
  intros H. apply Forall_app in H as [_ H].
  inversion H as [|? ? [Hne Hsep] _]; subst.
  pose proof (join_with_last [] comps c Hne) as Hjl. simpl in Hjl.
  rewrite Hjl.
  destruct (last c) as [x|] eqn:E.
  - exists x. split; [done|]. intros ->. by apply (last_no_sep c).
  - by apply last_None in E.
Qed.

Lemma split_path_loop_join (comps : list str) (acc : list str) :
  comps <> [] ->
  Forall (fun c => c <> [] /\ ~ In PosixPath.sep c) comps ->
  exists fuel,
    Globstar._split_path_loop fuel (Str.join_with PosixPath.sep comps) acc
    = Some (acc ++ rev comps).
Proof.
  intros Hne. revert acc. induction comps as [|c comps IH] using rev_ind;
    [done|].
  intros acc Hall.
  pose proof Hall as Hall'. apply Forall_app in Hall' as [Hcomps Hc].
  inversion Hc as [|? ? [Hc1 Hc2] _]; subst.
  destruct comps as [|d comps].
  - exists 1. simpl. unfold PosixPath.split.
    rewrite after_last_sep_none by done. simpl.
    rewrite bool_decide_eq_false_2 by done. done.
  - destruct (IH ltac:(done) (acc ++ [c]) Hcomps) as [fuel Hfuel].
    exists (S fuel). cbn [Globstar._split_path_loop].
    rewrite join_with_cons_last by done.
    set (x := Str.join_with PosixPath.sep (d :: comps)) in *.
    destruct (exists_last (l := d :: comps) ltac:(done)) as (cs & e & Hcs).
    assert (Hx : exists y, last x = Some y /\ y <> PosixPath.sep).
    { subst x. rewrite Hcs. apply join_with_plain_last. by rewrite <- Hcs. }
    destruct Hx as (y & Hy & Hysep).
    assert (Hsplit : PosixPath.split (x ++ PosixPath.sep :: c) = (x, c)).
    { unfold PosixPath.split.
      replace (x ++ PosixPath.sep :: c) with ((x ++ [PosixPath.sep]) ++ c)
        by (by rewrite <- app_assoc).
      rewrite after_last_sep_app; [|done|by rewrite last_snoc].
      rewrite take_app_length, drop_app_length.
      assert (Hns : forallb PosixPath.is_sep (x ++ [PosixPath.sep]) = false).
      { apply not_true_is_false. intros Hf.
        rewrite forallb_forall in Hf.
        assert (Hin : In y (x ++ [PosixPath.sep])).
        { apply in_or_app. left.
          by apply list_elem_of_In, last_Some_elem_of. }
        apply Hf, is_sep_spec in Hin. done. }
      rewrite Hns. replace (Str.truthy (x ++ [PosixPath.sep])) with true
        by (by destruct x).
      simpl. rewrite rstrip_snoc_strip by done.
      rewrite (rstrip_keep _ x y Hy); [done|].
      apply not_true_is_false. intros Hs. by apply is_sep_spec in Hs. }
    rewrite Hsplit.
    rewrite bool_decide_eq_false_2.
    + replace (Str.truthy x) with true by (by destruct x). simpl.
      rewrite Hfuel. by rewrite rev_app_distr, <- app_assoc.
    + intros Heq. apply (f_equal length) in Heq.
      rewrite length_app in Heq. simpl in Heq. lia.
Qed.

(** X7. [_split_path] undoes [os.path.join] on components: for a
    non-empty list of non-empty components without separator, the join
    puts one separator between two components, and splitting the joined
    path gives the components back. *)
Theorem split_path_join_round_trip (comps : list str) :
  comps <> [] ->
  Forall (fun c => c <> [] /\ ~ In PosixPath.sep c) comps ->
  Globstar.join_star comps = Str.join_with PosixPath.sep comps
  /\ Globstar._split_path (Globstar.join_star comps) = comps.
Proof.
  intros Hne Hall.
  assert (Hjoin : Globstar.join_star comps = Str.join_with PosixPath.sep comps).
  { destruct comps as [|a p]; [done|]. simpl.
    inversion Hall as [|? ? [Ha1 Ha2] Hp]; subst. by apply join_plain. }
  split; [done|]. rewrite Hjoin.
  destruct (split_path_loop_join comps [] Hne Hall) as [fuel Hfuel].
  destruct (split_path_total (Str.join_with PosixPath.sep comps))
    as (parts & Hloop & ->).
  set (p := Str.join_with PosixPath.sep comps) in *.
  pose proof (split_path_loop_more_fuel _ (fuel + S (length p)) _ _ _ Hfuel
                ltac:(lia)) as H1.
  pose proof (split_path_loop_more_fuel _ (fuel + S (length p)) _ _ _ Hloop
                ltac:(lia)) as H2.
  rewrite H1 in H2. injection H2 as <-. simpl. by rewrite rev_involutive.
Qed.

Lemma split_path_join_round_trip_witness :
  [("src" : str); ("mongocxx" : str); ("client.cpp" : str)] <> []
  /\ Forall (fun c : str => c <> [] /\ ~ In PosixPath.sep c)
       [("src" : str); ("mongocxx" : str); ("client.cpp" : str)]
  /\ Globstar.join_star [("src" : str); ("mongocxx" : str); ("client.cpp" : str)]
     = ("src/mongocxx/client.cpp" : str)
  /\ Globstar._split_path "src/mongocxx/client.cpp"
     = [("src" : str); ("mongocxx" : str); ("client.cpp" : str)].
Proof.
  assert (H1 : [("src" : str); ("mongocxx" : str); ("client.cpp" : str)] <> [])
    by discriminate.
  assert (H2 : Forall (fun c : str => c <> [] /\ ~ In PosixPath.sep c)
                 [("src" : str); ("mongocxx" : str); ("client.cpp" : str)]).
  { repeat constructor; try discriminate;
      unfold PosixPath.sep; simpl; intros Hin;
      repeat (destruct Hin as [Hin|Hin]; [discriminate|]); done. }
  split; [exact H1|]. split; [exact H2|].
  destruct (split_path_join_round_trip _ H1 H2) as [Hj Hs].
  split; [exact Hj|]. exact Hs.
Defined.

(** ** _expand, again *)

(** X8. Every directory that [_expand] yields comes with a trailing
    separator, whatever the filesystem; [_expand_curdir] yields the start
    directory as the empty string and every other directory with a
    trailing separator. *)
Theorem expand_dirs_end_in_separator (fs : FS) (fuel : nat) (pathname : str) :
  Forall (fun x => fst x = KDir -> last (snd x) = Some PosixPath.sep)
    (Gen.yields (fst (Globstar._expand fs fuel pathname)))
  /\ Forall (fun x => fst x = KDir ->
                      snd x = [] \/ last (snd x) = Some PosixPath.sep)
       (Gen.yields (fst (Globstar._expand_curdir fs fuel pathname))).
Proof.
  split; [apply expand_dirs_last|].
  destruct fuel as [|fuel]; [constructor|].
  cbn [Globstar._expand_curdir].
  apply yields_seq_Forall; [constructor|].
  destruct (Globstar._list_dir fs pathname) as [[dirs files]|]; [|constructor].
  apply yields_seq_Forall; [|apply yields_seq_Forall].
  - repeat constructor.
  - apply yields_each_Forall. intros f. by repeat constructor.
  - apply yields_each_Forall. intros d. rewrite for_yield.
    eapply Forall_impl; [apply expand_dirs_last|]. intros x Hx Hk.
    right. by apply Hx.
Qed.

(** ** parallel_process, again *)

Section ParallelProcessMore.
Import ParallelProcess.
Context {Item : Type}.
Variable func : Item -> bool.
Variable cpus : nat.

#[local] Abbreviation step := (ParallelProcess.step func cpus).
#[local] Abbreviation tnext := (ParallelProcess.tnext func).
#[local] Abbreviation mnext := (ParallelProcess.mnext (Item := Item) cpus).
#[local] Abbreviation Inv := (ParallelProcess.Inv func cpus).
#[local] Abbreviation some_failed := (ParallelProcess.some_failed func).

(** X9. In every state that a run of [parallel_process] reaches, the
    calls of [func] made so far are on distinct entries of the items
    given: no item is handed to [func] twice, and none that was not
    given. *)
Theorem processed_at_most_once (items : list Item) (s : state) :
  rtc step (init items) s ->
  exists rest, Permutation items (log (sh s) ++ rest).
Proof.
  intros Hs. apply (inv_reachable func cpus) in Hs.
  exists (in_flight (threads s) ++ queue (sh s)).
  apply (inv_items _ _ _ _ Hs).
Qed.

(** *** One worker thread *)

Lemma until_first_failure_log (items lg q : list Item) :
  items = lg ++ q ->
  Forall (fun x => func x = true) (removelast lg) ->
  some_failed lg = true \/ q = [] ->
  until_first_failure func items = lg.
Proof.
  revert items. induction lg as [|x lg IH]; intros items -> Hall Hend.
  - destruct Hend as [? | ->]; done.
  - destruct lg as [|y lg].
    + simpl in *. destruct (func x) eqn:Hx; [|done].
      destruct Hend as [? | ->]; done.
    + change (removelast (x :: y :: lg)) with (x :: removelast (y :: lg)) in Hall.
      apply Forall_cons in Hall as [Hx Hrest].
      rewrite <- app_comm_cons.
      change (until_first_failure func (x :: (y :: lg) ++ q))
        with (if func x then x :: until_first_failure func ((y :: lg) ++ q)
              else [x]).
      rewrite Hx. f_equal.
      apply IH; [done|done|].
      destruct Hend as [Hf|]; [|by right]. left.
      unfold ParallelProcess.some_failed in *. cbn [existsb] in Hf.
      by rewrite Hx in Hf.
Qed.

Lemma until_first_failure_result (items : list Item) :
  negb (some_failed (until_first_failure func items)) = forallb func items.
Proof.
  unfold ParallelProcess.some_failed.
  induction items as [|x items IH]; [done|]. simpl.
  destruct (func x) eqn:Hx; simpl; by rewrite Hx.
Qed.

Lemma alone_init (items : list Item) : alone_inv func items (init items).
Proof. unfold alone_inv. simpl. by repeat split. Qed.

Lemma alone_step (items : list Item) (s s' : state) :
  cpus = 1 -> alone_inv func items s -> step s s' -> alone_inv func items s'.
Proof.
  intros Hcpus (Hitems & Hall & Hth) Hstep.
  destruct s as [[q ev res lk lg] l m].
  destruct Hstep as [i pc sh' pc' Hi Hnext|s'' Hm]; simpl in *.
  - destruct l as [|pc0 [|pc1 l]]; [done| |done].
    destruct i as [|i]; [|done]. injection Hi as ->.
    destruct Hth as [Hat Hev]. unfold alone_inv. simpl.
    unfold ParallelProcess.in_flight in *. simpl in *.
    destruct pc; simpl in Hnext;
      repeat match type of Hnext with
             | context [match ?x with _ => _ end] => destruct x eqn:?
             end;
      simplify_eq; simpl in *; rewrite ?app_nil_r in *;
      try (by specialize (Hev eq_refl)).
    all: try (repeat split;
              solve [done | by right | by left | right; by destruct Hat
                    | intros Hev'; by specialize (Hev Hev')]).
    (* the call *)
    rewrite <- app_assoc. split; [done|].
    rewrite removelast_last. split; [by apply some_failed_false|].
    split; [|intros Hev'; by specialize (Hev Hev')].
    destruct (func item) eqn:Hf;
      rewrite some_failed_app; simpl; rewrite Hat; simpl;
      unfold ParallelProcess.some_failed; simpl; by rewrite Hf.
  - unfold ParallelProcess.mnext in Hm. simpl in Hm.
    destruct m as [| |k|b]; simpl in Hm.
    + destruct (Nat.ltb_spec (length l) cpus); simplify_eq;
        unfold alone_inv; simpl; [|done].
      destruct l as [|pc0 l]; [|simpl in *; lia].
      destruct Hth as [-> ->]. simpl.
      by repeat split.
    + destruct ev; simplify_eq. by unfold alone_inv.
    + destruct (l !! k) as [[]|]; simplify_eq; by unfold alone_inv.
    + done.
Qed.

Lemma alone_reachable (items : list Item) (s : state) :
  cpus = 1 -> rtc step (init items) s -> alone_inv func items s.
Proof.
  intros Hcpus H. apply rtc_nsteps in H as [n H]. revert s H.
  induction n as [|n IH]; intros s H.
  - inversion H; subst. apply alone_init.
  - apply nsteps_inv_r in H as (s1 & H1 & H2).
    eapply alone_step; [done|by apply IH|done].
Qed.

(** X11. With one worker thread, [parallel_process] calls [func] on the
    items in their order and stops after the first call that returns
    [False]: at the return, the calls made are the items up to that one,
    and the value returned says whether [func] is [True] on all items. *)
Theorem single_worker_in_order (items : list Item) (s : state) (b : bool) :
  cpus = 1 ->
  rtc step (init items) s ->
  main s = Returned b ->
  log (sh s) = until_first_failure func items
  /\ b = forallb func items.
Proof.
  intros Hcpus Hs Hmain.
  pose proof (alone_reachable items s Hcpus Hs) as (Hitems & Hall & Hth).
  apply (inv_reachable func cpus) in Hs.
  pose proof (returned_result func cpus _ _ _ Hs Hmain) as Hb.
  pose proof (inv_main _ _ _ _ Hs) as Hm. rewrite Hmain in Hm.
  destruct Hm as (_ & Hl & _).
  pose proof (inv_started _ _ _ _ Hs) as Hlen.
  rewrite Hmain, Hcpus in Hlen. specialize (Hlen ltac:(done)).
  rewrite Hlen in Hl. simpl in Hl. rewrite Hl in Hth, Hitems.
  destruct Hth as [Hat _]. simpl in Hat, Hitems.
  assert (Hlog : until_first_failure func items = log (sh s))
    by (by apply (until_first_failure_log items _ (queue (sh s)))).
  split; [done|]. by rewrite Hb, <- Hlog, until_first_failure_result.
Qed.

End ParallelProcessMore.

Lemma processed_at_most_once_witness :
  exists s,
    rtc (ParallelProcess.step (fun b : bool => b) 2)
      (ParallelProcess.init [false; true]) s
    /\ ParallelProcess.log (ParallelProcess.sh s) = [false]
    /\ exists rest,
         Permutation [false; true]
           (ParallelProcess.log (ParallelProcess.sh s) ++ rest).
Proof.
  destruct (ParallelProcess.run (fun b : bool => b) 2
              ParallelProcess.race_schedule
              (ParallelProcess.init [false; true])) as [s|] eqn:Hrun;
    [|by vm_compute in Hrun].
  exists s.
  assert (Hs : rtc (ParallelProcess.step (fun b : bool => b) 2)
                 (ParallelProcess.init [false; true]) s)
    by (by eapply run_rtc).
  split; [exact Hs|].
  split; [vm_compute in Hrun; by injection Hrun as <-|].
  exact (processed_at_most_once (fun b : bool => b) 2 [false; true] s Hs).
Defined.

Lemma single_worker_in_order_witness :
  exists s,
    rtc (ParallelProcess.step (fun b : bool => b) 1)
      (ParallelProcess.init [true]) s
    /\ ParallelProcess.main s = ParallelProcess.Returned true
    /\ ParallelProcess.log (ParallelProcess.sh s) = [true].
Proof.
  destruct (ParallelProcess.run (fun b : bool => b) 1 lone_schedule
              (ParallelProcess.init [true])) as [s|] eqn:Hrun;
    [|by vm_compute in Hrun].
  exists s.
  assert (Hs : rtc (ParallelProcess.step (fun b : bool => b) 1)
                 (ParallelProcess.init [true]) s)
    by (by eapply run_rtc).
  assert (Hm : ParallelProcess.main s = ParallelProcess.Returned true)
    by (vm_compute in Hrun; by injection Hrun as <-).
  split; [exact Hs|]. split; [exact Hm|].
  exact (proj1 (single_worker_in_order (fun b : bool => b) 1 [true] s true
                  eq_refl Hs Hm)).
Defined.
(** ** Further properties of Repo *)

Lemma map_result_In {A B} (f : A -> result B) (l : list A) (ys : list B) :
  Repo.map_result f l = Ok ys ->
  forall y, In y ys <-> exists x, In x l /\ f x = Ok y.
Proof.
  revert ys. induction l as [|x l IH]; simpl; intros ys Hys y.
  - injection Hys as <-. split; [done|]. by intros (? & [] & _).
  - destruct (f x) as [y0|] eqn:Hx; [|done].
    destruct (Repo.map_result f l) as [ys0|]; [|done].
    injection Hys as <-. simpl. rewrite (IH ys0 eq_refl y). split.
    + intros [<-|(x' & Hin & Hfx)]; [by exists x; split; [left|]|].
      exists x'. by split; [right|].
    + intros (x' & [<-|Hin] & Hfx); [left; congruence|].
      right. by exists x'.
Qed.

(** X12. With candidates, [get_candidates] returns the joined and
    normalized paths of the files that are both in the filtered inventory
    and the local path of a candidate; each such file is taken once,
    however often the candidates name it. *)
Theorem get_candidates_intersection (cwd root gito c : str) (cs : list str) :
  exists valid_files,
    Repo.get_candidates cwd root gito (Some (c :: cs))
    = Ok (map (fun f => PosixPath.normpath (PosixPath.join2 root f))
            valid_files)
    /\ NoDup valid_files
    /\ forall f,
         In f valid_files <->
         In f (Repo._get_candidate_files gito)
         /\ exists c', In c' (c :: cs)
                       /\ Repo._get_local_dir cwd root c' = Ok f.
Proof.
  unfold Repo.get_candidates.
  destruct (map_result_ok (Repo._get_local_dir cwd root) (c :: cs)
              (get_local_dir_ok cwd root)) as [ys Hys].
  rewrite Hys. eexists. split; [reflexivity|]. split.
  - apply NoDup_elements.
  - intros f. rewrite <- list_elem_of_In, elem_of_elements.
    rewrite elem_of_intersection, !elem_of_list_to_set.
    rewrite !list_elem_of_In, (map_result_In _ _ _ Hys f).
    unfold Repo.get_candidate_files. tauto.
Qed.

(** X13. A file is in the filtered inventory exactly when it is a line of
    the output of [git ls-files], without its trailing white space, such
    that the line holds [src], holds neither [examples] nor
    [third_party], and the file ends in [.h], [.hpp] or [.cpp]. *)
Theorem candidate_files_characterized (gito f : str) :
  In f (Repo._get_candidate_files gito) <->
  exists line,
    In line (Repo.splitlines gito)
    /\ f = Str.rstrip Str.is_space line
    /\ Str.contains line "src" = true
    /\ Str.contains line "examples" = false
    /\ Str.contains line "third_party" = false
    /\ Repo.has_extension f = true.
Proof.
  split; [apply get_candidate_files_spec|].
  intros (line & Hline & -> & Hsrc & Hex & Htp & Hext).
  unfold Repo._get_candidate_files.
  apply list_elem_of_In, list_elem_of_filter. split.
  - unfold Repo.files_match_search. by rewrite Hext.
  - apply list_elem_of_In, in_map_iff. exists line. split; [done|].
    apply list_elem_of_In, list_elem_of_filter. split.
    + by rewrite Hsrc, Hex, Htp.
    + by apply list_elem_of_In.
Qed.
(** ** The patch pattern *)

Lemma match_literal (p : str) (items : list Re.item) (o c s : str)
    (r : str * str) :
  Re.match_from (Re.literal p ++ items) o c s = Some r <->
  exists s', s = p ++ s' /\ Re.match_from items o c s' = Some r.
Proof.
  revert s. induction p as [|a p IH]; intros s; simpl.
  - split; [by exists s|]. by intros (s' & -> & H).
  - destruct s as [|a' s]; [split; [done|by intros (? & ? & _)]|].
    destruct (Ascii.eqb_spec a' a) as [->|Hne].
    + unfold Re.literal in IH. rewrite IH. split.
      * intros (s' & -> & H). by exists s'.
      * intros (s' & Heq & H). injection Heq as ->. by exists s'.
    + split; [done|]. intros (s' & Heq & _). congruence.
Qed.

Lemma star_spec {R} (cls : ascii -> bool) (k : str -> option R) (s : str)
    (r : R) :
  (forall c s', cls c = true -> k (c :: s') = None) ->
  Re.star cls k s = Some r <->
  exists g rest, s = g ++ rest /\ forallb cls g = true /\ k rest = Some r.
Proof.
  intros Hk. induction s as [|c s IH]; simpl.
  - split; [by exists [], []|].
    intros (g & rest & Heq & _ & H).
    symmetry in Heq. apply app_eq_nil in Heq as [_ ->]. done.
  - destruct (cls c) eqn:Hc.
    + rewrite (Hk c s Hc).
      destruct (Re.star cls k s) as [r'|] eqn:Hs.
      * split.
        -- intros Hr. apply IH in Hr as (g & rest & -> & Hg & H).
           exists (c :: g), rest. simpl. by rewrite Hc.
        -- intros (g & rest & Heq & Hg & H).
           destruct g as [|c' g]; simpl in Heq.
           ++ subst rest. by rewrite (Hk c s Hc) in H.
           ++ injection Heq as <- ->. simpl in Hg.
              apply andb_true_iff in Hg as [_ Hg].
              apply IH. by exists g, rest.
      * split; [done|].
        intros (g & rest & Heq & Hg & H).
        destruct g as [|c' g]; simpl in Heq.
        -- subst rest. by rewrite (Hk c s Hc) in H.
        -- injection Heq as <- ->. simpl in Hg.
           apply andb_true_iff in Hg as [_ Hg].
           assert (None = Some r) by (apply IH; by exists g, rest). done.
    + split; [by exists [], (c :: s)|].
      intros (g & rest & Heq & Hg & H).
      destruct g as [|c' g]; simpl in Heq; [by subst|].
      injection Heq as <- ->. simpl in Hg. by rewrite Hc in Hg.
Qed.

Lemma star_always {R} (cls : ascii -> bool) (r : R) (s : str) :
  Re.star cls (fun _ => Some r) s = Some r.
Proof.
  induction s as [|c s IH]; simpl; [done|].
  destruct (cls c); [by rewrite IH|done].
Qed.

Lemma check_match_spec (line : str) (m : str * str) :
  Patch.check_match line = Some m <->
  exists g c tail,
    line = "diff --git a/" ++ g ++ " b/" ++ c :: tail
    /\ g <> [] /\ forallb Patch.path_char g = true
    /\ Patch.path_char c = true
    /\ m = (g ++ " b/" ++ c :: tail, (" b/" : str) ++ c :: tail).
Proof.
  unfold Patch.check_match, Patch.check. rewrite match_literal.
  set (k := fun o s2 : str =>
              Re.match_from (Re.literal " b/" ++ [Re.ClassPlus Patch.path_char])
                o s2 s2).
  assert (Hk : forall o c s', Patch.path_char c = true -> k o (c :: s') = None).
  { intros o c s' Hc. unfold k. simpl.
    destruct (Ascii.eqb_spec c " ") as [->|]; [done|done]. }
  assert (Hkspec : forall o s2 r, k o s2 = Some r <->
            exists c tail, s2 = (" b/" : str) ++ c :: tail
                           /\ Patch.path_char c = true /\ r = (o, s2)).
  { intros o s2 r. unfold k. rewrite match_literal. split.
    - intros (s' & -> & H). simpl in H. unfold Re.plus in H.
      destruct s' as [|c tail]; [done|].
      destruct (Patch.path_char c) eqn:Hc; [|done].
      rewrite star_always in H. injection H as <-. by exists c, tail.
    - intros (c & tail & -> & Hc & ->). eexists. split; [done|].
      simpl. rewrite Hc. apply star_always. }
  split.
  - intros (s' & -> & H).
    change (Re.plus Patch.path_char (k s') s' = Some m) in H.
    unfold Re.plus in H. destruct s' as [|c0 s0]; [done|].
    destruct (Patch.path_char c0) eqn:Hc0; [|done].
    apply (star_spec _ _ _ _ (Hk _)) in H as (g & rest & -> & Hg & H).
    apply Hkspec in H as (c & tail & -> & Hc & ->).
    exists (c0 :: g), c, tail. simpl. by rewrite Hc0.
  - intros (g & c & tail & -> & Hne & Hg & Hc & ->).
    exists (g ++ " b/" ++ c :: tail). split; [done|].
    change (Re.plus Patch.path_char (k (g ++ " b/" ++ c :: tail))
              (g ++ " b/" ++ c :: tail)
            = Some (g ++ " b/" ++ c :: tail, (" b/" : str) ++ c :: tail)).
    destruct g as [|c0 g]; [done|]. simpl in Hg.
    apply andb_true_iff in Hg as [Hc0 Hg].
    unfold Re.plus. simpl. rewrite Hc0.
    apply (star_spec _ _ _ _ (Hk _)). exists g, (" b/" ++ c :: tail).
    repeat split; [done|]. apply Hkspec. by exists c, tail.
Qed.

Lemma group1_app (g rest : str) : Re.group1 (g ++ rest, rest) = g.
Proof.
  unfold Re.group1. simpl.
  replace (length (g ++ rest) - length rest) with (length g)
    by (rewrite length_app; lia).
  apply take_app_length.
Qed.

(** X14. The pattern matches a line exactly when the line starts with
    [diff --git a/], then a non-empty run of characters of the class, then
    [ b/] and one more character of the class; the group is the whole run:
    the path after [a/] up to the blank. *)
Theorem check_match_characterized (line g : str) :
  Re.group1 <$> Patch.check_match line = Some g <->
  g <> [] /\ forallb Patch.path_char g = true
  /\ exists c tail,
       Patch.path_char c = true
       /\ line = "diff --git a/" ++ g ++ " b/" ++ c :: tail.
Proof.
  split.
  - destruct (Patch.check_match line) as [m|] eqn:Hm; [|done].
    apply check_match_spec in Hm as (g' & c & tail & -> & Hne & Hg & Hc & ->).
    simpl. intros Heq. injection Heq as Heq.
    assert (g = g') as -> by (rewrite <- Heq; apply group1_app).
    repeat split; [done|done|]. by exists c, tail.
  - intros (Hne & Hg & c & tail & Hc & ->).
    assert (Hm : Patch.check_match ("diff --git a/" ++ g ++ " b/" ++ c :: tail)
                 = Some (g ++ " b/" ++ c :: tail, (" b/" : str) ++ c :: tail))
      by (apply check_match_spec; by exists g, c, tail).
    rewrite Hm. simpl. f_equal. apply group1_app.
Qed.

Lemma app_cons_first_inj {A} (x : A) (l1 l2 r1 r2 : list A) :
  ~ In x l1 -> ~ In x l2 -> l1 ++ x :: r1 = l2 ++ x :: r2 -> l1 = l2.
Proof.
  revert l2. induction l1 as [|a l1 IH]; intros [|b l2] H1 H2 Heq;
    simpl in *; try done.
  - injection Heq as -> _. tauto.
  - injection Heq as -> _. tauto.
  - injection Heq as -> Heq. f_equal. apply IH; tauto.
Qed.

Lemma path_char_no_blank (g : str) :
  forallb Patch.path_char g = true -> ~ In " "%char g.
Proof.
  intros Hg Hin. apply forallb_forall with (x := " "%char) in Hg; done.
Qed.

(** X15. A line whose path after [a/] holds a character outside the
    class, an upper-case letter for one, is not matched: the file it names
    gives no candidate. *)
Theorem check_match_rejects_other_chars (p q : str) :
  ~ In " "%char p ->
  forallb Patch.path_char p = false ->
  Patch.check_match ("diff --git a/" ++ p ++ " b/" ++ q) = None.
Proof.
  intros Hblank Hp.
  destruct (Patch.check_match _) as [m|] eqn:Hm; [|done].
  apply check_match_spec in Hm as (g & c & tail & Heq & _ & Hg & _).
  apply app_inv_head in Heq.
  apply app_cons_first_inj in Heq;
    [congruence|done|by apply path_char_no_blank].
Qed.

Lemma check_match_rejects_other_chars_witness :
  ~ In " "%char ("src/Foo.cpp" : str)
  /\ forallb Patch.path_char "src/Foo.cpp" = false
  /\ Patch.check_match "diff --git a/src/Foo.cpp b/src/Foo.cpp" = None.
Proof.
  assert (H1 : ~ In " "%char ("src/Foo.cpp" : str)).
  { simpl. intros H. repeat (destruct H as [H|H]; [discriminate|]). done. }
  assert (H2 : forallb Patch.path_char "src/Foo.cpp" = false) by reflexivity.
  split; [exact H1|]. split; [exact H2|].
  exact (check_match_rejects_other_chars "src/Foo.cpp" "src/Foo.cpp" H1 H2).
Defined.

Lemma candidates_of_none (lines : list str) :
  Forall (fun line => Patch.check_match line = None) lines ->
  Patch.candidates_of lines = [].
Proof.
  unfold Patch.candidates_of.
  induction 1 as [|line lines Hline _ IH]; simpl; [done|].
  by rewrite Hline, IH.
Qed.

(** X16. When no line of the patches matches the pattern, the list of
    candidates is empty and [get_files_to_check_from_patch] returns the
    whole filtered inventory of the repository. *)
Theorem patch_without_match_gives_inventory (cwd root gito : str)
    (open_rb : str -> option str) (patches lines : list str) :
  Patch.read_patches open_rb patches = Return lines ->
  Forall (fun line => Patch.check_match line = None) lines ->
  Patch.get_files_to_check_from_patch cwd root gito open_rb patches
  = Return (map (fun f => PosixPath.normpath (PosixPath.join2 root f))
              (Repo._get_candidate_files gito)).
Proof.
  intros Hread Hnone. unfold Patch.get_files_to_check_from_patch.
  by rewrite Hread, (candidates_of_none _ Hnone).
Qed.

Lemma patch_without_match_gives_inventory_witness :
  Patch.read_patches (fun _ => Some sample_patch) [("fix.patch" : str)]
  = Return (Patch.readlines sample_patch)
  /\ Forall (fun line => Patch.check_match line = None)
       (Patch.readlines sample_patch)
  /\ Patch.get_files_to_check_from_patch "/home/u" "/repo" sample_inventory
       (fun _ => Some sample_patch) [("fix.patch" : str)]
     = Return [("/repo/src/a.cpp" : str); ("/repo/src/Foo.cpp" : str)].
Proof.
  assert (H1 : Patch.read_patches (fun _ => Some sample_patch)
                 [("fix.patch" : str)]
               = Return (Patch.readlines sample_patch))
    by (vm_compute; reflexivity).
  assert (H2 : Forall (fun line => Patch.check_match line = None)
                 (Patch.readlines sample_patch))
    by (repeat constructor).
  split; [exact H1|]. split; [exact H2|].
  exact (patch_without_match_gives_inventory "/home/u" "/repo"
           sample_inventory (fun _ => Some sample_patch)
           [("fix.patch" : str)] (Patch.readlines sample_patch) H1 H2).
Defined.

Lemma read_patches_outcome (open_rb : str -> option str) (patches : list str) :
  match Patch.read_patches open_rb patches with
  | Return _ => Forall (fun p => open_rb p <> None) patches
  | Throw e => e = IOError /\ Exists (fun p => open_rb p = None) patches
  end.
Proof.
  induction patches as [|p patches IH]; simpl; [done|].
  destruct (open_rb p) as [content|] eqn:Hp.
  - destruct (Patch.read_patches open_rb patches) as [lines|e].
    + constructor; [congruence|done].
    + destruct IH as [-> IH]. split; [done|]. by apply Exists_cons_tl.
  - split; [done|]. by apply Exists_cons_hd.
Qed.
(** ** The constructor of ClangFormat *)

Lemma bind_return {A B} (m : io A) (f : A -> io B) (b : B) :
  snd (Io.bind m f) = Return b ->
  exists a, snd m = Return a /\ snd (f a) = Return b.
Proof.
  unfold Io.bind. destruct (snd m) as [a|e]; [|done]. by exists a.
Qed.

Section ClangFormatInitProps.
Variable platform : str.
Variable environ : gmap str str.
Variables path_exists isfile isdir : str -> bool.
Variable os_path_join : str -> str -> str.
Variable find_executable : str -> option str.
Variable callo : list str -> result str.
Variable makedirs : str -> result unit.
Variable get_clang_format_from_linux_cache : str -> result unit.
Variable get_clang_format_from_llvm :
  option str -> option str -> str -> result unit.

#[local] Abbreviation keep_if_valid :=
  (ClangFormatInit.keep_if_valid callo).
#[local] Abbreviation clang_format_progname :=
  (ClangFormatInit.clang_format_progname platform path_exists).
#[local] Abbreviation init :=
  (ClangFormatInit.__init__ platform environ path_exists isfile isdir
     os_path_join find_executable callo makedirs
     get_clang_format_from_linux_cache get_clang_format_from_llvm).

Lemma validate_version_false (p : str) (warn valid : bool) :
  snd (ClangFormatInit._validate_version callo p warn) = Return valid ->
  valid = false.
Proof.
  unfold ClangFormatInit._validate_version, ClangFormat._validate_version.
  destruct (callo _) as [out|[]]; simpl; congruence.
Qed.

(** No program that passes through the version test is kept, the empty
    string apart, on which the test is not made. *)
Lemma keep_if_valid_return (found kept : option str) :
  snd (keep_if_valid found) = Return kept ->
  kept = None \/ (kept = Some [] /\ found = Some []).
Proof.
  unfold ClangFormatInit.keep_if_valid.
  destruct found as [[|c p]|]; simpl.
  - intros [= <-]. by right.
  - intros H. apply bind_return in H as (valid & Hv & H).
    apply validate_version_false in Hv as ->.
    injection H as <-. by left.
  - intros [= <-]. by left.
Qed.

(** X18. The program that the constructor settles on is never one that
    went through the version test: when it returns, [self.path] is the
    path given, if that is a file and [MONGO_CLANG_FORMAT] is not set; or
    the empty string, if the variable or the search of [PATH] gave it; or
    the program under [ProgramFiles(x86)] on win32; or else the file in
    the cache directory. *)
Theorem init_path_settled (path : option str) (cache_dir self_path : str) :
  snd (init path cache_dir) = Return self_path ->
  (path = Some self_path /\ isfile self_path = true
   /\ environ !! ("MONGO_CLANG_FORMAT" : str) = None)
  \/ (self_path = []
      /\ (environ !! ("MONGO_CLANG_FORMAT" : str) = Some []
          \/ find_executable clang_format_progname = Some []))
  \/ (platform = ("win32" : str)
      /\ exists program_files,
           environ !! ("ProgramFiles(x86)" : str) = Some program_files
           /\ self_path
              = os_path_join program_files "LLVM\bin\clang-format.exe"
           /\ path_exists self_path = true)
  \/ self_path = os_path_join cache_dir clang_format_progname.
Proof.
  unfold ClangFormatInit.__init__. intros H.
  apply bind_return in H as (sp1 & H1 & H).
  apply bind_return in H as (sp2 & H2 & H).
  apply bind_return in H as (sp3 & H3 & H).
  apply bind_return in H as (sp4 & H4 & H).
  apply bind_return in H as (sp5 & H5 & H).
  apply bind_return in H as (_ & _ & H). injection H as <-.
  (* the path given *)
  assert (Hsp1 : sp1 = None
                 \/ exists p, sp1 = Some p /\ path = Some p /\ isfile p = true).
  { destruct path as [p|]; [|injection H1 as <-; by left].
    destruct (isfile p) eqn:Hp; injection H1 as <-; [right|by left].
    by exists p. }
  (* the variable of the environment *)
  assert (Hsp2 : sp2 = None
                 \/ (sp2 = Some []
                     /\ environ !! ("MONGO_CLANG_FORMAT" : str) = Some [])
                 \/ (exists p, sp2 = Some p /\ path = Some p
                               /\ isfile p = true
                               /\ environ !! ("MONGO_CLANG_FORMAT" : str)
                                  = None)).
  { destruct (environ !! ("MONGO_CLANG_FORMAT" : str)) as [value|] eqn:Henv.
    - apply keep_if_valid_return in H2 as [->|[-> [= ->]]];
        [by left|right; by left].
    - injection H2 as <-. destruct Hsp1 as [->|(p & -> & Hp & Hf)]; [by left|].
      right; right. by exists p. }
  (* the search of PATH *)
  assert (Hsp3 : sp3 = None
                 \/ (sp3 = Some []
                     /\ (environ !! ("MONGO_CLANG_FORMAT" : str) = Some []
                         \/ find_executable clang_format_progname = Some []))
                 \/ (exists p, sp3 = Some p /\ path = Some p
                               /\ isfile p = true
                               /\ environ !! ("MONGO_CLANG_FORMAT" : str)
                                  = None)).
  { destruct Hsp2 as [->|[[-> Henv]|(p & -> & Hp & Hf & Henv)]].
    - apply keep_if_valid_return in H3 as [->|[-> Hf]]; [by left|].
      right; left. split; [done|by right].
    - injection H3 as <-. right; left. split; [done|by left].
    - injection H3 as <-. right; right. by exists p. }
  (* Program Files *)
  assert (Hsp4 : sp4 = sp3
                 \/ (platform = ("win32" : str)
                     /\ exists program_files,
                          environ !! ("ProgramFiles(x86)" : str)
                          = Some program_files
                          /\ sp4 = Some (os_path_join program_files
                                           "LLVM\bin\clang-format.exe")
                          /\ path_exists (os_path_join program_files
                                            "LLVM\bin\clang-format.exe")
                             = true)).
  { destruct (decide (platform = ("win32" : str))) as [Hwin|Hwin];
      [rewrite (bool_decide_eq_true_2 _ Hwin) in H4
      |rewrite (bool_decide_eq_false_2 _ Hwin) in H4;
       injection H4 as <-; by left].
    destruct (environ !! ("ProgramFiles(x86)" : str)) as [pf|] eqn:Hpf;
      [|done].
    destruct (path_exists _) eqn:Hex; simpl in H4; injection H4 as <-;
      [right|by left].
    split; [done|]. by exists pf. }
  destruct Hsp4 as [->|(Hwin & pf & Hpf & -> & Hex)].
  - destruct Hsp3 as [->|[[-> Hempty]|(p & -> & Hp & Hf & Henv)]].
    + apply bind_return in H5 as (_ & _ & H5).
      apply bind_return in H5 as (_ & _ & H5).
      injection H5 as <-. by repeat right.
    + injection H5 as <-. right; left. done.
    + injection H5 as <-. by left.
  - injection H5 as <-. right; right; left. split; [done|]. by exists pf.
Qed.

End ClangFormatInitProps.

Lemma init_path_settled_witness :
  snd (ClangFormatInit.__init__ "linux2" sample_environ
         (fun _ => false) (fun _ => false) (fun _ => true) PosixPath.join2
         (fun _ => Some ("/usr/bin/clang-format" : str))
         (fun _ => Ok ("clang-format version 3.6.0" : str))
         (fun _ => Ok tt) (fun _ => Ok tt) (fun _ _ _ => Ok tt)
         None "build")
  = Return ("build/clang-format" : str)
  /\ ("build/clang-format" : str)
     = PosixPath.join2 "build"
         (ClangFormatInit.clang_format_progname "linux2" (fun _ => false)).
Proof.
  assert (H : snd (ClangFormatInit.__init__ "linux2" sample_environ
                     (fun _ => false) (fun _ => false) (fun _ => true)
                     PosixPath.join2
                     (fun _ => Some ("/usr/bin/clang-format" : str))
                     (fun _ => Ok ("clang-format version 3.6.0" : str))
                     (fun _ => Ok tt) (fun _ => Ok tt) (fun _ _ _ => Ok tt)
                     None "build")
              = Return ("build/clang-format" : str))
    by (vm_compute; reflexivity).
  split; [exact H|].
  destruct (init_path_settled "linux2" sample_environ
              (fun _ => false) (fun _ => false) (fun _ => true)
              PosixPath.join2
              (fun _ => Some ("/usr/bin/clang-format" : str))
              (fun _ => Ok ("clang-format version 3.6.0" : str))
              (fun _ => Ok tt) (fun _ => Ok tt) (fun _ _ _ => Ok tt)
              None "build" "build/clang-format" H)
    as [(Hp & _)|[(He & _)|[(Hw & _)|Hc]]];
    [discriminate Hp|discriminate He|discriminate Hw|exact Hc].
Defined.
(** ** get_files_to_check *)

Lemma expand_each_empty (fs : FS) (cwd : str) (fuel : nat) (files : list str) :
  Forall (fun f => Files.expand_file_string fs cwd fuel f = Some (Ok [])) files ->
  exists cs, Files.expand_each fs cwd fuel files = Some (Ok cs)
             /\ concat cs = [].
Proof.
  induction 1 as [|f files Hf _ (cs & IH & Hcs)]; simpl.
  - by exists [].
  - rewrite Hf, IH. exists ([] :: cs). by split.
Qed.

Lemma expand_each_cons (fs : FS) (cwd : str) (fuel : nat) (f : str)
    (files : list str) :
  Files.expand_each fs cwd fuel (f :: files)
  = match Files.expand_file_string fs cwd fuel f with
    | None => None
    | Some (Raise e) => Some (Raise e)
    | Some (Ok c) =>
        match Files.expand_each fs cwd fuel files with
        | None => None
        | Some (Raise e) => Some (Raise e)
        | Some (Ok cs) => Some (Ok (c :: cs))
        end
    end.
Proof. reflexivity. Qed.

(** X19. When the patterns given to [get_files_to_check] match no path,
    and so when no pattern is given, the list of candidates is empty and
    the whole filtered inventory of the repository is returned. *)
Theorem files_without_match_give_inventory (fs : FS) (cwd root gito : str)
    (fuel : nat) (files : list str) :
  Forall (fun f => Files.expand_file_string fs cwd fuel f = Some (Ok [])) files ->
  Files.get_files_to_check fs cwd root gito fuel files
  = Some (Ok (map (fun f => PosixPath.normpath (PosixPath.join2 root f))
                (Repo._get_candidate_files gito))).
Proof.
  intros H. unfold Files.get_files_to_check.
  destruct (expand_each_empty fs cwd fuel files H) as (cs & -> & ->). done.
Qed.

(** X20. A pattern one of whose segments holds the recursive wildcard
    together with other characters makes [get_files_to_check] raise
    [ValueError], once the patterns before it have been expanded; the
    repository is not consulted. *)
Theorem files_invalid_pattern_raises (fs : FS) (cwd root gito : str)
    (fuel : nat) (before after : list str) (bad : str) :
  Forall (fun f => exists c,
            Files.expand_file_string fs cwd (S fuel) f = Some (Ok c)) before ->
  Exists (fun p => mixes_globstar p = true) (Globstar._split_path bad) ->
  Files.get_files_to_check fs cwd root gito (S fuel) (before ++ bad :: after)
  = Some (Raise ValueError).
Proof.
  intros Hbefore Hbad. unfold Files.get_files_to_check.
  assert (Hraise : Files.expand_file_string fs cwd (S fuel) bad
                   = Some (Raise ValueError)).
  { unfold Files.expand_file_string. simpl. unfold Globstar._canonicalize.
    by rewrite (canonicalize_loop_raises _ _ _ Hbad). }
  assert (Heach : Files.expand_each fs cwd (S fuel) (before ++ bad :: after)
                  = Some (Raise ValueError)).
  { induction Hbefore as [|f before [c Hf] _ IH].
    - rewrite app_nil_l, expand_each_cons. by rewrite Hraise.
    - rewrite <- app_comm_cons, expand_each_cons. by rewrite Hf, IH. }
  by rewrite Heach.
Qed.

Lemma files_without_match_give_inventory_witness :
  Forall (fun f => Files.expand_file_string sample_fs "/home/u" 1 f
                   = Some (Ok []))
    [("a/missing.cpp" : str)]
  /\ Files.get_files_to_check sample_fs "/home/u" "/repo" sample_inventory 1
       [("a/missing.cpp" : str)]
     = Some (Ok [("/repo/src/a.cpp" : str); ("/repo/src/Foo.cpp" : str)]).
Proof.
  assert (H : Forall (fun f => Files.expand_file_string sample_fs "/home/u" 1 f
                               = Some (Ok []))
                [("a/missing.cpp" : str)])
    by (repeat constructor).
  split; [exact H|].
  exact (files_without_match_give_inventory sample_fs "/home/u" "/repo"
           sample_inventory 1 [("a/missing.cpp" : str)] H).
Defined.

Lemma files_invalid_pattern_raises_witness :
  Forall (fun f => exists c,
            Files.expand_file_string sample_fs "/home/u" 1 f = Some (Ok c))
    [("a/f" : str)]
  /\ Exists (fun p => mixes_globstar p = true) (Globstar._split_path "a/b**/c")
  /\ Files.get_files_to_check sample_fs "/home/u" "/repo" sample_inventory 1
       ([("a/f" : str)] ++ ("a/b**/c" : str) :: [("f" : str)])
     = Some (Raise ValueError).
Proof.
  assert (H1 : Forall (fun f => exists c,
                  Files.expand_file_string sample_fs "/home/u" 1 f
                  = Some (Ok c))
                 [("a/f" : str)]).
  { constructor; [|constructor]. eexists. vm_compute. reflexivity. }
  assert (H2 : Exists (fun p => mixes_globstar p = true)
                 (Globstar._split_path "a/b**/c")).
  { apply Exists_cons_tl, Exists_cons_hd. vm_compute. reflexivity. }
  split; [exact H1|]. split; [exact H2|].
  exact (files_invalid_pattern_raises sample_fs "/home/u" "/repo"
           sample_inventory 0 [("a/f" : str)] [("f" : str)] "a/b**/c" H1 H2).
Defined.

(** ** The patch and git *)

Lemma git_get_candidates (cwd : str) (callo : list str -> result str)
    (r : Git.repo) (gito : str) (candidates : option (list str)) :
  Git._callgito callo (Git.path r) [("ls-files" : str)] = Ok gito ->
  Git.get_candidates cwd callo r candidates
  = Repo.get_candidates cwd (Git.root r) gito candidates.
Proof.
  intros Hls. unfold Git.get_candidates, Repo.get_candidates,
    Git._get_candidate_files. rewrite Hls.
  destruct candidates as [[|c cs]|]; [done| |done].
  by destruct (Repo.map_result _ _).
Qed.

(** X17. [get_files_to_check_from_patch] raises [IOError] when a patch
    cannot be opened, and git is not called then.  When every patch can
    be opened, it raises what [git ls-files] raises, or else what
    [git rev-parse] raises, for the base directory; when both answer, it
    raises nothing and returns what [get_candidates] gives for the root
    and the inventory that git printed. *)
Theorem patch_errors_from_open_and_git (cwd : str)
    (callo : list str -> result str) (script_base : str)
    (open_rb : str -> option str) (patches : list str) :
  (Exists (fun p => open_rb p = None) patches ->
   Git.get_files_to_check_from_patch cwd callo script_base open_rb patches
   = Throw IOError)
  /\ (Forall (fun p => open_rb p <> None) patches ->
      let base_dir := Git.get_base_dir callo script_base in
      match Git._callgito callo base_dir [("ls-files" : str)],
            Git._callgito callo base_dir
              [("rev-parse" : str); ("--show-toplevel" : str)] with
      | Raise e, _ | Ok _, Raise e =>
          Git.get_files_to_check_from_patch cwd callo script_base open_rb
            patches
          = Throw (Other e)
      | Ok gito, Ok out =>
          exists valid_files,
            Git.get_files_to_check_from_patch cwd callo script_base open_rb
              patches
            = Return valid_files
            /\ Patch.get_files_to_check_from_patch cwd
                 (Str.rstrip Str.is_space out) gito open_rb patches
               = Return valid_files
      end).
Proof.
  unfold Git.get_files_to_check_from_patch,
    Patch.get_files_to_check_from_patch.
  pose proof (read_patches_outcome open_rb patches) as Hread.
  destruct (Patch.read_patches open_rb patches) as [lines|e]; split.
  - intros Hex. apply Exists_exists in Hex as (p & Hin & Hp).
    rewrite Forall_forall in Hread. by apply Hread in Hin.
  - intros _. cbv zeta.
    unfold Git.get_repos, Git.__init__, Git._get_candidate_files,
      Git._get_root. cbn [Repo.map_result].
    set (base_dir := Git.get_base_dir callo script_base).
    destruct (Git._callgito callo base_dir [("ls-files" : str)])
      as [gito|e] eqn:Hls; [|done].
    destruct (Git._callgito callo base_dir
                [("rev-parse" : str); ("--show-toplevel" : str)])
      as [out|e] eqn:Hrp; [|done].
    cbn [Repo.map_result].
    rewrite (git_get_candidates cwd callo _ gito) by done.
    cbn [Git.root].
    assert (Hok : exists v,
              Repo.get_candidates cwd (Str.rstrip Str.is_space out) gito
                (Some (Patch.candidates_of lines)) = Ok v).
    { unfold Repo.get_candidates.
      destruct (Patch.candidates_of lines) as [|c cs]; [by eexists|].
      destruct (map_result_ok
                  (Repo._get_local_dir cwd (Str.rstrip Str.is_space out))
                  (c :: cs) (get_local_dir_ok cwd _)) as [ys ->].
      by eexists. }
    destruct Hok as [v Hv]. rewrite Hv. exists v.
    cbn [concat]. by rewrite app_nil_r.
  - intros _. by destruct Hread as [-> _].
  - intros Hall. destruct Hread as [_ Hex].
    apply Exists_exists in Hex as (p & Hin & Hp).
    rewrite Forall_forall in Hall. by apply Hall in Hin.
Qed.

(** When git fails, so does the function, although every patch was
    read. *)
Example patch_git_failure :
  Git.get_files_to_check_from_patch "/home/u"
    (fun _ => Raise CalledProcessError) "/repo"
    (fun _ => Some sample_patch) [("fix.patch" : str)]
  = Throw (Other CalledProcessError).
Proof. vm_compute. reflexivity. Qed.

(** ** parallel_process with a func that may raise *)

Section ParallelProcessRaiseFacts.
Import ParallelProcess.
Context {Item : Type}.
Variable func : Item -> option bool.
Variable cpus : nat.

#[local] Abbreviation rstep := (ParallelProcessRaise.step func cpus).
#[local] Abbreviation rtnext := (ParallelProcessRaise.tnext func).
#[local] Abbreviation mnext := (ParallelProcess.mnext (Item := Item) cpus).
#[local] Abbreviation RInv := (ParallelProcessRaise.Inv func).
#[local] Abbreviation failed := (ParallelProcessRaise.some_failed func).
#[local] Arguments Nat.mul : simpl never.

Ltac feed :=
  repeat match goal with
         | H : ?P -> _ |- _ =>
             let HP := fresh in
             assert (HP : P) by (done || lia);
             specialize (H HP)
         end.

Ltac close :=
  first [ done | lia | tauto
        | left; (done || lia) | right; (done || lia) ].

(** With a [func] that raises on no item the threads step as in
    [ParallelProcess]. *)
Lemma tnext_without_raise (f : Item -> bool) (s : shared) (pc : tpc) :
  ParallelProcessRaise.tnext (fun x => Some (f x)) s pc
  = ParallelProcess.tnext f s pc.
Proof. by destruct pc. Qed.

Lemma failed_app (l1 l2 : list Item) :
  failed (l1 ++ l2) = failed l1 || failed l2.
Proof. unfold ParallelProcessRaise.some_failed. apply existsb_app. Qed.

Lemma failed_false (l : list Item) :
  failed l = false <-> Forall (fun x => func x <> Some false) l.
Proof.
  unfold ParallelProcessRaise.some_failed. induction l as [|x l IH]; simpl.
  - split; [constructor|done].
  - rewrite orb_false_iff, IH, Forall_cons. split.
    + intros [Hx Hl]. split; [|done]. intros Hf. by rewrite Hf in Hx.
    + intros [Hx Hl]. split; [|done]. by destruct (func x) as [[]|].
Qed.

Lemma rinv_init (items : list Item) : RInv items (init items).
Proof. constructor; simpl; try done; unfold tsum; simpl; lia. Qed.

Lemma rinv_step_thread (items : list Item) (s : state) i pc sh' pc' :
  RInv items s ->
  threads s !! i = Some pc ->
  rtnext (sh s) pc = Some (sh', pc') ->
  RInv items {| sh := sh'; threads := <[i := pc']> (threads s);
                main := main s |}.
Proof.
  intros [Hitems Hevent Hpending Hempty Hfail Hmain] Hi Hnext.
  pose proof (tsum_insert saw_empty _ _ _ pc' Hi) as E2.
  pose proof (tsum_insert pending_write _ _ _ pc' Hi) as E4.
  pose proof (tsum_insert on_fail_path _ _ _ pc' Hi) as E5.
  pose proof (tsum_lookup saw_empty _ _ _ Hi) as B2.
  pose proof (tsum_lookup pending_write _ _ _ Hi) as B4.
  pose proof (tsum_lookup on_fail_path _ _ _ Hi) as B5.
  destruct (in_flight_split _ _ _ Hi) as (rest & Hr1 & Hr2).
  specialize (Hr2 pc').
  assert (Hjoin : forall k, take k (threads s) = replicate k Exited ->
                    pc <> Exited ->
                    take k (<[i := pc']> (threads s)) = replicate k Exited)
    by (intros k Hk Hpc; by eapply take_insert_live).
  assert (Hall : threads s = replicate (length (threads s)) Exited ->
                 pc = Exited) by (intros Hl; by eapply all_exited_lookup).
  destruct s as [[q ev res lk lg] l m]. simpl in *.
  destruct pc; simpl in Hnext;
    repeat match type of Hnext with
           | context [match ?x with _ => _ end] => destruct x eqn:?
           end;
    simplify_eq; constructor; simpl in *;
    rewrite ?length_insert; try done; try lia; try tauto.
  (* the items *)
  all: try (match goal with |- Permutation _ _ => idtac end;
            rewrite Hr2; rewrite Hitems, Hr1; simpl;
            rewrite <- ?app_assoc; simpl;
            first [ done | apply Permutation_app_head, Permutation_middle
                  | apply Permutation_app_head; symmetry;
                    apply Permutation_middle ]).
  (* the main thread *)
  all: try (match goal with |- context [replicate] => idtac end;
            destruct m; [done|done| |];
            [ destruct Hmain as [Hev Hk]; split; [done|];
              by apply Hjoin
            | destruct Hmain as (Hev & Hl & Hb);
              by specialize (Hall Hl) ]).
  (* the counts *)
  all: intros; rewrite ?failed_app in *; simpl in *;
    repeat match goal with
           | H : func ?x = _ |- _ => rewrite H in *; simpl in *
           end;
    rewrite ?orb_false_r, ?orb_true_r in *;
    try (destruct lk; simpl in * );
    feed;
    repeat match goal with H : _ \/ _ |- _ => destruct H end;
    try close.
  all: match goal with H : func _ = Some ?b |- _ => destruct b end;
    simpl in *; rewrite ?orb_false_r, ?orb_true_r in *;
    feed;
    repeat match goal with H : _ \/ _ |- _ => destruct H end;
    close.
Qed.

Lemma rinv_step_main (items : list Item) (s s' : state) :
  RInv items s -> mnext s = Some s' -> RInv items s'.
Proof.
  intros [Hitems Hevent Hpending Hempty Hfail Hmain] Hm.
  unfold ParallelProcess.mnext in Hm.
  destruct s as [[q ev res lk lg] l m]. simpl in *.
  destruct m as [| |k|b]; simpl in *.
  - destruct (Nat.ltb_spec (length l) cpus); simplify_eq;
      constructor; simpl in *;
      rewrite ?tsum_snoc, ?in_flight_app, ?length_app; simpl;
      rewrite ?app_nil_r; try done; try lia.
    all: intros; feed;
      repeat match goal with H : _ \/ _ |- _ => destruct H end; close.
  - destruct ev; simplify_eq. constructor; simpl in *; try done.
  - destruct Hmain as [Hev Hk].
    destruct (l !! k) as [pc|] eqn:Hlk.
    + destruct pc; simplify_eq. constructor; simpl in *; try done.
      split; [done|]. rewrite (take_S_r _ _ _ Hlk), Hk.
      symmetry. apply (replicate_S_end k Exited).
    + simplify_eq. constructor; simpl in *; try done.
      apply lookup_ge_None in Hlk. rewrite take_ge in Hk by done.
      split; [done|]. split; [|done]. rewrite Hk at 1. f_equal.
      rewrite Hk. by rewrite length_replicate.
  - done.
Qed.

Lemma rinv_reachable (items : list Item) (s : state) :
  rtc rstep (init items) s -> RInv items s.
Proof.
  intros H. apply rtc_nsteps in H as [n H]. revert s H.
  induction n as [|n IH]; intros s H.
  - inversion H; subst. apply rinv_init.
  - apply nsteps_inv_r in H as (s1 & H1 & H2).
    specialize (IH s1 H1).
    destruct H2 as [i pc sh' pc' Hi Hnext|s'' Hm].
    + by eapply rinv_step_thread.
    + by eapply rinv_step_main.
Qed.

(** X10. When [func] may raise, [parallel_process] returns [True] only
    after every item has been handed to [func], once each, and no call
    has returned [False]; the queue is empty then.  A call that raised
    does not count against the result. *)
Theorem true_means_none_failed (items : list Item) (s : state) :
  rtc rstep (init items) s ->
  main s = Returned true ->
  Permutation (log (sh s)) items
  /\ queue (sh s) = []
  /\ Forall (fun x => func x <> Some false) items.
Proof.
  intros Hs Hmain. apply rinv_reachable in Hs.
  destruct Hs as [Hitems Hevent Hpending Hempty Hfail Hm].
  rewrite Hmain in Hm. destruct Hm as (Hev & Hl & Hres).
  assert (Hpend : tsum pending_write (threads s) = 0)
    by (rewrite Hl; by apply tsum_replicate_exited).
  assert (Hfl : in_flight (threads s) = [])
    by (rewrite Hl; apply in_flight_replicate_exited).
  assert (Hlog : failed (log (sh s)) = false).
  { destruct (failed (log (sh s))) eqn:Hf; [|done].
    destruct (Hpending eq_refl) as [Hr|Hp]; [congruence|lia]. }
  destruct (Hevent Hev) as [Hq|Hf]; [|congruence].
  rewrite Hfl, Hq, app_nil_r in Hitems. simpl in Hitems.
  split; [by symmetry|]. split; [done|].
  apply failed_false in Hlog.
  eapply Permutation_Forall; [symmetry; exact Hitems|done].
Qed.

Lemma rrun_rtc schedule (s s' : state) :
  ParallelProcessRaise.run func cpus schedule s = Some s' -> rtc rstep s s'.
Proof.
  revert s. induction schedule as [|w schedule IH]; intros s; simpl.
  - by intros [= <-].
  - destruct (ParallelProcessRaise.sched_step func cpus w s) as [s1|] eqn:Hw;
      [|done].
    intros H. eapply rtc_l; [|by apply IH].
    destruct w as [|i]; simpl in Hw; [by apply ParallelProcessRaise.step_main|].
    destruct (threads s !! i) as [pc|] eqn:Hi; [|done].
    destruct (rtnext (sh s) pc) as [[sh' pc']|] eqn:Hnext; [|done].
    injection Hw as <-. by eapply ParallelProcessRaise.step_thread.
Qed.


Lemma lone_raiser_step (x : Item) (s s' : state) :
  cpus = 1 -> func x = None ->
  ParallelProcessRaise.lone_raiser x s -> rstep s s' ->
  ParallelProcessRaise.lone_raiser x s'.
Proof.
  intros Hcpus Hx (Hev & Hmain & Hth) Hstep.
  destruct s as [[q ev res lk lg] l m]. simpl in *. subst ev.
  destruct Hstep as [i pc sh' pc' Hi Hnext|s' Hm]; simpl in *.
  - destruct l as [|pc0 [|pc1 l]]; [done| |done].
    destruct i as [|i]; [|done]. injection Hi as ->.
    unfold ParallelProcessRaise.lone_raiser. simpl.
    destruct pc; simpl in Hnext; try done.
    + injection Hnext as <- <-. done.
    + destruct Hth as [q' ->]. injection Hnext as <- <-. done.
    + subst item. rewrite Hx in Hnext. injection Hnext as <- <-. done.
  - unfold ParallelProcess.mnext in Hm. simpl in Hm.
    destruct Hmain as [->| ->]; simpl in Hm; [|done].
    destruct (Nat.ltb_spec (length l) cpus); simplify_eq;
      unfold ParallelProcessRaise.lone_raiser; simpl.
    + destruct l as [|pc0 l]; [|simpl in *; lia].
      split; [done|]. split; [by left|done].
    + split; [done|]. split; [by right|done].
Qed.

Lemma lone_raiser_reachable (x : Item) (items : list Item) (s : state) :
  cpus = 1 -> func x = None ->
  rtc rstep (init (x :: items)) s -> ParallelProcessRaise.lone_raiser x s.
Proof.
  intros Hcpus Hx H. apply rtc_nsteps in H as [n H]. revert s H.
  induction n as [|n IH]; intros s H.
  - inversion H; subst. split; [done|]. split; [by left|]. by exists items.
  - apply nsteps_inv_r in H as (s1 & H1 & H2).
    eapply lone_raiser_step; [done|done|by apply IH|done].
Qed.

(** X21. With one worker thread, when [func] raises on the first item
    [parallel_process] never returns: the thread ends on the exception
    without setting the event, and the main thread waits for the event
    for ever. *)
Theorem raise_on_one_thread_hangs (x : Item) (items : list Item) :
  cpus = 1 -> func x = None ->
  (forall s b, rtc rstep (init (x :: items)) s -> main s <> Returned b)
  /\ exists s,
       rtc rstep (init (x :: items)) s
       /\ main s = Waiting
       /\ threads s = [Exited]
       /\ event (sh s) = false
       /\ forall s', ~ rstep s s'.
Proof.
  intros Hcpus Hx. split.
  - intros s b Hs Hmain.
    destruct (lone_raiser_reachable x items s Hcpus Hx Hs)
      as (_ & [Hm|Hm] & _); congruence.
  - assert (Hrun : ParallelProcessRaise.run func cpus
                     ParallelProcessRaise.hang_schedule (init (x :: items))
                   = Some {| sh := {| queue := items; event := false;
                                      result := true; lock := false;
                                      log := [x] |};
                             threads := [Exited];
                             main := Waiting |}).
    { subst cpus. simpl. unfold ParallelProcessRaise.sched_step. simpl.
      by rewrite Hx. }
    eexists. split; [by eapply rrun_rtc|]. repeat split.
    intros s' Hstep. inversion Hstep as [i pc sh' pc' Hi Hnext|s'' Hm]; subst.
    + simpl in Hi. destruct i as [|i]; [|done]. injection Hi as <-. done.
    + done.
Qed.

End ParallelProcessRaiseFacts.

Lemma true_means_none_failed_witness :
  exists s,
    rtc (ParallelProcessRaise.step (fun x : option bool => x) 2)
      (ParallelProcess.init [None; Some true]) s
    /\ ParallelProcess.main s = ParallelProcess.Returned true
    /\ Permutation (ParallelProcess.log (ParallelProcess.sh s))
         [None; Some true]
    /\ ParallelProcess.queue (ParallelProcess.sh s) = [].
Proof.
  destruct (ParallelProcessRaise.run (fun x : option bool => x) 2
              ParallelProcessRaise.raise_schedule
              (ParallelProcess.init [None; Some true])) as [s|] eqn:Hrun;
    [|by vm_compute in Hrun].
  exists s.
  assert (Hs : rtc (ParallelProcessRaise.step (fun x : option bool => x) 2)
                 (ParallelProcess.init [None; Some true]) s)
    by (by eapply rrun_rtc).
  assert (Hm : ParallelProcess.main s = ParallelProcess.Returned true)
    by (vm_compute in Hrun; by injection Hrun as <-).
  split; [exact Hs|]. split; [exact Hm|].
  destruct (true_means_none_failed (fun x : option bool => x) 2
              [None; Some true] s Hs Hm) as (Hp & Hq & _).
  by split.
Defined.

Lemma raise_on_one_thread_hangs_witness :
  exists s,
    rtc (ParallelProcessRaise.step (fun x : option bool => x) 1)
      (ParallelProcess.init [None; Some true]) s
    /\ ParallelProcess.main s = ParallelProcess.Waiting
    /\ ParallelProcess.event (ParallelProcess.sh s) = false
    /\ forall s', ~ ParallelProcessRaise.step (fun x : option bool => x) 1 s s'.
Proof.
  destruct (proj2 (raise_on_one_thread_hangs (fun x : option bool => x) 1
                     None [Some true] eq_refl eq_refl))
    as (s & Hs & Hm & _ & Hev & Hstuck).
  by exists s.
Defined.

(** The run of [raise_schedule]: the call on the first item raised, and
    the value returned is [True]. *)
Example raise_schedule_end :
  ParallelProcessRaise.run (fun x : option bool => x) 2
    ParallelProcessRaise.raise_schedule
    (ParallelProcess.init [None; Some true])
  = Some {| ParallelProcess.sh :=
              {| ParallelProcess.queue := [];
                 ParallelProcess.event := true;
                 ParallelProcess.result := true;
                 ParallelProcess.lock := false;
                 ParallelProcess.log := [None; Some true] |};
            ParallelProcess.threads :=
              [ParallelProcess.Exited; ParallelProcess.Exited];
            ParallelProcess.main := ParallelProcess.Returned true |}.
Proof. vm_compute. reflexivity. Qed.
